(** * ineffassign: the exclude configuration (exclude.go)

    A shallow embedding of [exclude.go] and of the Go library functions it
    calls, followed by the properties of [UnmarshalJSON] and [Excluded].

    Go strings are byte sequences: they are modelled as [string], whose
    characters ([ascii]) are the bytes.  The type [Exclude] is a Go map from
    string to string; a Go map is either nil or an allocated table, and
    ranging over it visits every key once in an order the runtime picks.

    The library functions are those of Go 1.21 on a Unix system:
    [unicode/utf8], [path/filepath] (Match, Glob, Clean, Join, Abs) and
    [encoding/json] decoding into a [map[string]string]. *)

From Stdlib Require Import String Ascii NArith List Lia.
From stdpp Require Import gmap strings list.

Local Open Scope string_scope.
Local Open Scope N_scope.

#[local] Set Warnings "-register-all".

(** ** Bytes and strings *)

Module Bytes.

Definition byte (c : ascii) : N := N_of_ascii c.

Definition eqb (c d : ascii) : bool := Ascii.eqb c d.

(** [s[n:]] for [n <= len(s)]. *)
Fixpoint drop (n : nat) (s : string) : string :=
  match n, s with
  | O, _ => s
  | S n', String _ s' => drop n' s'
  | S _, EmptyString => EmptyString
  end.

(** [s[:n]] for [n <= len(s)]. *)
Fixpoint take (n : nat) (s : string) : string :=
  match n, s with
  | O, _ => EmptyString
  | S n', String c s' => String c (take n' s')
  | S _, EmptyString => EmptyString
  end.

Definition is_empty (s : string) : bool :=
  match s with EmptyString => true | String _ _ => false end.

(** [strings.Contains(s, string(c))]. *)
Fixpoint contains_byte (c : ascii) (s : string) : bool :=
  match s with
  | EmptyString => false
  | String d s' => eqb c d || contains_byte c s'
  end.

(** [strings.ContainsAny(s, chars)]. *)
Fixpoint contains_any (chars s : string) : bool :=
  match s with
  | EmptyString => false
  | String d s' => contains_byte d chars || contains_any chars s'
  end.

Definition has_prefix_byte (c : ascii) (s : string) : bool :=
  match s with
  | String d _ => eqb c d
  | EmptyString => false
  end.

End Bytes.

(** ** unicode/utf8 *)

Module utf8.

Import Bytes.

Definition RuneError : N := 0xFFFD.
Definition RuneSelf : N := 0x80.
Definition MaxRune : N := 0x10FFFF.

(** The table [first] together with [acceptRanges]: for a leading byte, the
    length of the sequence and the range allowed for the second byte; [None]
    for a byte that starts no multi-byte sequence. *)
Definition first (b0 : N) : option (nat * N * N) :=
  if (0xC2 <=? b0) && (b0 <=? 0xDF) then Some (2%nat, 0x80, 0xBF)
  else if b0 =? 0xE0 then Some (3%nat, 0xA0, 0xBF)
  else if (0xE1 <=? b0) && (b0 <=? 0xEC) then Some (3%nat, 0x80, 0xBF)
  else if b0 =? 0xED then Some (3%nat, 0x80, 0x9F)
  else if (0xEE <=? b0) && (b0 <=? 0xEF) then Some (3%nat, 0x80, 0xBF)
  else if b0 =? 0xF0 then Some (4%nat, 0x90, 0xBF)
  else if (0xF1 <=? b0) && (b0 <=? 0xF3) then Some (4%nat, 0x80, 0xBF)
  else if b0 =? 0xF4 then Some (4%nat, 0x80, 0x8F)
  else None.

Definition locb : N := 0x80.
Definition hicb : N := 0xBF.
Definition maskx : N := 0x3F.
Definition mask2 : N := 0x1F.
Definition mask3 : N := 0x0F.
Definition mask4 : N := 0x07.

(** [utf8.DecodeRuneInString]: the first rune of [s] and its width in bytes;
    [(RuneError, 0)] for the empty string and [(RuneError, 1)] for an
    encoding that is not valid. *)
Definition DecodeRuneInString (s : string) : N * nat :=
  match s with
  | EmptyString => (RuneError, 0%nat)
  | String c0 t0 =>
      let s0 := byte c0 in
      if s0 <? RuneSelf then (s0, 1%nat)
      else
        match first s0 with
        | None => (RuneError, 1%nat)
        | Some (sz, lo, hi) =>
            if (String.length s <? sz)%nat then (RuneError, 1%nat)
            else
              match t0 with
              | EmptyString => (RuneError, 1%nat)
              | String c1 t1 =>
                  let s1 := byte c1 in
                  if (s1 <? lo) || (hi <? s1) then (RuneError, 1%nat)
                  else if (sz <=? 2)%nat then
                    (N.lor (N.shiftl (N.land s0 mask2) 6) (N.land s1 maskx), 2%nat)
                  else
                    match t1 with
                    | EmptyString => (RuneError, 1%nat)
                    | String c2 t2 =>
                        let s2 := byte c2 in
                        if (s2 <? locb) || (hicb <? s2) then (RuneError, 1%nat)
                        else if (sz <=? 3)%nat then
                          (N.lor (N.shiftl (N.land s0 mask3) 12)
                             (N.lor (N.shiftl (N.land s1 maskx) 6) (N.land s2 maskx)),
                           3%nat)
                        else
                          match t2 with
                          | EmptyString => (RuneError, 1%nat)
                          | String c3 _ =>
                              let s3 := byte c3 in
                              if (s3 <? locb) || (hicb <? s3) then (RuneError, 1%nat)
                              else
                                (N.lor (N.shiftl (N.land s0 mask4) 18)
                                   (N.lor (N.shiftl (N.land s1 maskx) 12)
                                      (N.lor (N.shiftl (N.land s2 maskx) 6)
                                         (N.land s3 maskx))),
                                 4%nat)
                          end
                    end
              end
        end
  end.

Definition byte_of (n : N) : ascii := ascii_of_N n.

(** [utf8.EncodeRune] (as [utf8.AppendRune] to the empty string): surrogate
    halves and values past [MaxRune] are written as [RuneError]. *)
Definition EncodeRune (r : N) : string :=
  let enc3 (r : N) :=
    String (byte_of (N.lor 0xE0 (N.shiftr r 12)))
      (String (byte_of (N.lor 0x80 (N.land (N.shiftr r 6) maskx)))
         (String (byte_of (N.lor 0x80 (N.land r maskx))) EmptyString)) in
  if r <=? 0x7F then String (byte_of r) EmptyString
  else if r <=? 0x7FF then
    String (byte_of (N.lor 0xC0 (N.shiftr r 6)))
      (String (byte_of (N.lor 0x80 (N.land r maskx))) EmptyString)
  else if (MaxRune <? r) || ((0xD800 <=? r) && (r <=? 0xDFFF)) then enc3 RuneError
  else if r <=? 0xFFFF then enc3 r
  else
    String (byte_of (N.lor 0xF0 (N.shiftr r 18)))
      (String (byte_of (N.lor 0x80 (N.land (N.shiftr r 12) maskx)))
         (String (byte_of (N.lor 0x80 (N.land (N.shiftr r 6) maskx)))
            (String (byte_of (N.lor 0x80 (N.land r maskx))) EmptyString))).

End utf8.

(** ** The process environment

    What the code reads of the process and of the file system: the working
    directory ([os.Getwd], which can fail), whether a path exists
    ([os.Lstat] returns no error) and the sorted names in a directory
    ([None] when the path cannot be opened as a directory). *)

Module os.

Record Env : Type := {
  Getwd : option string;
  Lstat : string -> bool;
  ReadDir : string -> option (list string)
}.

End os.

(** ** path/filepath *)

Module filepath.

Import Bytes.

Definition Separator : ascii := "/"%char.

(** The error value [filepath.ErrBadPattern], the only error of [Match] and
    [Glob]; its message is [ErrBadPattern_Error]. *)
Inductive PatternError : Type := ErrBadPattern.

Definition ErrBadPattern_Error : string := "syntax error in pattern".

(** [getEsc] gets a possibly-escaped character from [chunk], for a character
    class: the rune and the rest of the chunk. *)
Definition getEsc (chunk : string) : PatternError + (N * string) :=
  match chunk with
  | EmptyString => inl ErrBadPattern
  | String c chunk1 =>
      if eqb c "-" || eqb c "]" then inl ErrBadPattern
      else
        let chunk := if eqb c "\" then chunk1 else chunk in
        if is_empty chunk then inl ErrBadPattern
        else
          let '(r, n) := utf8.DecodeRuneInString chunk in
          if (r =? utf8.RuneError) && (n =? 1)%nat then inl ErrBadPattern
          else
            let nchunk := drop n chunk in
            if is_empty nchunk then inl ErrBadPattern else inr (r, nchunk)
  end.

(** The loop of [matchChunk] that parses the ranges of a character class
    while testing the rune [r] against them; it returns whether some range
    held [r] and the chunk after the closing bracket.  Every round consumes
    at least one byte of [chunk], which bounds [fuel]. *)
Fixpoint classLoop (fuel : nat) (chunk : string) (r : N) (matched : bool)
    (nrange : nat) : PatternError + (bool * string) :=
  match fuel with
  | O => inl ErrBadPattern
  | S fuel' =>
      if has_prefix_byte "]" chunk && (0 <? nrange)%nat then
        inr (matched, drop 1 chunk)
      else
        match getEsc chunk with
        | inl e => inl e
        | inr (lo, chunk1) =>
            match (if has_prefix_byte "-" chunk1 then getEsc (drop 1 chunk1)
                   else inr (lo, chunk1)) with
            | inl e => inl e
            | inr (hi, chunk2) =>
                classLoop fuel' chunk2 r
                  (matched || ((lo <=? r) && (r <=? hi))) (S nrange)
            end
        end
  end.

(** [matchChunk] checks whether [chunk] matches the beginning of [s]:
    [inr (Some rest)] when it does, [inr None] when it does not, and the
    error of a malformed chunk.  After the match has failed the loop goes on
    checking that the chunk is well-formed, no longer reading [s]. *)
Fixpoint matchChunk_loop (fuel : nat) (chunk s : string) (failed : bool)
    : PatternError + option string :=
  match fuel with
  | O => inl ErrBadPattern
  | S fuel' =>
      match chunk with
      | EmptyString => if failed then inr None else inr (Some s)
      | String c chunk1 =>
          let failed := failed || is_empty s in
          if eqb c "[" then
            let '(r, s) :=
              if failed then (0, s)
              else let '(r, n) := utf8.DecodeRuneInString s in (r, drop n s) in
            let '(negated, chunk2) :=
              if has_prefix_byte "^" chunk1 then (true, drop 1 chunk1)
              else (false, chunk1) in
            match classLoop (S (String.length chunk2)) chunk2 r false 0 with
            | inl e => inl e
            | inr (matched, chunk3) =>
                matchChunk_loop fuel' chunk3 s
                  (failed || Bool.eqb matched negated)
            end
          else if eqb c "?" then
            let '(failed, s) :=
              if failed then (failed, s)
              else (has_prefix_byte Separator s,
                    drop (snd (utf8.DecodeRuneInString s)) s) in
            matchChunk_loop fuel' chunk1 s failed
          else
            match (if eqb c "\" then
                     match chunk1 with
                     | EmptyString => inl ErrBadPattern
                     | String d chunk2 => inr (d, chunk2)
                     end
                   else inr (c, chunk1)) with
            | inl e => inl e
            | inr (c0, chunk') =>
                let '(failed, s) :=
                  if failed then (failed, s)
                  else (negb (has_prefix_byte c0 s), drop 1 s) in
                matchChunk_loop fuel' chunk' s failed
            end
      end
  end.

Definition matchChunk (chunk s : string) : PatternError + option string :=
  matchChunk_loop (S (String.length chunk)) chunk s false.

(** The scan of [scanChunk] after the leading stars: the chunk runs up to the
    first star that is not inside brackets. *)
Fixpoint scan (inrange : bool) (pattern : string) : string * string :=
  match pattern with
  | EmptyString => (EmptyString, EmptyString)
  | String c p1 =>
      if eqb c "\" then
        match p1 with
        | EmptyString => (String c EmptyString, EmptyString)
        | String d p2 =>
            let '(chunk, rest) := scan inrange p2 in
            (String c (String d chunk), rest)
        end
      else if eqb c "[" then
        let '(chunk, rest) := scan true p1 in (String c chunk, rest)
      else if eqb c "]" then
        let '(chunk, rest) := scan false p1 in (String c chunk, rest)
      else if eqb c "*" && negb inrange then (EmptyString, pattern)
      else
        let '(chunk, rest) := scan inrange p1 in (String c chunk, rest)
  end.

Fixpoint skipStars (pattern : string) : bool * string :=
  match pattern with
  | String c p1 =>
      if eqb c "*" then (true, snd (skipStars p1)) else (false, pattern)
  | EmptyString => (false, pattern)
  end.

(** [scanChunk] gets the next segment of [pattern], which is a non-star
    string possibly preceded by a star: [(star, chunk, rest)]. *)
Definition scanChunk (pattern : string) : bool * string * string :=
  let '(star, pattern) := skipStars pattern in
  let '(chunk, rest) := scan false pattern in
  (star, chunk, rest).

(** The search of [Match] after a star: the chunk is tried after skipping
    [i+1] bytes of [name], none of them a separator. *)
Fixpoint starLoop (chunk : string) (last : bool) (name : string)
    : PatternError + option string :=
  match name with
  | EmptyString => inr None
  | String c name1 =>
      if eqb c Separator then inr None
      else
        match matchChunk chunk name1 with
        | inr (Some t) =>
            if last && negb (is_empty t) then starLoop chunk last name1
            else inr (Some t)
        | inl e => inl e
        | inr None => starLoop chunk last name1
        end
  end.

(** The last loop of [Match]: before returning false with no error, check
    that the remainder of the pattern is syntactically valid. *)
Fixpoint checkRemainder (fuel : nat) (pattern : string) : option PatternError :=
  match fuel with
  | O => None
  | S fuel' =>
      if is_empty pattern then None
      else
        let '(_, chunk, rest) := scanChunk pattern in
        match matchChunk chunk EmptyString with
        | inl e => Some e
        | inr _ => checkRemainder fuel' rest
        end
  end.

Fixpoint Match_loop (fuel : nat) (pattern name : string)
    : PatternError + bool :=
  match fuel with
  | O => inl ErrBadPattern
  | S fuel' =>
      if is_empty pattern then inr (is_empty name)
      else
        let '(star, chunk, rest) := scanChunk pattern in
        if star && is_empty chunk then
          inr (negb (contains_byte Separator name))
        else
          let at_position := matchChunk chunk name in
          let continue_with :=
            match at_position with
            | inr (Some t) =>
                if is_empty t || negb (is_empty rest) then Some t else None
            | _ => None
            end in
          match continue_with, at_position with
          | Some t, _ => Match_loop fuel' rest t
          | None, inl e => inl e
          | None, inr _ =>
              match (if star then starLoop chunk (is_empty rest) name
                     else inr None) with
              | inl e => inl e
              | inr (Some t) => Match_loop fuel' rest t
              | inr None =>
                  match checkRemainder (String.length rest) rest with
                  | Some e => inl e
                  | None => inr false
                  end
              end
          end
  end.

(** [filepath.Match(pattern, name)]: whether [name] matches the shell file
    name pattern, or [ErrBadPattern] for a malformed pattern. *)
Definition Match (pattern name : string) : PatternError + bool :=
  Match_loop (S (String.length pattern)) pattern name.


(** Whether a result is the error. *)
Definition failure {A : Type} (r : PatternError + A) : bool :=
  match r with inl _ => true | inr _ => false end.

(** *** Clean, Join, Abs *)

Definition IsAbs (path : string) : bool := has_prefix_byte Separator path.

(** The [..] case of [Clean] when it can backtrack: drop the output back to
    the last separator, never below index [dotdot].  The output buffer is
    kept reversed, its head the byte written last. *)
Fixpoint backtrack (dotdot : nat) (out : list ascii) : list ascii :=
  match out with
  | [] => []
  | c :: out' =>
      if (dotdot <? length out')%nat && negb (eqb c Separator)
      then backtrack dotdot out'
      else out'
  end.

(** Copy of a real path element: the bytes up to the next separator are
    appended to the output. *)
Fixpoint copyElement (path : string) (out : list ascii) : string * list ascii :=
  match path with
  | EmptyString => (path, out)
  | String c p1 =>
      if eqb c Separator then (path, out) else copyElement p1 (c :: out)
  end.

(** The main loop of [Clean], reading from [path] and writing to [out];
    [dotdot] is the index in the output where [..] must stop. *)
Fixpoint Clean_loop (fuel : nat) (rooted : bool) (path : string)
    (out : list ascii) (dotdot : nat) : list ascii :=
  match fuel with
  | O => out
  | S fuel' =>
      match path with
      | EmptyString => out
      | String c p1 =>
          if eqb c Separator then
            (* empty path element *)
            Clean_loop fuel' rooted p1 out dotdot
          else if eqb c "." && (is_empty p1 || has_prefix_byte Separator p1) then
            (* . element *)
            Clean_loop fuel' rooted p1 out dotdot
          else if eqb c "." && has_prefix_byte "." p1
                  && (is_empty (drop 1 p1) || has_prefix_byte Separator (drop 1 p1)) then
            (* .. element: remove to last separator *)
            let p2 := drop 1 p1 in
            if (dotdot <? length out)%nat then
              Clean_loop fuel' rooted p2 (backtrack dotdot out) dotdot
            else if negb rooted then
              let out1 := if (0 <? length out)%nat then Separator :: out else out in
              let out2 := "."%char :: "."%char :: out1 in
              Clean_loop fuel' rooted p2 out2 (length out2)
            else Clean_loop fuel' rooted p2 out dotdot
          else
            (* real path element: add slash if needed, copy element *)
            let out1 :=
              if (rooted && negb (length out =? 1)%nat)
                 || (negb rooted && negb (length out =? 0)%nat)
              then Separator :: out else out in
            let '(path', out2) := copyElement path out1 in
            Clean_loop fuel' rooted path' out2 dotdot
      end
  end.

Definition string_of_rev (out : list ascii) : string :=
  string_of_list_ascii (rev out).

(** [filepath.Clean]: the shortest path name equivalent to [path] by purely
    lexical processing. *)
Definition Clean (path : string) : string :=
  match path with
  | EmptyString => "."
  | String c p1 =>
      let rooted := eqb c Separator in
      let out :=
        if rooted then Clean_loop (String.length p1) rooted p1 [Separator] 1
        else Clean_loop (String.length path) rooted path [] 0 in
      match out with
      | [] => "."
      | _ => string_of_rev out
      end
  end.

(** [filepath.Join] of two elements: empty elements before the first
    non-empty one are ignored, the rest is joined with separators and
    cleaned. *)
Definition Join (a b : string) : string :=
  if negb (is_empty a) then Clean (a +:+ String Separator b)
  else if negb (is_empty b) then Clean b
  else EmptyString.

(** [filepath.Abs]: an absolute representation of [path]; [None] when the
    working directory is needed and cannot be determined. *)
Definition Abs (env : os.Env) (path : string) : option string :=
  if IsAbs path then Some (Clean path)
  else
    match os.Getwd env with
    | None => None
    | Some wd => Some (Join wd path)
    end.

(** *** Glob *)

Definition hasMeta (path : string) : bool := contains_any "*?[\" path.

(** [filepath.Split]: the path up to and including the final separator, and
    the file name after it. *)
Fixpoint Split (path : string) : string * string :=
  match path with
  | EmptyString => (EmptyString, EmptyString)
  | String c p1 =>
      let '(dir, file) := Split p1 in
      if contains_byte Separator p1 then (String c dir, file)
      else if eqb c Separator then (String c EmptyString, p1)
      else (EmptyString, path)
  end.

Fixpoint chop (path : string) : string :=
  match path with
  | EmptyString => EmptyString
  | String c EmptyString => EmptyString
  | String c p1 => String c (chop p1)
  end.

(** [cleanGlobPath] prepares [path] for glob matching. *)
Definition cleanGlobPath (path : string) : string :=
  match path with
  | EmptyString => "."
  | String c EmptyString =>
      if eqb c Separator then path else EmptyString
  | _ => chop path
  end.

Definition pathSeparatorsLimit : nat := N.to_nat 10000.

Section Glob.

Variable env : os.Env.

(** The loop of [glob] over the names of a directory. *)
Fixpoint glob_names (dir pattern : string) (names matches : list string)
    : list string * option PatternError :=
  match names with
  | [] => (matches, None)
  | n :: names' =>
      match Match pattern n with
      | inl e => (matches, Some e)
      | inr matched =>
          glob_names dir pattern names'
            (if matched then (matches ++ [Join dir n])%list else matches)
      end
  end.

(** [glob] searches for files matching [pattern] in the directory [dir] and
    appends them to [matches]; I/O errors are ignored. *)
Definition glob (dir pattern : string) (matches : list string)
    : list string * option PatternError :=
  match os.ReadDir env dir with
  | None => (matches, None)
  | Some names => glob_names dir pattern names matches
  end.

(** The loop of [Glob] over the directories that matched. *)
Fixpoint glob_dirs (dirs : list string) (file : string) (matches : list string)
    : PatternError + list string :=
  match dirs with
  | [] => inr matches
  | d :: dirs' =>
      match glob d file matches with
      | (_, Some e) => inl e
      | (matches', None) => glob_dirs dirs' file matches'
      end
  end.

(** [globWithLimit pattern depth], with [remaining] standing for
    [pathSeparatorsLimit - depth]. *)
Fixpoint globWithLimit (remaining : nat) (pattern : string)
    : PatternError + list string :=
  match remaining with
  | O => inl ErrBadPattern
  | S remaining' =>
      (* Check pattern is well-formed. *)
      match Match pattern EmptyString with
      | inl e => inl e
      | inr _ =>
          if negb (hasMeta pattern) then
            if os.Lstat env pattern then inr [pattern] else inr []
          else
            let '(dir, file) := Split pattern in
            let dir := cleanGlobPath dir in
            if negb (hasMeta dir) then
              match glob dir file [] with
              | (_, Some e) => inl e
              | (matches, None) => inr matches
              end
            else if String.eqb dir pattern then inl ErrBadPattern
            else
              match globWithLimit remaining' dir with
              | inl e => inl e
              | inr m => glob_dirs m file []
              end
      end
  end.

(** [filepath.Glob]: the names of all files matching [pattern]; the only
    possible error is [ErrBadPattern]. *)
Definition Glob (pattern : string) : PatternError + list string :=
  globWithLimit pathSeparatorsLimit pattern.

End Glob.

End filepath.

(** ** encoding/json, decoding into a [map[string]string] *)

Module json.

Import Bytes.

(** A JSON text as the decoder reads it; strings are held unquoted. *)
Inductive Value : Type :=
| Null
| Bool (b : bool)
| Number (literal : string)
| Str (s : string)
| Array (elems : list Value)
| Object (members : list (string * Value)).

(** The errors of [json.Unmarshal]: [*json.SyntaxError] for a text that is
    not valid JSON and [*json.UnmarshalTypeError] for a JSON value that does
    not fit the Go value, with the description of the JSON value. *)
Inductive Error : Type :=
| SyntaxError
| UnmarshalTypeError (value : string).

Definition quote : ascii := ascii_of_N 34.

Definition isSpace (c : ascii) : bool :=
  let b := byte c in (b =? 32) || (b =? 9) || (b =? 13) || (b =? 10).

Fixpoint skipSpace (s : string) : string :=
  match s with
  | String c t => if isSpace c then skipSpace t else s
  | EmptyString => s
  end.

Definition isDigit (c : ascii) : bool := (48 <=? byte c) && (byte c <=? 57).

Definition hexValue (c : ascii) : option N :=
  let b := byte c in
  if (48 <=? b) && (b <=? 57) then Some (b - 48)
  else if (97 <=? b) && (b <=? 102) then Some (b - 97 + 10)
  else if (65 <=? b) && (b <=? 70) then Some (b - 65 + 10)
  else None.

(** [literal] after its first byte: the text must go on with [word]. *)
Fixpoint expect (word s : string) : option string :=
  match word, s with
  | EmptyString, _ => Some s
  | String w word', String c s' => if eqb w c then expect word' s' else None
  | String _ _, EmptyString => None
  end.

Fixpoint digits (s : string) : string * string :=
  match s with
  | String c t =>
      if isDigit c then let '(ds, rest) := digits t in (String c ds, rest)
      else (EmptyString, s)
  | EmptyString => (EmptyString, s)
  end.

(** The exponent of a number, then its fraction, then the whole number:
    each returns the text of the part and what follows it. *)
Definition scanExponent (s : string) : option (string * string) :=
  match s with
  | String c t =>
      if eqb c "e" || eqb c "E" then
        let '(sign, t1) :=
          match t with
          | String g t' =>
              if eqb g "+" || eqb g "-" then (String g EmptyString, t')
              else (EmptyString, t)
          | EmptyString => (EmptyString, t)
          end in
        match digits t1 with
        | (EmptyString, _) => None
        | (ds, rest) => Some (String c (sign +:+ ds), rest)
        end
      else Some (EmptyString, s)
  | EmptyString => Some (EmptyString, s)
  end.

Definition scanFraction (s : string) : option (string * string) :=
  match s with
  | String c t =>
      if eqb c "." then
        match digits t with
        | (EmptyString, _) => None
        | (ds, rest) =>
            match scanExponent rest with
            | Some (e, rest') => Some (String c (ds +:+ e), rest')
            | None => None
            end
        end
      else scanExponent s
  | EmptyString => Some (EmptyString, s)
  end.

Definition scanNumber (s : string) : option (string * string) :=
  let '(sign, s1) :=
    match s with
    | String c t => if eqb c "-" then (String c EmptyString, t) else (EmptyString, s)
    | EmptyString => (EmptyString, s)
    end in
  match s1 with
  | String c t =>
      let int :=
        if eqb c "0" then Some (String c EmptyString, t)
        else if isDigit c then
          let '(ds, rest) := digits t in Some (String c ds, rest)
        else None in
      match int with
      | Some (i, rest) =>
          match scanFraction rest with
          | Some (f, rest') => Some (sign +:+ i +:+ f, rest')
          | None => None
          end
      | None => None
      end
  | EmptyString => None
  end.

(** The scanner inside a string literal, after the opening quote: the raw
    text up to the closing quote and what follows it.  Control characters
    and unknown escapes are syntax errors. *)
Fixpoint scanString (s : string) : option (string * string) :=
  match s with
  | EmptyString => None
  | String c t =>
      if eqb c quote then Some (EmptyString, t)
      else if eqb c "\" then
        match t with
        | EmptyString => None
        | String e t1 =>
            if eqb e "u" then
              match t1 with
              | String h1 (String h2 (String h3 (String h4 t2))) =>
                  match hexValue h1, hexValue h2, hexValue h3, hexValue h4 with
                  | Some _, Some _, Some _, Some _ =>
                      match scanString t2 with
                      | Some (raw, rest) =>
                          Some (String c (String e (String h1 (String h2
                                  (String h3 (String h4 raw))))), rest)
                      | None => None
                      end
                  | _, _, _, _ => None
                  end
              | _ => None
              end
            else if eqb e "b" || eqb e "f" || eqb e "n" || eqb e "r" || eqb e "t"
                    || eqb e "\" || eqb e "/" || eqb e quote then
              match scanString t1 with
              | Some (raw, rest) => Some (String c (String e raw), rest)
              | None => None
              end
            else None
        end
      else if byte c <? 32 then None
      else
        match scanString t with
        | Some (raw, rest) => Some (String c raw, rest)
        | None => None
        end
  end.

(** [getu4] decodes [\uXXXX] from the beginning of [s]; [None] stands for
    the result -1. *)
Definition getu4 (s : string) : option N :=
  match s with
  | String b (String u (String h1 (String h2 (String h3 (String h4 _))))) =>
      if eqb b "\" && eqb u "u" then
        match hexValue h1, hexValue h2, hexValue h3, hexValue h4 with
        | Some a, Some b, Some c, Some d => Some (((a * 16 + b) * 16 + c) * 16 + d)
        | _, _, _, _ => None
        end
      else None
  | _ => None
  end.

Definition ReplacementChar : N := 0xFFFD.

(** [utf16.IsSurrogate] and [utf16.DecodeRune]. *)
Definition IsSurrogate (r : N) : bool := (0xD800 <=? r) && (r <? 0xE000).

Definition utf16_DecodeRune (r1 : N) (r2 : option N) : N :=
  match r2 with
  | Some r2 =>
      if (0xD800 <=? r1) && (r1 <? 0xDC00) && (0xDC00 <=? r2) && (r2 <? 0xE000)
      then N.lor (N.shiftl (r1 - 0xD800) 10) (r2 - 0xDC00) + 0x10000
      else ReplacementChar
  | None => ReplacementChar
  end.

Definition unescape (e : ascii) : ascii :=
  if eqb e "b" then ascii_of_N 8
  else if eqb e "f" then ascii_of_N 12
  else if eqb e "n" then ascii_of_N 10
  else if eqb e "r" then ascii_of_N 13
  else if eqb e "t" then ascii_of_N 9
  else e.

(** [unquote] converts the raw text of a scanned string literal into the Go
    string: escapes are replaced and bytes that are not valid UTF-8 are
    coerced to the replacement character. *)
Fixpoint unquote_loop (fuel : nat) (s : string) : string :=
  match fuel with
  | O => EmptyString
  | S fuel' =>
      match s with
      | EmptyString => EmptyString
      | String c t =>
          if eqb c "\" then
            match t with
            | EmptyString => EmptyString
            | String e t1 =>
                if eqb e "u" then
                  match getu4 s with
                  | None => EmptyString
                  | Some rr =>
                      let s6 := drop 6 s in
                      if IsSurrogate rr then
                        let dec := utf16_DecodeRune rr (getu4 s6) in
                        if negb (dec =? ReplacementChar) then
                          utf8.EncodeRune dec +:+ unquote_loop fuel' (drop 6 s6)
                        else
                          utf8.EncodeRune ReplacementChar +:+ unquote_loop fuel' s6
                      else utf8.EncodeRune rr +:+ unquote_loop fuel' s6
                  end
                else String (unescape e) (unquote_loop fuel' t1)
            end
          else if byte c <? utf8.RuneSelf then String c (unquote_loop fuel' t)
          else
            let '(rr, size) := utf8.DecodeRuneInString s in
            utf8.EncodeRune rr +:+ unquote_loop fuel' (drop size s)
      end
  end.

Definition unquote (raw : string) : string :=
  unquote_loop (String.length raw) raw.

Definition maxNestingDepth : nat := N.to_nat 10000.

(** The elements of an array after the opening bracket, and the members of
    an object after the opening brace, up to the closing one; [nested] reads
    one value.  Each round consumes input, which bounds [fuel]. *)
Fixpoint parseElements (nested : string -> option (Value * string))
    (fuel : nat) (s : string) (acc : list Value)
    : option (list Value * string) :=
  match fuel with
  | O => None
  | S fuel' =>
      match nested s with
      | None => None
      | Some (v, rest) =>
          match skipSpace rest with
          | String c t =>
              if eqb c "," then parseElements nested fuel' t (acc ++ [v])%list
              else if eqb c "]" then Some ((acc ++ [v])%list, t)
              else None
          | EmptyString => None
          end
      end
  end.

Fixpoint parseMembers (nested : string -> option (Value * string))
    (fuel : nat) (s : string) (acc : list (string * Value))
    : option (list (string * Value) * string) :=
  match fuel with
  | O => None
  | S fuel' =>
      match skipSpace s with
      | String q t =>
          if eqb q quote then
            match scanString t with
            | None => None
            | Some (raw, rest) =>
                match skipSpace rest with
                | String colon t1 =>
                    if eqb colon ":" then
                      match nested t1 with
                      | None => None
                      | Some (v, rest1) =>
                          let acc := (acc ++ [(unquote raw, v)])%list in
                          match skipSpace rest1 with
                          | String c t2 =>
                              if eqb c "," then parseMembers nested fuel' t2 acc
                              else if eqb c "}" then Some (acc, t2)
                              else None
                          | EmptyString => None
                          end
                      end
                    else None
                | EmptyString => None
                end
            end
          else None
      | EmptyString => None
      end
  end.

(** The value at the beginning of [s], after white space, and what follows
    it.  [depth] is what is left of [maxNestingDepth]: an array or an object
    nested deeper is a syntax error. *)
Fixpoint parseValue (depth : nat) (s : string) {struct depth}
    : option (Value * string) :=
  match skipSpace s with
  | EmptyString => None
  | String c t =>
      if eqb c "{" then
        match depth with
        | O => None
        | S depth' =>
            match skipSpace t with
            | String c1 t1 =>
                if eqb c1 "}" then Some (Object [], t1)
                else
                  match parseMembers (parseValue depth') (String.length t) t [] with
                  | Some (ms, rest) => Some (Object ms, rest)
                  | None => None
                  end
            | EmptyString => None
            end
        end
      else if eqb c "[" then
        match depth with
        | O => None
        | S depth' =>
            match skipSpace t with
            | String c1 t1 =>
                if eqb c1 "]" then Some (Array [], t1)
                else
                  match parseElements (parseValue depth') (String.length t) t [] with
                  | Some (vs, rest) => Some (Array vs, rest)
                  | None => None
                  end
            | EmptyString => None
            end
        end
      else if eqb c quote then
        match scanString t with
        | Some (raw, rest) => Some (Str (unquote raw), rest)
        | None => None
        end
      else if eqb c "n" then
        match expect "ull" t with Some rest => Some (Null, rest) | None => None end
      else if eqb c "t" then
        match expect "rue" t with Some rest => Some (Bool true, rest) | None => None end
      else if eqb c "f" then
        match expect "alse" t with Some rest => Some (Bool false, rest) | None => None end
      else
        match scanNumber (String c t) with
        | Some (lit, rest) => Some (Number lit, rest)
        | None => None
        end
  end.

(** [checkValid] and the parse: the whole of [data] is one JSON value with
    white space around it. *)
Definition parse (data : string) : option Value :=
  match parseValue maxNestingDepth data with
  | Some (v, rest) => if is_empty (skipSpace rest) then Some v else None
  | None => None
  end.

Definition Valid (data : string) : bool :=
  match parse data with Some _ => true | None => false end.

Definition describe (v : Value) : string :=
  match v with
  | Null => "null"
  | Bool _ => "bool"
  | Number _ => "number"
  | Str _ => "string"
  | Array _ => "array"
  | Object _ => "object"
  end.

(** The members of an object stored into the map, in the order of the text:
    a string value is stored, [null] stores the empty string, and any other
    value stores the empty string and records an [UnmarshalTypeError]; the
    first error recorded is the one returned. *)
Fixpoint storeMembers (members : list (string * Value)) (m : gmap string string)
    (saved : option Error) : gmap string string * option Error :=
  match members with
  | [] => (m, saved)
  | (key, v) :: members' =>
      match v with
      | Str s => storeMembers members' (<[key := s]> m) saved
      | Null => storeMembers members' (<[key := EmptyString]> m) saved
      | _ =>
          storeMembers members' (<[key := EmptyString]> m)
            (match saved with
             | Some e => Some e
             | None => Some (UnmarshalTypeError (describe v))
             end)
      end
  end.

(** [json.Unmarshal(data, &m)] for [var m map[string]string]: the map
    decoded ([None] is the nil map, which [null] leaves in place), or the
    error. *)
Definition Unmarshal (data : string) : Error + option (gmap string string) :=
  match parse data with
  | None => inl SyntaxError
  | Some Null => inr None
  | Some (Object members) =>
      match storeMembers members ∅ None with
      | (_, Some e) => inl e
      | (m, None) => inr (Some m)
      end
  | Some v => inl (UnmarshalTypeError (describe v))
  end.

End json.

(** ** exclude.go *)

(** [type Exclude map[string]string]: [None] is the nil map, the zero value
    of the type. *)
Abbreviation Exclude := (option (gmap string string)).

(** [m[key]]: the zero value when the key is absent or the map is nil. *)
Definition index (m : Exclude) (key : string) : string :=
  match m with
  | Some table => default EmptyString (table !! key)
  | None => EmptyString
  end.

Definition keys (m : Exclude) : list string :=
  match m with
  | Some table => (map_to_list table).*1
  | None => []
  end.

(** [for key := range m] visits every key of [m] once, in an order that is
    not specified: [order] is one such visit. *)
Definition range_order (m : Exclude) (order : list string) : Prop :=
  order ≡ₚ keys m.

(** The errors [UnmarshalJSON] returns: the error of [json.Unmarshal] as it
    is (line 40), and the two made by [fmt.Errorf] (lines 45 and 49). *)
Inductive error : Type :=
| MalformedConfig (err : json.Error)
| InvalidPattern (pattern : string) (err : filepath.PatternError)
| PathResolutionError (pattern : string).

(** The message of the error of line 45,
    [fmt.Errorf(<<invalid pattern: pattern=%s err=%s>>, pattern, err)]. *)
Definition InvalidPattern_message (pattern : string)
    (err : filepath.PatternError) : string :=
  "invalid pattern: pattern=" +:+ pattern +:+ " err="
    +:+ filepath.ErrBadPattern_Error.

(** The loop of [UnmarshalJSON] (lines 43 to 52) over the keys of [m] in the
    order [order], writing to the map [e]. *)
Fixpoint UnmarshalJSON_range (env : os.Env) (m : Exclude) (order : list string)
    (e : gmap string string) : gmap string string * option error :=
  match order with
  | [] => (e, None)
  | pattern :: order' =>
      match filepath.Glob env pattern with
      | inl err => (e, Some (InvalidPattern pattern err))
      | inr _ =>
          match filepath.Abs env pattern with
          | None => (e, Some (PathResolutionError pattern))
          | Some absPattern =>
              UnmarshalJSON_range env m order' (<[absPattern := index m pattern]> e)
          end
      end
  end.

(** [UnmarshalJSON] parses the config, checks whether all pattern are
    well-formed, and transforms relative patterns to absolute patterns.
    The receiver [*e] goes in and comes out; [order] is the order in which
    the keys of the decoded map are visited. *)
Definition UnmarshalJSON (env : os.Env) (order : list string) (b : string)
    (e : Exclude) : Exclude * option error :=
  match json.Unmarshal b with
  | inl err => (e, Some (MalformedConfig err))
  | inr m =>
      let '(e', err) := UnmarshalJSON_range env m order ∅ in
      (Some e', err)
  end.

(** A call of [Excluded] returns a boolean or panics. *)
Inductive outcome : Type :=
| Returns (b : bool)
| Panics (msg : string).

(** [Excluded] indicates whether this path is excluded by the
    configuration; [order] is the order in which the patterns of [*e] are
    visited. *)
Fixpoint Excluded (order : list string) (path : string) : outcome :=
  match order with
  | [] => Returns false
  | pattern :: order' =>
      match filepath.Match pattern path with
      | inl _ => Panics "Uncaught bad pattern"
      | inr true => Returns true
      | inr false => Excluded order' path
      end
  end.

(** *** LoadFromFile

    [ioutil.ReadFile] returns the contents of the named file or the error
    of the read, a [*fs.PathError] with the operation, the path and the
    cause. *)
Inductive PathError : Type :=
| PathErrorOf (op path cause : string).

(** The errors of [LoadFromFile]: that of the read, or that of
    [json.Unmarshal]. *)
Inductive load_error : Type :=
| ReadFileError (err : PathError)
| UnmarshalError (err : error).

(** The bytes of the JSON value that [data] holds, without the white space
    around it: what [json.Unmarshal] hands to [UnmarshalJSON]. *)
Definition valueText (data : string) : string :=
  match json.parseValue json.maxNestingDepth data with
  | Some (_, rest) =>
      let s := json.skipSpace data in
      Bytes.take (String.length s - String.length rest) s
  | None => EmptyString
  end.

(** [json.Unmarshal(b, e)] for [e] of type [*Exclude], which implements
    [json.Unmarshaler]: the text is checked to be valid JSON, then
    [UnmarshalJSON] is called with the bytes of the JSON value, without the
    white space around it; this is so for every value, [null] too. *)
Definition Unmarshal_Exclude (env : os.Env) (order : list string)
    (b : string) (e : Exclude) : Exclude * option error :=
  if json.Valid b then UnmarshalJSON env order (valueText b) e
  else (e, Some (MalformedConfig json.SyntaxError)).

(** [LoadFromFile] loads the exclude configuration from the specified
    file; [ReadFile] is what [ioutil.ReadFile] returns for each name. *)
Definition LoadFromFile (env : os.Env) (ReadFile : string → PathError + string)
    (order : list string) (file : string) (e : Exclude)
    : Exclude * option load_error :=
  match ReadFile file with
  | inl err => (e, Some (ReadFileError err))
  | inr b =>
      let '(e', err) := Unmarshal_Exclude env order b e in
      (e', option_map UnmarshalError err)
  end.

(** ** Vocabulary of the statements *)

(** The pattern is rejected by the matcher when evaluated against [path]. *)
Definition rejects (pattern path : string) : bool :=
  filepath.failure (filepath.Match pattern path).

(** The pattern glob-matches [path]. *)
Definition matches (pattern path : string) : bool :=
  match filepath.Match pattern path with inr true => true | _ => false end.

(** The pattern compiles under the matcher: the syntax probe of [Glob],
    matching it against the empty name, reports no error. *)
Definition compiles (pattern : string) : bool :=
  negb (rejects pattern EmptyString).

(** What one round of the loop of [UnmarshalJSON] writes for an accepted
    pattern, and the entries written after visiting the patterns [visited],
    all of them accepted. *)
Definition store (env : os.Env) (m : Exclude) (e : gmap string string)
    (pattern : string) : gmap string string :=
  match filepath.Abs env pattern with
  | Some absPattern => <[absPattern := index m pattern]> e
  | None => e
  end.

Definition entries (env : os.Env) (m : Exclude) (visited : list string)
    : gmap string string :=
  foldl (store env m) ∅ visited.

(** The pattern passes both checks of the loop. *)
Definition accepted (env : os.Env) (pattern : string) : bool :=
  match filepath.Glob env pattern, filepath.Abs env pattern with
  | inr _, Some _ => true
  | _, _ => false
  end.

(** The error the loop returns at a pattern that is not accepted. *)
Definition rejection (env : os.Env) (pattern : string) : error :=
  match filepath.Glob env pattern with
  | inl err => InvalidPattern pattern err
  | inr _ => PathResolutionError pattern
  end.

(** *** A path that a pattern matches by construction

    [canonicalize] turns a pattern into a path by replacing every wildcard
    with literal characters it matches: a star by the empty string, a
    question mark by the letter x, an escaped character by the character,
    and a character class by the first candidate character the class
    matches.  It reads the pattern the way [Match] does, by [scanChunk] and
    [getEsc], and gives nothing for a pattern that is malformed or that has
    a class none of the candidates belongs to. *)

Module canonical.

Import Bytes.
Import filepath.

(** The ranges of a character class, read as [classLoop] reads them, and
    the chunk after the closing bracket. *)
Fixpoint classRanges (fuel : nat) (chunk : string) (nrange : nat)
    : PatternError + (list (N * N) * string) :=
  match fuel with
  | O => inl ErrBadPattern
  | S fuel' =>
      if has_prefix_byte "]" chunk && (0 <? nrange)%nat then
        inr ([], drop 1 chunk)
      else
        match getEsc chunk with
        | inl e => inl e
        | inr (lo, chunk1) =>
            match (if has_prefix_byte "-" chunk1 then getEsc (drop 1 chunk1)
                   else inr (lo, chunk1)) with
            | inl e => inl e
            | inr (hi, chunk2) =>
                match classRanges fuel' chunk2 (S nrange) with
                | inl e => inl e
                | inr (ranges, rest) => inr ((lo, hi) :: ranges, rest)
                end
            end
        end
  end.

Definition inRanges (r : N) (ranges : list (N * N)) : bool :=
  existsb (fun range => (fst range <=? r) && (r <=? snd range)) ranges.

(** The characters tried for a class: the printable ASCII characters, the
    letters first, then the lower bound of each range of the class. *)
Definition candidates (ranges : list (N * N)) : list string :=
  (map (fun n => String (ascii_of_nat n) EmptyString)
       (seq 97 26 ++ seq 65 26 ++ seq 48 10 ++ seq 32 16 ++ seq 58 7
          ++ seq 91 6 ++ seq 123 4)
   ++ map (fun range => utf8.EncodeRune (fst range)) ranges)%list.

(** A candidate stands for the class when it is the encoding of one rune,
    the one a decoder reads back, and the class (negated or not) holds that
    rune. *)
Definition stands_for (negated : bool) (ranges : list (N * N))
    (candidate : string) : bool :=
  let '(r, n) := utf8.DecodeRuneInString candidate in
  negb (is_empty candidate)
  && (n =? String.length candidate)%nat
  && negb ((r =? utf8.RuneError) && (n =? 1)%nat)
  && negb (Bool.eqb (inRanges r ranges) negated).

Definition pick (negated : bool) (ranges : list (N * N)) : option string :=
  List.find (stands_for negated ranges) (candidates ranges).

Fixpoint canonChunk_loop (fuel : nat) (chunk : string) : option string :=
  match fuel with
  | O => None
  | S fuel' =>
      match chunk with
      | EmptyString => Some EmptyString
      | String c chunk1 =>
          if eqb c "[" then
            let '(negated, chunk2) :=
              if has_prefix_byte "^" chunk1 then (true, drop 1 chunk1)
              else (false, chunk1) in
            match classRanges (S (String.length chunk2)) chunk2 0 with
            | inl _ => None
            | inr (ranges, chunk3) =>
                match pick negated ranges, canonChunk_loop fuel' chunk3 with
                | Some candidate, Some t => Some (candidate +:+ t)
                | _, _ => None
                end
            end
          else if eqb c "?" then
            match canonChunk_loop fuel' chunk1 with
            | Some t => Some (String "x" t)
            | None => None
            end
          else
            match (if eqb c "\" then
                     match chunk1 with
                     | EmptyString => inl ErrBadPattern
                     | String d chunk2 => inr (d, chunk2)
                     end
                   else inr (c, chunk1)) with
            | inl _ => None
            | inr (c0, chunk') =>
                match canonChunk_loop fuel' chunk' with
                | Some t => Some (String c0 t)
                | None => None
                end
            end
      end
  end.

Definition canonChunk (chunk : string) : option string :=
  canonChunk_loop (S (String.length chunk)) chunk.

Fixpoint canonicalize_loop (fuel : nat) (pattern : string) : option string :=
  match fuel with
  | O => None
  | S fuel' =>
      if is_empty pattern then Some EmptyString
      else
        let '(_, chunk, rest) := scanChunk pattern in
        match canonChunk chunk, canonicalize_loop fuel' rest with
        | Some c, Some r => Some (c +:+ r)
        | _, _ => None
        end
  end.

Definition canonicalize (pattern : string) : option string :=
  canonicalize_loop (S (String.length pattern)) pattern.

End canonical.

(** *** Paths in clean form

    An element is simple when it is not empty, holds no separator and is
    neither [.] nor [..]; [rooted segs] is the absolute path made of the
    elements [segs]. *)
Definition simple (seg : string) : bool :=
  negb (Bytes.is_empty seg) && negb (Bytes.contains_byte filepath.Separator seg)
  && negb (String.eqb seg ".") && negb (String.eqb seg "..").

Fixpoint rooted (segs : list string) : string :=
  match segs with
  | [] => EmptyString
  | seg :: segs' => String filepath.Separator (seg +:+ rooted segs')
  end.

(** What is left of a path after an element: nothing, or a separator and
    the elements that follow. *)
Definition boundary (rest : string) : Prop :=
  rest = EmptyString ∨ Bytes.has_prefix_byte filepath.Separator rest = true.

(** The output buffer of [Clean] that holds the string [acc]. *)
Definition buffer (acc : string) : list ascii := rev (list_ascii_of_string acc).

(** A JSON text written with single quotes in place of double quotes. *)
Fixpoint text (s : string) : string :=
  match s with
  | EmptyString => EmptyString
  | String c s' =>
      String (if Bytes.eqb c "'" then json.quote else c) (text s')
  end.

(** The JSON values a load accepts: [null], and an object whose member
    values are strings or [null]. *)
Definition loadable (v : json.Value) : bool :=
  match v with
  | json.Null => true
  | json.Object members =>
      forallb (fun kv => match snd kv with
                         | json.Str _ | json.Null => true
                         | _ => false
                         end) members
  | _ => false
  end.

(** A process whose working directory is [wd] (or cannot be determined) and
    that sees no files. *)
Definition process (wd : option string) : os.Env :=
  {| os.Getwd := wd; os.Lstat := fun _ => false; os.ReadDir := fun _ => None |}.

(** *** Well-formed patterns

    A pattern is well-formed when it can be read item by item to its end:
    every class closes, read the way [classLoop] reads it, and every
    backslash has a character to escape.  [afterCaret] is the chunk after
    the bracket that opens a class and after the caret that negates it;
    [continuations] holds for the bytes that follow the first byte of a
    rune; [elements] is [strings.Split(path, "/")]. *)
Section PatternSyntax.

Import Bytes filepath.

Definition afterCaret (chunk1 : string) : string :=
  if has_prefix_byte "^" chunk1 then drop 1 chunk1 else chunk1.

Inductive wellFormed : string → Prop :=
| wf_end : wellFormed EmptyString
| wf_class chunk1 matched chunk3 :
    classLoop (S (String.length (afterCaret chunk1))) (afterCaret chunk1) 0 false 0
    = inr (matched, chunk3) →
    wellFormed chunk3 → wellFormed (String "[" chunk1)
| wf_escape d chunk2 :
    wellFormed chunk2 → wellFormed (String "\" (String d chunk2))
| wf_plain c chunk1 :
    eqb c "[" = false → eqb c "\" = false →
    wellFormed chunk1 → wellFormed (String c chunk1).

Definition continuation (c : ascii) : bool := (0x80 <=? byte c)%N.

Fixpoint continuations (s : string) : bool :=
  match s with
  | EmptyString => true
  | String c s' => continuation c && continuations s'
  end.

Fixpoint elements (path : string) : list string :=
  match path with
  | EmptyString => [EmptyString]
  | String c p1 =>
      if eqb c Separator then EmptyString :: elements p1
      else
        match elements p1 with
        | seg :: segs => String c seg :: segs
        | [] => [String c EmptyString]
        end
  end.

(** The places where [Clean] may cut its output, kept reversed: the whole
    output, its first [dotdot] bytes, and the bytes before a separator. *)
Definition cut (dotdot : nat) (l1 l2 : list ascii) : Prop :=
  l1 = [] ∨ length l2 = dotdot ∨ ∃ l, l1 = (l ++ [Separator])%list.

(** The output of [Clean] is well-formed wherever it may be cut. *)
Definition sound (dotdot : nat) (out : list ascii) : Prop :=
  (dotdot <= length out)%nat ∧
  ∀ l1 l2, out = (l1 ++ l2)%list → cut dotdot l1 l2 →
    wellFormed (string_of_rev l2).

End PatternSyntax.

(** *** More vocabulary

    [rootedPath segs] is the clean absolute path made of the elements
    [segs], the root alone when there is none; [separators] counts the
    separators of a path; [reason] is the string a member value leaves in
    the decoded map, and [lastMember] the value of the last member of an
    object with a given name.  [follows rest rest'] says that [rest'] may
    stand where [rest] stands after a JSON token: it is not longer, and it
    is empty or begins with the same byte. *)
Definition rootedPath (segs : list string) : string :=
  match segs with
  | [] => String filepath.Separator EmptyString
  | _ => rooted segs
  end.

Fixpoint separators (path : string) : nat :=
  match path with
  | EmptyString => 0%nat
  | String c p1 =>
      ((if Bytes.eqb c filepath.Separator then 1 else 0) + separators p1)%nat
  end.

Definition reason (v : json.Value) : string :=
  match v with
  | json.Str s => s
  | _ => EmptyString
  end.

Fixpoint lastMember (members : list (string * json.Value)) (key : string)
    : option json.Value :=
  match members with
  | [] => None
  | (k, v) :: members' =>
      match lastMember members' key with
      | Some v' => Some v'
      | None => if String.eqb k key then Some v else None
      end
  end.

Definition follows (rest rest' : string) : Prop :=
  (String.length rest' <= String.length rest)%nat ∧
  (rest' = EmptyString ∨
   ∃ c t t', rest = String c t ∧ rest' = String c t').

(** * Properties *)

Local Open Scope list_scope.

(** ** The loops of Match end before their bound *)

Section Fuel.

Import Bytes filepath.

Implicit Types (chunk pattern path rest s : string).

Lemma string_drop_length n s : String.length (drop n s) = (String.length s - n)%nat.
Proof.
  revert s; induction n as [|n IH]; intros [|c s]; simpl; auto with arith.
Qed.

Lemma DecodeRuneInString_width s :
  is_empty s = false → (1 <= snd (utf8.DecodeRuneInString s))%nat.
Proof.
  destruct s as [|c0 s]; [done|]. intros _.
  unfold utf8.DecodeRuneInString.
  repeat (case_match; simpl; try lia).
Qed.

Lemma getEsc_shorter chunk r nchunk :
  getEsc chunk = inr (r, nchunk) →
  (String.length nchunk < String.length chunk)%nat.
Proof.
  unfold getEsc. destruct chunk as [|c chunk1]; [done|].
  destruct (eqb c "-" || eqb c "]"); [done|].
  set (chunk' := if eqb c "\" then chunk1 else String c chunk1).
  assert (Hle : (String.length chunk' <= String.length (String c chunk1))%nat).
  { unfold chunk'. destruct (eqb c "\"); simpl; lia. }
  destruct (is_empty chunk') eqn:Hne; [done|].
  pose proof (DecodeRuneInString_width chunk' Hne) as Hw.
  destruct (utf8.DecodeRuneInString chunk') as [r' n]. simpl in Hw.
  destruct ((r' =? utf8.RuneError)%N && (n =? 1)%nat); [done|].
  destruct (is_empty (drop n chunk')); [done|]. intros [= <- <-].
  rewrite string_drop_length. destruct chunk'; [done|]. simpl in *. lia.
Qed.

(** One round of the class loop: the bounds of a range and the chunk after
    it, which is shorter. *)
Lemma range_shorter chunk lo chunk1 hi chunk2 :
  getEsc chunk = inr (lo, chunk1) →
  (if has_prefix_byte "-" chunk1 then getEsc (drop 1 chunk1)
   else inr (lo, chunk1)) = inr (hi, chunk2) →
  (String.length chunk2 < String.length chunk)%nat.
Proof.
  intros H1%getEsc_shorter H2.
  destruct (has_prefix_byte "-" chunk1).
  - apply getEsc_shorter in H2. rewrite string_drop_length in H2. lia.
  - injection H2 as _ <-. done.
Qed.

Lemma classLoop_fuel fuel fuel' chunk r matched nrange :
  (String.length chunk < fuel)%nat → (String.length chunk < fuel')%nat →
  classLoop fuel chunk r matched nrange = classLoop fuel' chunk r matched nrange.
Proof.
  revert fuel' chunk matched nrange.
  induction fuel as [|fuel IH]; intros fuel' chunk matched nrange Hf Hf'; [lia|].
  destruct fuel' as [|fuel']; [lia|]. cbn [classLoop].
  destruct (has_prefix_byte "]" chunk && (0 <? nrange)%nat); [done|].
  destruct (getEsc chunk) as [e|[lo chunk1]] eqn:H1; [done|].
  destruct (if has_prefix_byte "-" chunk1 then getEsc (drop 1 chunk1)
            else inr (lo, chunk1)) as [e|[hi chunk2]] eqn:H2; [done|].
  pose proof (range_shorter chunk lo chunk1 hi chunk2 H1 H2).
  apply IH; lia.
Qed.

Lemma classLoop_shorter fuel chunk r matched nrange matched' rest :
  classLoop fuel chunk r matched nrange = inr (matched', rest) →
  (String.length rest < String.length chunk)%nat.
Proof.
  revert chunk matched nrange.
  induction fuel as [|fuel IH]; intros chunk matched nrange; cbn [classLoop]; [done|].
  destruct (has_prefix_byte "]" chunk && (0 <? nrange)%nat) eqn:Hclose.
  { destruct chunk as [|c chunk']; [done|]. intros [= <- <-]. simpl. lia. }
  destruct (getEsc chunk) as [e|[lo chunk1]] eqn:H1; [done|].
  destruct (if has_prefix_byte "-" chunk1 then getEsc (drop 1 chunk1)
            else inr (lo, chunk1)) as [e|[hi chunk2]] eqn:H2; [done|].
  pose proof (range_shorter chunk lo chunk1 hi chunk2 H1 H2).
  intros Hrest%IH. lia.
Qed.

(** The fuel [matchChunk] gives its loop is enough: more changes nothing. *)
Lemma matchChunk_loop_fuel fuel fuel' chunk s failed :
  (String.length chunk < fuel)%nat → (String.length chunk < fuel')%nat →
  matchChunk_loop fuel chunk s failed = matchChunk_loop fuel' chunk s failed.
Proof.
  revert fuel' chunk s failed.
  induction fuel as [|fuel IH]; intros fuel' chunk s failed Hf Hf'; [lia|].
  destruct fuel' as [|fuel']; [lia|]. cbn [matchChunk_loop].
  destruct chunk as [|c chunk1]; [done|]. cbn [String.length] in Hf, Hf'.
  destruct (eqb c "[").
  { destruct (if failed || is_empty s then (0%N, s)
              else let '(r, n) := utf8.DecodeRuneInString s in (r, drop n s))
      as [r s'].
    destruct (if has_prefix_byte "^" chunk1 then (true, drop 1 chunk1)
              else (false, chunk1)) as [negated chunk2] eqn:Hneg.
    assert (String.length chunk2 <= String.length chunk1)%nat.
    { destruct (has_prefix_byte "^" chunk1); injection Hneg as <- <-; [|done].
      destruct chunk1; simpl; lia. }
    destruct (classLoop _ chunk2 r false 0) as [e|[matched chunk3]] eqn:Hclass;
      [done|].
    apply classLoop_shorter in Hclass. apply IH; lia. }
  destruct (eqb c "?").
  { destruct (if failed || is_empty s then (failed || is_empty s, s)
              else (has_prefix_byte Separator s,
                    drop (snd (utf8.DecodeRuneInString s)) s)) as [failed' s'].
    apply IH; lia. }
  destruct (if eqb c "\" then
              match chunk1 with
              | EmptyString => inl ErrBadPattern
              | String d chunk2 => inr (d, chunk2)
              end
            else inr (c, chunk1)) as [e|[c0 chunk']] eqn:Hesc; [done|].
  assert (String.length chunk' <= String.length chunk1)%nat.
  { destruct (eqb c "\"); [|by injection Hesc as <- <-].
    destruct chunk1; [done|]. injection Hesc as <- <-. simpl. lia. }
  destruct (if failed || is_empty s then (failed || is_empty s, s)
            else (negb (has_prefix_byte c0 s), drop 1 s)) as [failed' s'].
  apply IH; lia.
Qed.

Lemma skipStars_length pattern :
  (String.length (snd (skipStars pattern)) <= String.length pattern)%nat ∧
  (fst (skipStars pattern) = true →
   String.length (snd (skipStars pattern)) < String.length pattern)%nat.
Proof.
  induction pattern as [|c p [IH1 IH2]]; [done|]. cbn [skipStars].
  destruct (eqb c "*"); simpl; split; try done; lia.
Qed.

Lemma scan_length inrange pattern chunk rest :
  scan inrange pattern = (chunk, rest) →
  (String.length chunk + String.length rest)%nat = String.length pattern.
Proof.
  revert inrange chunk rest.
  assert (Hstep : ∀ n pattern inrange chunk rest,
             (String.length pattern <= n)%nat →
             scan inrange pattern = (chunk, rest) →
             (String.length chunk + String.length rest)%nat = String.length pattern).
  { clear pattern. induction n as [|n IH]; intros pattern inrange chunk rest Hn.
    { destruct pattern; [|simpl in Hn; lia]. by intros [= <- <-]. }
    destruct pattern as [|c p]; [by intros [= <- <-]|]. cbn [scan].
    simpl in Hn.
    destruct (eqb c "\").
    { destruct p as [|d p]; [by intros [= <- <-]|]. simpl in Hn.
      destruct (scan inrange p) as [chunk' rest'] eqn:Hs. intros [= <- <-].
      apply IH in Hs; [|lia]. simpl. lia. }
    destruct (eqb c "[").
    { destruct (scan true p) as [chunk' rest'] eqn:Hs. intros [= <- <-].
      apply IH in Hs; [|lia]. simpl. lia. }
    destruct (eqb c "]").
    { destruct (scan false p) as [chunk' rest'] eqn:Hs. intros [= <- <-].
      apply IH in Hs; [|lia]. simpl. lia. }
    destruct (eqb c "*" && negb inrange).
    { by intros [= <- <-]. }
    destruct (scan inrange p) as [chunk' rest'] eqn:Hs. intros [= <- <-].
    apply IH in Hs; [|lia]. simpl. lia. }
  intros inrange chunk rest. by apply (Hstep (String.length pattern)).
Qed.

Lemma skipStars_no_star pattern :
  has_prefix_byte "*" (snd (skipStars pattern)) = false.
Proof.
  induction pattern as [|c p IH]; [done|]. cbn [skipStars].
  destruct (eqb c "*") eqn:Hc; cbn [snd has_prefix_byte]; [done|].
  unfold eqb in *. by rewrite Ascii.eqb_sym.
Qed.

Lemma scan_empty_chunk pattern rest :
  scan false pattern = (EmptyString, rest) →
  has_prefix_byte "*" pattern = false → pattern = EmptyString ∧ rest = EmptyString.
Proof.
  destruct pattern as [|c p]; cbn [scan has_prefix_byte]; [by intros [= <-]|].
  destruct (eqb c "\") eqn:Hb.
  { destruct p as [|d p]; [done|]. by destruct (scan false p). }
  destruct (eqb c "[").
  { by destruct (scan true p). }
  destruct (eqb c "]").
  { by destruct (scan false p). }
  unfold eqb in *. rewrite (Ascii.eqb_sym "*" c).
  destruct (Ascii.eqb c "*"); cbn [andb negb]; [done|]. by destruct (scan false p).
Qed.

(** Every round of [Match] consumes some of the pattern. *)
Lemma scanChunk_shorter pattern star chunk rest :
  is_empty pattern = false →
  scanChunk pattern = (star, chunk, rest) →
  (String.length rest < String.length pattern)%nat.
Proof.
  intros Hne. unfold scanChunk.
  pose proof (skipStars_no_star pattern) as Hs.
  pose proof (skipStars_length pattern) as [Hle _].
  destruct (skipStars pattern) as [star' p]. simpl in Hs, Hle.
  destruct (scan false p) as [chunk' rest'] eqn:Hscan. intros [= <- <- <-].
  pose proof (scan_length false p chunk' rest' Hscan) as Hlen.
  destruct chunk' as [|c chunk'].
  - destruct (scan_empty_chunk p rest' Hscan Hs) as [-> ->].
    destruct pattern; [done|]. simpl. lia.
  - simpl in Hlen. lia.
Qed.

Lemma checkRemainder_fuel fuel fuel' pattern :
  (String.length pattern <= fuel)%nat → (String.length pattern <= fuel')%nat →
  checkRemainder fuel pattern = checkRemainder fuel' pattern.
Proof.
  revert fuel' pattern.
  induction fuel as [|fuel IH]; intros fuel' pattern Hf Hf'.
  { destruct pattern; [|simpl in Hf; lia]. by destruct fuel'. }
  destruct fuel' as [|fuel'].
  { destruct pattern; [done | simpl in Hf'; lia]. }
  cbn [checkRemainder]. destruct (is_empty pattern) eqn:Hne; [done|].
  destruct (scanChunk pattern) as [[star chunk] rest] eqn:Hscan.
  apply scanChunk_shorter in Hscan; [|done].
  destruct (matchChunk chunk EmptyString); [done|]. apply IH; lia.
Qed.

(** The fuel [Match] gives its loop is enough: more changes nothing, so the
    bound is never what ends the loop. *)
Lemma Match_loop_fuel fuel fuel' pattern name :
  (String.length pattern < fuel)%nat → (String.length pattern < fuel')%nat →
  Match_loop fuel pattern name = Match_loop fuel' pattern name.
Proof.
  revert fuel' pattern name.
  induction fuel as [|fuel IH]; intros fuel' pattern name Hf Hf'; [lia|].
  destruct fuel' as [|fuel']; [lia|]. cbn [Match_loop].
  destruct (is_empty pattern) eqn:Hne; [done|].
  destruct (scanChunk pattern) as [[star chunk] rest] eqn:Hscan.
  apply scanChunk_shorter in Hscan; [|done].
  destruct (star && is_empty chunk); [done|].
  destruct (matchChunk chunk name) as [e|[t|]].
  - done.
  - destruct (is_empty t || negb (is_empty rest)); [apply IH; lia|].
    destruct (if star then starLoop chunk (is_empty rest) name else inr None)
      as [e|[t'|]]; [done | apply IH; lia | done].
  - destruct (if star then starLoop chunk (is_empty rest) name else inr None)
      as [e|[t'|]]; [done | apply IH; lia | done].
Qed.

(** [Match] satisfies the equation of the loop it models. *)
Lemma Match_unfold pattern name :
  Match pattern name
  = if is_empty pattern then inr (is_empty name)
    else
      let '(star, chunk, rest) := scanChunk pattern in
      if star && is_empty chunk then inr (negb (contains_byte Separator name))
      else
        match matchChunk chunk name with
        | inl e => inl e
        | inr found =>
            let continue_with :=
              match found with
              | Some t =>
                  if is_empty t || negb (is_empty rest) then Some t else None
              | None => None
              end in
            match continue_with with
            | Some t => Match rest t
            | None =>
                match (if star then starLoop chunk (is_empty rest) name
                       else inr None) with
                | inl e => inl e
                | inr (Some t) => Match rest t
                | inr None =>
                    match checkRemainder (String.length rest) rest with
                    | Some e => inl e
                    | None => inr false
                    end
                end
            end
        end.
Proof.
  unfold Match at 1. cbn [Match_loop].
  destruct (is_empty pattern) eqn:Hne; [done|].
  destruct (scanChunk pattern) as [[star chunk] rest] eqn:Hscan.
  apply scanChunk_shorter in Hscan; [|done].
  destruct (star && is_empty chunk); [done|].
  assert (Hrest : ∀ t, Match_loop (String.length pattern) rest t = Match rest t).
  { intros t. apply Match_loop_fuel; lia. }
  destruct (matchChunk chunk name) as [e|[t|]]; [done | |].
  - destruct (is_empty t || negb (is_empty rest)); [apply Hrest|].
    destruct (if star then starLoop chunk (is_empty rest) name else inr None)
      as [e|[t'|]]; [done | apply Hrest | done].
  - destruct (if star then starLoop chunk (is_empty rest) name else inr None)
      as [e|[t'|]]; [done | apply Hrest | done].
Qed.

(** *** Whether the matcher rejects a pattern does not depend on the name *)

Lemma classLoop_failure fuel chunk r r' matched matched' nrange :
  match classLoop fuel chunk r matched nrange,
        classLoop fuel chunk r' matched' nrange with
  | inl _, inl _ => True
  | inr (_, rest), inr (_, rest') => rest = rest'
  | _, _ => False
  end.
Proof.
  revert chunk matched matched' nrange.
  induction fuel as [|fuel IH]; intros chunk matched matched' nrange;
    cbn [classLoop]; [done|].
  destruct (has_prefix_byte "]" chunk && (0 <? nrange)%nat); [done|].
  destruct (getEsc chunk) as [e|[lo chunk1]]; [done|].
  destruct (if has_prefix_byte "-" chunk1 then getEsc (drop 1 chunk1)
            else inr (lo, chunk1)) as [e|[hi chunk2]]; [done|].
  apply IH.
Qed.

Lemma matchChunk_loop_failure fuel chunk s s' failed failed' :
  failure (matchChunk_loop fuel chunk s failed)
  = failure (matchChunk_loop fuel chunk s' failed').
Proof.
  revert chunk s s' failed failed'.
  induction fuel as [|fuel IH]; intros chunk s s' failed failed';
    cbn [matchChunk_loop]; [done|].
  destruct chunk as [|c chunk1].
  { by destruct failed, failed'. }
  destruct (eqb c "[").
  { destruct (if failed || is_empty s then (0%N, s)
              else let '(r, n) := utf8.DecodeRuneInString s in (r, drop n s))
      as [r t].
    destruct (if failed' || is_empty s' then (0%N, s')
              else let '(r, n) := utf8.DecodeRuneInString s' in (r, drop n s'))
      as [r' t'].
    destruct (if has_prefix_byte "^" chunk1 then (true, drop 1 chunk1)
              else (false, chunk1)) as [negated chunk2].
    pose proof (classLoop_failure (S (String.length chunk2)) chunk2 r r'
                  false false 0) as Hclass.
    destruct (classLoop _ chunk2 r false 0) as [e|[matched chunk3]],
             (classLoop _ chunk2 r' false 0) as [e'|[matched' chunk3']];
      try done.
    subst chunk3'. apply IH. }
  destruct (eqb c "?").
  { destruct (if failed || is_empty s then (failed || is_empty s, s)
              else (has_prefix_byte Separator s,
                    drop (snd (utf8.DecodeRuneInString s)) s)) as [f t].
    destruct (if failed' || is_empty s' then (failed' || is_empty s', s')
              else (has_prefix_byte Separator s',
                    drop (snd (utf8.DecodeRuneInString s')) s')) as [f' t'].
    apply IH. }
  destruct (if eqb c "\" then
              match chunk1 with
              | EmptyString => inl ErrBadPattern
              | String d chunk2 => inr (d, chunk2)
              end
            else inr (c, chunk1)) as [e|[c0 chunk']]; [done|].
  destruct (if failed || is_empty s then (failed || is_empty s, s)
            else (negb (has_prefix_byte c0 s), drop 1 s)) as [f t].
  destruct (if failed' || is_empty s' then (failed' || is_empty s', s')
            else (negb (has_prefix_byte c0 s'), drop 1 s')) as [f' t'].
  apply IH.
Qed.

Lemma matchChunk_failure chunk s s' :
  failure (matchChunk chunk s) = failure (matchChunk chunk s').
Proof. apply matchChunk_loop_failure. Qed.

Lemma starLoop_failure chunk last name :
  failure (matchChunk chunk EmptyString) = false →
  failure (starLoop chunk last name) = false.
Proof.
  intros Hok. induction name as [|c name IH]; cbn [starLoop]; [done|].
  destruct (eqb c Separator); [done|].
  pose proof (matchChunk_failure chunk name EmptyString) as Hf.
  rewrite Hok in Hf.
  destruct (matchChunk chunk name) as [e|[t|]]; [done | | done].
  by destruct (last && negb (is_empty t)).
Qed.

(** The patterns [Match] rejects are those with a malformed chunk, whatever
    the name. *)
Lemma Match_loop_failure fuel pattern name :
  (String.length pattern < fuel)%nat →
  failure (Match_loop fuel pattern name)
  = bool_decide (checkRemainder (String.length pattern) pattern ≠ None).
Proof.
  revert pattern name.
  induction fuel as [|fuel IH]; intros pattern name Hf; [lia|].
  cbn [Match_loop].
  destruct pattern as [|c0 p0] eqn:Hp; [done|]. rewrite <- Hp in *.
  assert (Hne : is_empty pattern = false) by by subst.
  rewrite Hne.
  assert (Hcheck : checkRemainder (String.length pattern) pattern
                   = checkRemainder (S (String.length pattern)) pattern).
  { apply checkRemainder_fuel; lia. }
  rewrite Hcheck. cbn [checkRemainder]. rewrite Hne.
  destruct (scanChunk pattern) as [[star chunk] rest] eqn:Hscan.
  pose proof (scanChunk_shorter pattern star chunk rest Hne Hscan) as Hshort.
  assert (Hrest : checkRemainder (String.length pattern) rest
                  = checkRemainder (String.length rest) rest).
  { apply checkRemainder_fuel; lia. }
  rewrite Hrest.
  assert (HIH : ∀ t, failure (Match_loop fuel rest t)
                = bool_decide (checkRemainder (String.length rest) rest ≠ None)).
  { intros t. apply IH. lia. }
  destruct (star && is_empty chunk) eqn:Hstar.
  { apply andb_true_iff in Hstar as [-> Hchunk]. destruct chunk; [|done].
    assert (rest = EmptyString) as ->.
    { unfold scanChunk in Hscan. pose proof (skipStars_no_star pattern) as Hs.
      destruct (skipStars pattern) as [star' p]. simpl in Hs.
      destruct (scan false p) as [chunk' rest'] eqn:Hsc.
      injection Hscan as _ -> <-.
      by destruct (scan_empty_chunk p rest' Hsc Hs). }
    done. }
  pose proof (matchChunk_failure chunk name EmptyString) as Hf0.
  destruct (matchChunk chunk EmptyString) as [e0|found0] eqn:H0.
  { destruct (matchChunk chunk name) as [e|[t|]]; [|done|done].
    by destruct e0. }
  assert (Hstarloop : failure (if star then starLoop chunk (is_empty rest) name
                               else inr None) = false).
  { destruct star; [|done]. apply starLoop_failure. by rewrite H0. }
  assert (Htail : failure
            (match (if star then starLoop chunk (is_empty rest) name
                    else inr None) with
             | inl e => inl e
             | inr (Some t) => Match_loop fuel rest t
             | inr None =>
                 match checkRemainder (String.length rest) rest with
                 | Some e => inl e
                 | None => inr false
                 end
             end)
          = bool_decide (checkRemainder (String.length rest) rest ≠ None)).
  { destruct (if star then starLoop chunk (is_empty rest) name else inr None)
      as [e|[t|]]; [done | apply HIH |].
    by destruct (checkRemainder (String.length rest) rest). }
  destruct (matchChunk chunk name) as [e|[t|]]; [done | | exact Htail].
  destruct (is_empty t || negb (is_empty rest)); [apply HIH | exact Htail].
Qed.

Lemma Match_failure pattern name name' :
  failure (Match pattern name) = failure (Match pattern name').
Proof.
  unfold Match. rewrite !Match_loop_failure by lia. done.
Qed.

End Fuel.

Lemma rejects_any_path pattern path :
  rejects pattern path = negb (compiles pattern).
Proof.
  unfold compiles, rejects. rewrite negb_involutive.
  apply (Match_failure pattern path EmptyString).
Qed.

(** ** The other loops end before their bound *)

Section CleanFuel.

Import Bytes filepath.

Implicit Types (path : string) (out : list ascii).

Lemma copyElement_length path out :
  (String.length (fst (copyElement path out)) <= String.length path)%nat.
Proof.
  revert out. induction path as [|c p IH]; intros out; cbn [copyElement]; [done|].
  destruct (eqb c Separator); [done|]. specialize (IH (c :: out)). simpl. lia.
Qed.

(** The fuel [Clean] gives its loop is enough: more changes nothing. *)
Lemma Clean_loop_fuel fuel fuel' rooted path out dotdot :
  (String.length path <= fuel)%nat → (String.length path <= fuel')%nat →
  Clean_loop fuel rooted path out dotdot = Clean_loop fuel' rooted path out dotdot.
Proof.
  revert fuel' path out dotdot.
  induction fuel as [|fuel IH]; intros fuel' path out dotdot Hf Hf'.
  { destruct path; [|simpl in Hf; lia]. by destruct fuel'. }
  destruct fuel' as [|fuel'].
  { destruct path; [done | simpl in Hf'; lia]. }
  cbn [Clean_loop]. destruct path as [|c p1]; [done|].
  cbn [String.length] in Hf, Hf'.
  destruct (eqb c Separator) eqn:Hsep; [apply IH; lia|].
  destruct (eqb c "." && (is_empty p1 || has_prefix_byte Separator p1));
    [apply IH; lia|].
  assert (Hdrop : (String.length (drop 1 p1) <= String.length p1)%nat).
  { rewrite string_drop_length. lia. }
  destruct (eqb c "." && has_prefix_byte "." p1
            && (is_empty (drop 1 p1) || has_prefix_byte Separator (drop 1 p1))).
  { destruct (dotdot <? length out)%nat; [apply IH; lia|].
    destruct (negb rooted); apply IH; lia. }
  cbv zeta.
  match goal with
  | |- context [copyElement _ ?o] =>
      pose proof (copyElement_length (String c p1) o) as Hcopy;
      destruct (copyElement (String c p1) o) as [path' out2] eqn:Hc
  end.
  cbn [copyElement] in Hc. rewrite Hsep in Hc.
  match type of Hc with
  | copyElement _ ?o = _ =>
      pose proof (copyElement_length p1 o) as Hcopy'; rewrite Hc in Hcopy'
  end.
  simpl in Hcopy'. apply IH; lia.
Qed.

End CleanFuel.

Section UnquoteFuel.

Import Bytes json.


Lemma unquote_loop_fuel fuel fuel' s :
  (String.length s <= fuel)%nat → (String.length s <= fuel')%nat →
  unquote_loop fuel s = unquote_loop fuel' s.
Proof.
  revert fuel' s. induction fuel as [|fuel IH]; intros fuel' s Hf Hf'.
  { destruct s; [|simpl in Hf; lia]. by destruct fuel'. }
  destruct fuel' as [|fuel'].
  { destruct s; [done | simpl in Hf'; lia]. }
  cbn [unquote_loop]. destruct s as [|c t]; [done|].
  assert (Hdrop : ∀ n, (1 <= n)%nat →
            (String.length (drop n (String c t)) <= String.length t)%nat).
  { intros n Hn. rewrite string_drop_length. simpl. lia. }
  cbn [String.length] in Hf, Hf'.
  destruct (eqb c "\").
  { destruct t as [|e t1]; [done|]. cbn [String.length] in Hf, Hf'.
    destruct (eqb e "u").
    - destruct (getu4 (String c (String e t1))) as [rr|]; [|done].
      assert (H6 : (String.length (drop 6 (String c (String e t1)))
                    <= String.length (String e t1))%nat)
        by (rewrite string_drop_length; simpl; lia).
      assert (H12 : (String.length (drop 6 (drop 6 (String c (String e t1))))
                     <= String.length (String e t1))%nat)
        by (rewrite !string_drop_length; simpl; lia).
      change (String.length (String e t1)) with (S (String.length t1)) in H6, H12.
      destruct (IsSurrogate rr).
      + destruct (negb _); f_equal; apply IH; lia.
      + f_equal. apply IH; lia.
    - f_equal. apply IH; lia. }
  destruct (byte c <? utf8.RuneSelf)%N; [f_equal; apply IH; lia|].
  pose proof (DecodeRuneInString_width (String c t) eq_refl) as Hw.
  destruct (utf8.DecodeRuneInString (String c t)) as [rr size]. simpl in Hw.
  f_equal. apply IH; etrans; try apply Hdrop; lia.
Qed.

End UnquoteFuel.

Section JSONFuel.

Import Bytes json.

Implicit Types (s rest raw : string).

Lemma skipSpace_length s : (String.length (skipSpace s) <= String.length s)%nat.
Proof.
  induction s as [|c s IH]; [done|]. cbn [skipSpace].
  destruct (isSpace c); simpl; lia.
Qed.

Lemma scanString_shorter s raw rest :
  scanString s = Some (raw, rest) → (String.length rest < String.length s)%nat.
Proof.
  revert raw rest.
  assert (Hn : ∀ n s raw rest, (String.length s <= n)%nat →
                scanString s = Some (raw, rest) →
                (String.length rest < String.length s)%nat).
  { clear s. induction n as [|n IH]; intros s raw rest Hlen.
    { by destruct s; [|simpl in Hlen; lia]. }
    destruct s as [|c t]; [done|]. cbn [scanString]. cbn [String.length] in *.
    destruct (eqb c quote); [intros [= <- <-]; lia|].
    destruct (eqb c "\").
    { destruct t as [|e t1]; [done|]. cbn [String.length] in *.
      destruct (eqb e "u").
      - destruct t1 as [|h1 [|h2 [|h3 [|h4 t2]]]]; try done.
        cbn [String.length] in *.
        destruct (hexValue h1), (hexValue h2), (hexValue h3), (hexValue h4);
          try done.
        destruct (scanString t2) as [[raw' rest']|] eqn:Hs; [|done].
        intros [= <- <-]. apply IH in Hs; lia.
      - destruct (_ || _); [|done].
        destruct (scanString t1) as [[raw' rest']|] eqn:Hs; [|done].
        intros [= <- <-]. apply IH in Hs; lia. }
    destruct (byte c <? 32)%N; [done|].
    destruct (scanString t) as [[raw' rest']|] eqn:Hs; [|done].
    intros [= <- <-]. apply IH in Hs; lia. }
  intros raw rest. by apply (Hn (String.length s)).
Qed.

Lemma expect_length word s rest :
  expect word s = Some rest → (String.length rest <= String.length s)%nat.
Proof.
  revert s. induction word as [|w word IH]; intros s; cbn [expect].
  - by intros [= <-].
  - destruct s as [|c s]; [done|]. destruct (eqb w c); [|done].
    intros H%IH. simpl. lia.
Qed.

Lemma digits_length s ds rest :
  digits s = (ds, rest) → (String.length rest <= String.length s)%nat.
Proof.
  revert ds rest. induction s as [|c s IH]; intros ds rest; cbn [digits].
  - by intros [= <- <-].
  - destruct (isDigit c).
    + destruct (digits s) as [ds' rest'] eqn:Hd. intros [= <- <-].
      specialize (IH _ _ eq_refl). simpl. lia.
    + by intros [= <- <-].
Qed.

Lemma scanExponent_length s e rest :
  scanExponent s = Some (e, rest) → (String.length rest <= String.length s)%nat.
Proof.
  unfold scanExponent. destruct s as [|c t]; [by intros [= <- <-]|].
  destruct (eqb c "e" || eqb c "E"); [|by intros [= <- <-]].
  set (sg := match t with
             | EmptyString => _
             | String g t' => _
             end).
  assert (Hsg : (String.length (snd sg) <= String.length t)%nat).
  { unfold sg. destruct t as [|g t']; [done|].
    destruct (eqb g "+" || eqb g "-"); simpl; lia. }
  destruct sg as [sign t1]. simpl in Hsg.
  destruct (digits t1) as [ds rest'] eqn:Hd. apply digits_length in Hd.
  destruct ds; [done|]. intros [= <- <-]. simpl. lia.
Qed.

Lemma scanFraction_length s f rest :
  scanFraction s = Some (f, rest) → (String.length rest <= String.length s)%nat.
Proof.
  unfold scanFraction. destruct s as [|c t]; [by intros [= <- <-]|].
  destruct (eqb c ".").
  - destruct (digits t) as [ds rest'] eqn:Hd. apply digits_length in Hd.
    destruct ds; [done|].
    destruct (scanExponent rest') as [[e rest'']|] eqn:He; [|done].
    apply scanExponent_length in He. intros [= <- <-]. simpl. lia.
  - apply scanExponent_length.
Qed.

Lemma scanNumber_shorter s lit rest :
  scanNumber s = Some (lit, rest) → (String.length rest < String.length s)%nat.
Proof.
  unfold scanNumber.
  set (sg := match s with
             | EmptyString => _
             | String c t => _
             end).
  assert (Hsg : (String.length (snd sg) <= String.length s)%nat).
  { unfold sg. destruct s as [|c t]; [done|]. destruct (eqb c "-"); simpl; lia. }
  destruct sg as [sign s1]. simpl in Hsg.
  destruct s1 as [|c t]; [done|]. cbn [String.length] in Hsg.
  set (int := if eqb c "0" then _ else _).
  assert (Hint : ∀ i rest', int = Some (i, rest') →
                 (String.length rest' <= String.length t)%nat).
  { unfold int. intros i rest'. destruct (eqb c "0"); [by intros [= <- <-]|].
    destruct (isDigit c); [|done].
    destruct (digits t) as [ds r] eqn:Hd. apply digits_length in Hd.
    by intros [= <- <-]. }
  destruct int as [[i rest']|]; [|done]. specialize (Hint _ _ eq_refl).
  destruct (scanFraction rest') as [[f rest'']|] eqn:Hf; [|done].
  apply scanFraction_length in Hf. intros [= <- <-]. lia.
Qed.

Section Loops.

Variable nested : string → option (Value * string).
Hypothesis nested_shorter :
  ∀ s v rest, nested s = Some (v, rest) →
              (String.length rest < String.length s)%nat.

Lemma parseElements_shorter fuel s acc vs rest :
  parseElements nested fuel s acc = Some (vs, rest) →
  (String.length rest < String.length s)%nat.
Proof.
  revert s acc. induction fuel as [|fuel IH]; intros s acc; cbn [parseElements];
    [done|].
  destruct (nested s) as [[v r]|] eqn:Hn; [|done]. apply nested_shorter in Hn.
  pose proof (skipSpace_length r) as Hsp.
  destruct (skipSpace r) as [|c t]; [done|]. cbn [String.length] in Hsp.
  destruct (eqb c ",").
  - intros H%IH. lia.
  - destruct (eqb c "]"); [|done]. intros [= <- <-]. lia.
Qed.

Lemma parseElements_fuel fuel fuel' s acc :
  (String.length s <= fuel)%nat → (String.length s <= fuel')%nat →
  parseElements nested fuel s acc = parseElements nested fuel' s acc.
Proof.
  revert fuel' s acc. induction fuel as [|fuel IH]; intros fuel' s acc Hf Hf'.
  { destruct s; [|simpl in Hf; lia]. destruct fuel'; [done|]. cbn [parseElements].
    destruct (nested EmptyString) as [[v r]|] eqn:Hn; [|done].
    apply nested_shorter in Hn. simpl in Hn. lia. }
  destruct fuel' as [|fuel'].
  { destruct s; [|simpl in Hf'; lia]. cbn [parseElements].
    destruct (nested EmptyString) as [[v r]|] eqn:Hn; [|done].
    apply nested_shorter in Hn. simpl in Hn. lia. }
  cbn [parseElements].
  destruct (nested s) as [[v r]|] eqn:Hn; [|done]. apply nested_shorter in Hn.
  pose proof (skipSpace_length r) as Hsp.
  destruct (skipSpace r) as [|c t]; [done|]. cbn [String.length] in Hsp.
  destruct (eqb c ","); [|done]. apply IH; lia.
Qed.

Lemma parseMembers_shorter fuel s acc ms rest :
  parseMembers nested fuel s acc = Some (ms, rest) →
  (String.length rest < String.length s)%nat.
Proof.
  revert s acc. induction fuel as [|fuel IH]; intros s acc; cbn [parseMembers];
    [done|].
  pose proof (skipSpace_length s) as Hs.
  destruct (skipSpace s) as [|q t]; [done|]. cbn [String.length] in Hs.
  destruct (eqb q quote); [|done].
  destruct (scanString t) as [[raw r]|] eqn:Hstr; [|done].
  apply scanString_shorter in Hstr.
  pose proof (skipSpace_length r) as Hr.
  destruct (skipSpace r) as [|colon t1]; [done|]. cbn [String.length] in Hr.
  destruct (eqb colon ":"); [|done].
  destruct (nested t1) as [[v r1]|] eqn:Hn; [|done]. apply nested_shorter in Hn.
  pose proof (skipSpace_length r1) as Hr1.
  destruct (skipSpace r1) as [|c t2]; [done|]. cbn [String.length] in Hr1.
  destruct (eqb c ",").
  - intros H%IH. lia.
  - destruct (eqb c "}"); [|done]. intros [= <- <-]. lia.
Qed.

Lemma parseMembers_fuel fuel fuel' s acc :
  (String.length s <= fuel)%nat → (String.length s <= fuel')%nat →
  parseMembers nested fuel s acc = parseMembers nested fuel' s acc.
Proof.
  revert fuel' s acc. induction fuel as [|fuel IH]; intros fuel' s acc Hf Hf'.
  { destruct s; [|simpl in Hf; lia]. by destruct fuel'. }
  destruct fuel' as [|fuel'].
  { destruct s; [|simpl in Hf'; lia]. done. }
  cbn [parseMembers].
  pose proof (skipSpace_length s) as Hs.
  destruct (skipSpace s) as [|q t]; [done|]. cbn [String.length] in Hs.
  destruct (eqb q quote); [|done].
  destruct (scanString t) as [[raw r]|] eqn:Hstr; [|done].
  apply scanString_shorter in Hstr.
  pose proof (skipSpace_length r) as Hr.
  destruct (skipSpace r) as [|colon t1]; [done|]. cbn [String.length] in Hr.
  destruct (eqb colon ":"); [|done].
  destruct (nested t1) as [[v r1]|] eqn:Hn; [|done]. apply nested_shorter in Hn.
  pose proof (skipSpace_length r1) as Hr1.
  destruct (skipSpace r1) as [|c t2]; [done|]. cbn [String.length] in Hr1.
  destruct (eqb c ","); [|done]. apply IH; lia.
Qed.

End Loops.

(** A value read consumes input. *)
Lemma parseValue_shorter depth s v rest :
  parseValue depth s = Some (v, rest) →
  (String.length rest < String.length s)%nat.
Proof.
  revert s v rest. induction depth as [|depth IH]; intros s v rest.
  - cbn [parseValue]. pose proof (skipSpace_length s) as Hs.
    destruct (skipSpace s) as [|c t]; [done|]. cbn [String.length] in Hs.
    destruct (eqb c "{"); [done|]. destruct (eqb c "["); [done|].
    destruct (eqb c quote).
    { destruct (scanString t) as [[raw r]|] eqn:H; [|done].
      apply scanString_shorter in H. intros [= <- <-]. lia. }
    destruct (eqb c "n").
    { destruct (expect "ull" t) as [r|] eqn:H; [|done].
      apply expect_length in H. intros [= <- <-]. lia. }
    destruct (eqb c "t").
    { destruct (expect "rue" t) as [r|] eqn:H; [|done].
      apply expect_length in H. intros [= <- <-]. lia. }
    destruct (eqb c "f").
    { destruct (expect "alse" t) as [r|] eqn:H; [|done].
      apply expect_length in H. intros [= <- <-]. lia. }
    destruct (scanNumber (String c t)) as [[lit r]|] eqn:H; [|done].
    apply scanNumber_shorter in H. intros [= <- <-]. simpl in H. lia.
  - cbn [parseValue]. pose proof (skipSpace_length s) as Hs.
    destruct (skipSpace s) as [|c t]; [done|]. cbn [String.length] in Hs.
    destruct (eqb c "{").
    { pose proof (skipSpace_length t) as Ht.
      destruct (skipSpace t) as [|c1 t1]; [done|]. cbn [String.length] in Ht.
      destruct (eqb c1 "}"); [intros [= <- <-]; lia|].
      destruct (parseMembers _ _ t []) as [[ms r]|] eqn:H; [|done].
      apply (parseMembers_shorter _ IH) in H. intros [= <- <-]. lia. }
    destruct (eqb c "[").
    { pose proof (skipSpace_length t) as Ht.
      destruct (skipSpace t) as [|c1 t1]; [done|]. cbn [String.length] in Ht.
      destruct (eqb c1 "]"); [intros [= <- <-]; lia|].
      destruct (parseElements _ _ t []) as [[vs r]|] eqn:H; [|done].
      apply (parseElements_shorter _ IH) in H. intros [= <- <-]. lia. }
    destruct (eqb c quote).
    { destruct (scanString t) as [[raw r]|] eqn:H; [|done].
      apply scanString_shorter in H. intros [= <- <-]. lia. }
    destruct (eqb c "n").
    { destruct (expect "ull" t) as [r|] eqn:H; [|done].
      apply expect_length in H. intros [= <- <-]. lia. }
    destruct (eqb c "t").
    { destruct (expect "rue" t) as [r|] eqn:H; [|done].
      apply expect_length in H. intros [= <- <-]. lia. }
    destruct (eqb c "f").
    { destruct (expect "alse" t) as [r|] eqn:H; [|done].
      apply expect_length in H. intros [= <- <-]. lia. }
    destruct (scanNumber (String c t)) as [[lit r]|] eqn:H; [|done].
    apply scanNumber_shorter in H. intros [= <- <-]. simpl in H. lia.
Qed.

(** The fuel the parser gives the loops over the elements of an array and
    the members of an object is enough: more changes nothing. *)
Lemma parse_loops_fuel depth fuel s :
  (String.length s <= fuel)%nat →
  parseElements (parseValue depth) fuel s []
  = parseElements (parseValue depth) (String.length s) s [] ∧
  parseMembers (parseValue depth) fuel s []
  = parseMembers (parseValue depth) (String.length s) s [].
Proof.
  intros Hf. split.
  - apply parseElements_fuel; [apply parseValue_shorter | done | done].
  - apply parseMembers_fuel; [apply parseValue_shorter | done | done].
Qed.

End JSONFuel.

(** ** A pattern matches its canonical path *)

Section MatchFacts.

Import Bytes filepath canonical.

Implicit Types (chunk pattern path rest : string).

Lemma string_app_assoc (a b c : string) : (a +:+ b) +:+ c = a +:+ (b +:+ c).
Proof.
  induction a as [|x a IH]; [done|].
  change (String x ((a +:+ b) +:+ c) = String x (a +:+ (b +:+ c))).
  by rewrite IH.
Qed.

Lemma string_drop_app (a b : string) : drop (String.length a) (a +:+ b) = b.
Proof. induction a as [|x a IH]; [done | exact IH]. Qed.

Lemma is_empty_app (a b : string) : is_empty a = false → is_empty (a +:+ b) = false.
Proof. by destruct a. Qed.

Lemma decode_app (s rest : string) r :
  utf8.DecodeRuneInString s = (r, String.length s) →
  is_empty s = false →
  (r =? utf8.RuneError)%N && (String.length s =? 1)%nat = false →
  utf8.DecodeRuneInString (s +:+ rest) = (r, String.length s).
Proof.
  destruct s as [|c0 [|c1 [|c2 [|c3 [|c4 s]]]]]; try done;
  unfold utf8.DecodeRuneInString; cbn [String.append String.length];
  unfold utf8.first;
  repeat (case_match; simplify_eq/=; try done).
  all: try (intros; simplify_eq/=; done).
Qed.

Lemma classLoop_ranges fuel chunk r matched nrange :
  classLoop fuel chunk r matched nrange
  = match classRanges fuel chunk nrange with
    | inl e => inl e
    | inr (ranges, rest) => inr (matched || inRanges r ranges, rest)
    end.
Proof.
  revert chunk matched nrange.
  induction fuel as [|fuel IH]; intros chunk matched nrange;
    cbn [classLoop classRanges]; [done|].
  destruct (has_prefix_byte "]" chunk && (0 <? nrange)%nat).
  { unfold inRanges; simpl. by rewrite orb_false_r. }
  destruct (getEsc chunk) as [e|[lo chunk1]]; [done|].
  destruct (if has_prefix_byte "-" chunk1 then getEsc (drop 1 chunk1)
            else inr (lo, chunk1)) as [e|[hi chunk2]]; [done|].
  rewrite IH. destruct (classRanges fuel chunk2 (S nrange)) as [e|[ranges rest]];
    [done|]. unfold inRanges; simpl. by rewrite orb_assoc.
Qed.

Lemma pick_stands_for negated ranges candidate :
  pick negated ranges = Some candidate →
  stands_for negated ranges candidate = true.
Proof. unfold pick. intros H. by apply find_some in H as [_ H]. Qed.

(** A chunk matches the path made from it, and leaves what follows. *)
Lemma matchChunk_loop_canonical fuel chunk c rest :
  canonChunk_loop fuel chunk = Some c →
  matchChunk_loop fuel chunk (c +:+ rest) false = inr (Some rest).
Proof.
  revert chunk c rest.
  induction fuel as [|fuel IH]; intros chunk c rest;
    cbn [canonChunk_loop matchChunk_loop]; [done|].
  destruct chunk as [|x chunk1]; [by intros [= <-]|].
  destruct (eqb x "[").
  { destruct (if has_prefix_byte "^" chunk1 then (true, drop 1 chunk1)
              else (false, chunk1)) as [negated chunk2].
    destruct (classRanges _ chunk2 0) as [e|[ranges chunk3]] eqn:Hranges; [done|].
    destruct (pick negated ranges) as [candidate|] eqn:Hpick; [|done].
    destruct (canonChunk_loop fuel chunk3) as [t|] eqn:Ht; [|done].
    intros [= <-]. apply pick_stands_for in Hpick. unfold stands_for in Hpick.
    destruct (utf8.DecodeRuneInString candidate) as [r n] eqn:Hdec.
    apply andb_true_iff in Hpick as [Hpick Hin].
    apply andb_true_iff in Hpick as [Hpick Hbad].
    apply andb_true_iff in Hpick as [Hne Hn].
    apply Nat.eqb_eq in Hn. subst n.
    apply negb_true_iff in Hne, Hbad, Hin.
    rewrite string_app_assoc. rewrite (is_empty_app _ _ Hne). cbn [orb].
    rewrite (decode_app candidate (t +:+ rest) r Hdec Hne Hbad).
    rewrite string_drop_app. rewrite classLoop_ranges, Hranges. cbn [orb].
    rewrite Hin. by apply IH. }
  destruct (eqb x "?").
  { destruct (canonChunk_loop fuel chunk1) as [t|] eqn:Ht; [|done].
    intros [= <-]. simpl. by apply IH. }
  destruct (if eqb x "\" then
              match chunk1 with
              | EmptyString => inl ErrBadPattern
              | String d chunk2 => inr (d, chunk2)
              end
            else inr (x, chunk1)) as [e|[c0 chunk']]; [done|].
  destruct (canonChunk_loop fuel chunk') as [t|] eqn:Ht; [|done].
  intros [= <-]. simpl. unfold eqb. rewrite Ascii.eqb_refl. simpl. by apply IH.
Qed.

Lemma matchChunk_canonical chunk c rest :
  canonChunk chunk = Some c →
  matchChunk chunk (c +:+ rest) = inr (Some rest).
Proof. apply matchChunk_loop_canonical. Qed.

Lemma scanChunk_empty_chunk pattern star rest :
  scanChunk pattern = (star, EmptyString, rest) → rest = EmptyString.
Proof.
  unfold scanChunk. pose proof (skipStars_no_star pattern) as Hs.
  destruct (skipStars pattern) as [star' p]. simpl in Hs.
  destruct (scan false p) as [chunk rest'] eqn:Hscan. intros [= <- -> <-].
  by destruct (scan_empty_chunk p rest' Hscan Hs).
Qed.

Lemma canonicalize_loop_empty fuel r :
  canonicalize_loop fuel EmptyString = Some r → r = EmptyString.
Proof. destruct fuel; simpl; [done | by intros [= <-]]. Qed.

(** A pattern matches the path made from it. *)
Lemma Match_loop_canonical fuel pattern path :
  canonicalize_loop fuel pattern = Some path →
  Match_loop fuel pattern path = inr true.
Proof.
  revert pattern path.
  induction fuel as [|fuel IH]; intros pattern path;
    cbn [canonicalize_loop Match_loop]; [done|].
  destruct (is_empty pattern); [by intros [= <-]|].
  destruct (scanChunk pattern) as [[star chunk] rest] eqn:Hscan.
  destruct (canonChunk chunk) as [c|] eqn:Hc; [|done].
  destruct (canonicalize_loop fuel rest) as [r|] eqn:Hr; [|done].
  intros [= <-].
  destruct (star && is_empty chunk) eqn:Hstar.
  { apply andb_true_iff in Hstar as [-> Hchunk].
    destruct chunk; [|done].
    apply scanChunk_empty_chunk in Hscan. subst rest.
    apply canonicalize_loop_empty in Hr. subst r.
    unfold canonChunk in Hc. simpl in Hc. by injection Hc as <-. }
  rewrite (matchChunk_canonical chunk c r Hc).
  assert (Hcont : is_empty r || negb (is_empty rest) = true).
  { destruct rest; [|by rewrite orb_true_r].
    apply canonicalize_loop_empty in Hr. by subst r. }
  rewrite Hcont. by apply IH.
Qed.

Lemma Match_canonical pattern path :
  canonicalize pattern = Some path → Match pattern path = inr true.
Proof. apply Match_loop_canonical. Qed.
End MatchFacts.

(** ** Clean leaves a clean rooted path as it is *)

Section CleanIdentity.

Import Bytes filepath.

Implicit Types (path seg rest acc : string) (out : list ascii) (segs : list string).

Lemma append_empty_r (a : string) : a +:+ EmptyString = a.
Proof.
  induction a as [|x a IH]; [done|].
  change (String x (a +:+ EmptyString) = String x a). by rewrite IH.
Qed.

Lemma list_ascii_app (a b : string) :
  list_ascii_of_string (a +:+ b) = list_ascii_of_string a ++ list_ascii_of_string b.
Proof.
  induction a as [|x a IH]; [done|].
  change (x :: list_ascii_of_string (a +:+ b)
          = x :: (list_ascii_of_string a ++ list_ascii_of_string b)).
  by rewrite IH.
Qed.

Lemma string_length_list (a : string) :
  length (list_ascii_of_string a) = String.length a.
Proof. induction a as [|x a IH]; [done|]. simpl. by rewrite IH. Qed.

Lemma string_of_rev_buffer acc : string_of_rev (buffer acc) = acc.
Proof.
  unfold string_of_rev, buffer. rewrite rev_involutive.
  apply string_of_list_ascii_of_string.
Qed.

Lemma buffer_app acc seg :
  rev (list_ascii_of_string seg) ++ buffer acc = buffer (acc +:+ seg).
Proof. unfold buffer. by rewrite list_ascii_app, rev_app_distr. Qed.

Lemma buffer_sep acc : Separator :: buffer acc = buffer (acc +:+ "/").
Proof. by rewrite <- buffer_app. Qed.

Lemma buffer_length acc : length (buffer acc) = String.length acc.
Proof. unfold buffer. by rewrite length_rev, string_length_list. Qed.

Lemma string_length_app (a b : string) :
  String.length (a +:+ b) = (String.length a + String.length b)%nat.
Proof.
  induction a as [|c a IH]; [done|].
  change (S (String.length (a +:+ b)) = S (String.length a + String.length b)).
  by rewrite IH.
Qed.

Lemma rooted_boundary segs : boundary (rooted segs).
Proof.
  destruct segs; [by left | right]. apply Ascii.eqb_refl.
Qed.

Lemma eqb_sym (c d : ascii) : eqb c d = eqb d c.
Proof. apply Ascii.eqb_sym. Qed.

Lemma boundary_first rest s :
  boundary rest → contains_byte Separator s = false →
  is_empty (s +:+ rest) || has_prefix_byte Separator (s +:+ rest) = is_empty s.
Proof.
  intros Hrest Hs. destruct s as [|d s].
  - change (EmptyString +:+ rest) with rest.
    destruct Hrest as [-> | Hr]; [done|]. rewrite Hr. apply orb_true_r.
  - change (String d s +:+ rest) with (String d (s +:+ rest)).
    cbn [contains_byte] in Hs. apply orb_false_iff in Hs as [Hd _].
    cbn [is_empty has_prefix_byte orb]. exact Hd.
Qed.

Lemma copyElement_segment seg rest out :
  contains_byte Separator seg = false → boundary rest →
  copyElement (seg +:+ rest) out = (rest, rev (list_ascii_of_string seg) ++ out).
Proof.
  revert out. induction seg as [|c seg IH]; intros out Hseg Hrest.
  - change (EmptyString +:+ rest) with rest.
    destruct Hrest as [-> | Hrest]; [done|].
    destruct rest as [|d rest]; [done|]. cbn [copyElement has_prefix_byte] in *.
    by rewrite eqb_sym, Hrest.
  - cbn [contains_byte] in Hseg. apply orb_false_iff in Hseg as [Hc Hseg].
    change (String c seg +:+ rest) with (String c (seg +:+ rest)).
    cbn [copyElement]. rewrite eqb_sym, Hc.
    rewrite IH by done. cbn [list_ascii_of_string rev]. by rewrite <- app_assoc.
Qed.

(** One round of the loop on a simple element: it is copied to the output,
    after a separator unless the output is the root alone. *)
Lemma Clean_loop_simple fuel seg rest acc :
  simple seg = true → boundary rest →
  Clean_loop (S fuel) true (seg +:+ rest) (buffer acc) 1
  = Clean_loop fuel true rest
      (buffer ((if (String.length acc =? 1)%nat then acc else acc +:+ "/")
               +:+ seg)) 1.
Proof.
  unfold simple. intros Hs Hrest.
  apply andb_true_iff in Hs as [Hs Hdd]. apply andb_true_iff in Hs as [Hs Hd].
  apply andb_true_iff in Hs as [Hne Hsep].
  apply negb_true_iff in Hne, Hsep, Hd, Hdd.
  pose proof (copyElement_segment seg rest) as Hcopy.
  destruct seg as [|c seg0]; [done|]. clear Hne.
  change (String c seg0 +:+ rest) with (String c (seg0 +:+ rest)) in *.
  cbn [Clean_loop].
  cbn [contains_byte] in Hsep. apply orb_false_iff in Hsep as [Hc Hseg0].
  rewrite eqb_sym in Hc. rewrite Hc.
  rewrite (boundary_first rest seg0) by done.
  assert (Hdot : eqb c "." && is_empty seg0 = false).
  { destruct (eqb c ".") eqn:Hcd; [|done].
    apply Ascii.eqb_eq in Hcd. subst c. by destruct seg0. }
  rewrite Hdot.
  assert (Hdotdot : eqb c "." && has_prefix_byte "." (seg0 +:+ rest)
                    && (is_empty (drop 1 (seg0 +:+ rest))
                        || has_prefix_byte Separator (drop 1 (seg0 +:+ rest)))
                    = false).
  { destruct (eqb c ".") eqn:Hcd; [|done]. apply Ascii.eqb_eq in Hcd. subst c.
    destruct seg0 as [|d seg1].
    { done. }
    change (String d seg1 +:+ rest) with (String d (seg1 +:+ rest)).
    cbn [has_prefix_byte drop andb]. destruct (eqb "." d) eqn:Hd2; [|done].
    apply Ascii.eqb_eq in Hd2. subst d.
    cbn [contains_byte] in Hseg0. apply orb_false_iff in Hseg0 as [_ Hseg1].
    rewrite (boundary_first rest seg1) by done. by destruct seg1. }
  rewrite Hdotdot. cbv zeta. cbn [andb negb orb].
  rewrite Hcopy by (done || (cbn [contains_byte]; by rewrite eqb_sym, Hc)).
  rewrite buffer_length.
  destruct (String.length acc =? 1)%nat; cbn [negb orb andb].
  - by rewrite buffer_app.
  - by rewrite buffer_sep, buffer_app.
Qed.

Lemma simple_length seg : simple seg = true → (1 <= String.length seg)%nat.
Proof. unfold simple. destruct seg; [done|]. simpl. lia. Qed.

Lemma Clean_loop_simple_path fuel segs seg acc :
  simple seg = true → Forall (fun s => simple s = true) segs →
  (1 <= String.length acc)%nat →
  (String.length (seg +:+ rooted segs) <= fuel)%nat →
  Clean_loop fuel true (seg +:+ rooted segs) (buffer acc) 1
  = buffer ((if (String.length acc =? 1)%nat then acc else acc +:+ "/")
            +:+ seg +:+ rooted segs).
Proof.
  intros Hseg Hsegs. revert fuel seg acc Hseg.
  induction Hsegs as [|seg' segs Hseg' _ IH]; intros fuel seg acc Hseg Hacc Hfuel.
  - pose proof (simple_length seg Hseg) as Hlen.
    rewrite string_length_app in Hfuel.
    destruct fuel as [|fuel]; [lia|].
    rewrite Clean_loop_simple by (done || by left).
    cbn [rooted]. rewrite append_empty_r. by destruct fuel.
  - pose proof (simple_length seg Hseg) as Hlen.
    rewrite string_length_app in Hfuel. cbn [rooted String.length] in Hfuel.
    destruct fuel as [|fuel]; [lia|].
    rewrite Clean_loop_simple by (done || apply rooted_boundary).
    destruct fuel as [|fuel]; [lia|].
    cbn [rooted]. cbn [Clean_loop].
    change (eqb Separator Separator) with true. cbv iota.
    rewrite IH; [| done | | lia].
    + set (acc' := (if (String.length acc =? 1)%nat then acc else acc +:+ "/")
                   +:+ seg).
      assert (2 <= String.length acc')%nat as Hacc'.
      { unfold acc'. rewrite string_length_app.
        destruct (String.length acc =? 1)%nat; [lia|].
        rewrite string_length_app. lia. }
      replace (String.length acc' =? 1)%nat with false
        by (symmetry; apply Nat.eqb_neq; lia).
      f_equal. unfold acc'. rewrite !string_app_assoc. done.
    + rewrite string_length_app.
      destruct (String.length acc =? 1)%nat; [lia|].
      rewrite string_length_app. lia.
Qed.

(** [Clean] leaves a rooted path of simple elements as it is. *)
Lemma Clean_simple_path segs :
  segs ≠ [] → Forall (fun s => simple s = true) segs →
  Clean (rooted segs) = rooted segs.
Proof.
  destruct segs as [|seg segs]; [done|]. intros _ Hall.
  apply Forall_cons in Hall as [Hseg Hsegs].
  cbn [rooted]. unfold Clean. change (eqb Separator Separator) with true.
  cbv iota.
  change [Separator] with (buffer "/").
  rewrite (Clean_loop_simple_path _ segs seg "/") by (done || simpl; lia).
  change (String.length "/" =? 1)%nat with true. cbv iota.
  pose proof (string_of_rev_buffer ("/" +:+ seg +:+ rooted segs)) as Hs.
  destruct (buffer ("/" +:+ seg +:+ rooted segs)) eqn:Hb.
  - apply (f_equal length) in Hb. rewrite buffer_length in Hb. done.
  - exact Hs.
Qed.
End CleanIdentity.

(** ** Clean keeps a rooted path rooted *)

Section CleanFacts.

Import Bytes filepath.

Implicit Types (path : string) (out l : list ascii).

Lemma backtrack_rooted l :
  l ≠ [] → ∃ l', backtrack 1 (l ++ [Separator]) = l' ++ [Separator].
Proof.
  induction l as [|c l IH]; [done|]. intros _. cbn [backtrack app].
  destruct l as [|c' l].
  - by exists [].
  - destruct ((1 <? length ((c' :: l) ++ [Separator]))%nat && negb (eqb c Separator)).
    + by apply IH.
    + by exists (c' :: l).
Qed.

Lemma copyElement_extends path out :
  ∃ l, snd (copyElement path out) = l ++ out.
Proof.
  revert out. induction path as [|c p IH]; intros out; cbn [copyElement].
  - by exists [].
  - destruct (eqb c Separator); [by exists []|].
    destruct (IH (c :: out)) as [l ->]. exists (l ++ [c]). by rewrite <- app_assoc.
Qed.

Lemma Clean_loop_rooted fuel path l :
  ∃ l', Clean_loop fuel true path (l ++ [Separator]) 1 = l' ++ [Separator].
Proof.
  revert path l. induction fuel as [|fuel IH]; intros path l; cbn [Clean_loop].
  { by exists l. }
  destruct path as [|c p1]; [by exists l|].
  destruct (eqb c Separator); [apply IH|].
  destruct (eqb c "." && (is_empty p1 || has_prefix_byte Separator p1)); [apply IH|].
  destruct (eqb c "." && has_prefix_byte "." p1
            && (is_empty (drop 1 p1) || has_prefix_byte Separator (drop 1 p1))).
  { destruct (1 <? length (l ++ [Separator]))%nat eqn:Hlen.
    - assert (l ≠ []) as Hl.
      { intros ->. simpl in Hlen. done. }
      destruct (backtrack_rooted l Hl) as [l' ->]. apply IH.
    - cbn [negb]. apply IH. }
  cbv zeta.
  match goal with
  | |- context [copyElement _ ?o] =>
      assert (∃ l1, o = l1 ++ [Separator]) as [l1 Hl1];
        [destruct (_ || _); [by exists (Separator :: l) | by exists l]|];
        rewrite Hl1
  end.
  pose proof (copyElement_extends (String c p1) (l1 ++ [Separator])) as [l2 Hl2].
  destruct (copyElement (String c p1) (l1 ++ [Separator])) as [path' out2].
  simpl in Hl2. subst out2. rewrite app_assoc. apply IH.
Qed.

Lemma string_of_rev_rooted l :
  IsAbs (string_of_rev (l ++ [Separator])) = true.
Proof.
  unfold string_of_rev. rewrite rev_app_distr. done.
Qed.

(** [Clean] keeps a rooted path rooted. *)
Lemma Clean_rooted path : IsAbs path = true → IsAbs (Clean path) = true.
Proof.
  destruct path as [|c p1]; [done|]. unfold IsAbs at 1, has_prefix_byte.
  unfold eqb. rewrite Ascii.eqb_sym. intros Hc. unfold Clean.
  unfold eqb. rewrite Hc.
  destruct (Clean_loop_rooted (String.length p1) p1 []) as [l' Hl'].
  simpl in Hl'. rewrite Hl'.
  destruct (l' ++ [Separator]) eqn:Hout.
  - by destruct l'.
  - rewrite <- Hout. apply string_of_rev_rooted.
Qed.

Lemma Abs_rooted env pattern k :
  (∀ wd, os.Getwd env = Some wd → IsAbs wd = true) →
  Abs env pattern = Some k → IsAbs k = true.
Proof.
  intros Hwd. unfold Abs. destruct (IsAbs pattern) eqn:Hp.
  - intros [= <-]. by apply Clean_rooted.
  - destruct (os.Getwd env) as [wd|] eqn:Hg; [|done]. intros [= <-].
    specialize (Hwd wd eq_refl). unfold Join.
    destruct wd as [|c wd]; [done|]. cbn [is_empty negb].
    apply Clean_rooted. exact Hwd.
Qed.

End CleanFacts.

(** ** Well-formed patterns

    The patterns the matcher compiles are the well-formed ones; [Glob]
    accepts a pattern only when each of its elements is well-formed, and
    [Clean] makes a well-formed path from such elements. *)

Section WellFormed.

Import Bytes filepath.

Implicit Types (chunk x y s : string).



Lemma classLoop_success fuel chunk r r' matched matched' nrange m rest :
  classLoop fuel chunk r matched nrange = inr (m, rest) →
  ∃ m', classLoop fuel chunk r' matched' nrange = inr (m', rest).
Proof.
  intros H. pose proof (classLoop_failure fuel chunk r r' matched matched' nrange) as Hf.
  rewrite H in Hf. destruct (classLoop fuel chunk r' matched' nrange) as [e|[m' rest']];
    [done|]. subst. by exists m'.
Qed.

Lemma matchChunk_loop_wellFormed fuel chunk s failed :
  (String.length chunk < fuel)%nat →
  failure (matchChunk_loop fuel chunk s failed) = false ↔ wellFormed chunk.
Proof.
  revert chunk s failed.
  induction fuel as [|fuel IH]; intros chunk s failed Hf; [lia|].
  cbn [matchChunk_loop].
  destruct chunk as [|c chunk1].
  { split; [constructor | by destruct failed]. }
  cbn [String.length] in Hf.
  destruct (eqb c "[") eqn:Hc.
  { apply Ascii.eqb_eq in Hc. subst c.
    destruct (if failed || is_empty s then (0%N, s)
              else let '(r, n) := utf8.DecodeRuneInString s in (r, drop n s))
      as [r s'].
    assert (Hlen : (String.length (afterCaret chunk1) <= String.length chunk1)%nat).
    { unfold afterCaret. destruct (has_prefix_byte "^" chunk1); [|done].
      rewrite string_drop_length. lia. }
    assert (Hgoal : ∀ negated,
      failure match classLoop (S (String.length (afterCaret chunk1)))
                      (afterCaret chunk1) r false 0 with
              | inl e => inl e
              | inr (matched, chunk3) =>
                  matchChunk_loop fuel chunk3 s'
                    (failed || is_empty s || Bool.eqb matched negated)
              end = false ↔ wellFormed (String "[" chunk1)).
    { intros negated.
      destruct (classLoop _ (afterCaret chunk1) r false 0) as [e|[m chunk3]] eqn:Hcl.
      - split; [done|]. inversion 1 as [|? m' chunk3' Hcl' Hwf| |]; subst.
        + destruct (classLoop_success _ _ _ r _ false _ _ _ Hcl') as [m'' Hcl''].
          congruence.
        + done.
      - pose proof (classLoop_shorter _ _ _ _ _ _ _ Hcl) as Hshort.
        rewrite IH by lia. split.
        + intros Hwf. destruct (classLoop_success _ _ _ 0%N _ false _ _ _ Hcl)
            as [m' Hcl']. by apply (wf_class chunk1 m' chunk3).
        + inversion 1 as [|? m' chunk3' Hcl' Hwf| |]; subst; [|done].
          destruct (classLoop_success _ _ _ r _ false _ _ _ Hcl') as [m'' Hcl''].
          congruence. }
    unfold afterCaret in Hgoal.
    destruct (has_prefix_byte "^" chunk1); apply Hgoal. }
  destruct (eqb c "?") eqn:Hq.
  { destruct (if failed || is_empty s then (failed || is_empty s, s)
              else (has_prefix_byte Separator s,
                    drop (snd (utf8.DecodeRuneInString s)) s)) as [f t].
    rewrite IH by lia. apply Ascii.eqb_eq in Hq. subst c. split.
    - by apply wf_plain.
    - by inversion 1. }
  destruct (eqb c "\") eqn:Hb.
  { apply Ascii.eqb_eq in Hb. subst c. destruct chunk1 as [|d chunk2].
    - split; [done | by inversion 1].
    - cbn [String.length] in Hf.
      destruct (if failed || is_empty s then (failed || is_empty s, s)
                else (negb (has_prefix_byte d s), drop 1 s)) as [f t].
      rewrite IH by lia. split; [by constructor | by inversion 1]. }
  destruct (if failed || is_empty s then (failed || is_empty s, s)
            else (negb (has_prefix_byte c s), drop 1 s)) as [f t].
  rewrite IH by lia. split.
  - by apply wf_plain.
  - inversion 1; subst; try done. all: by rewrite Ascii.eqb_refl in *.
Qed.

Lemma matchChunk_wellFormed chunk s :
  failure (matchChunk chunk s) = false ↔ wellFormed chunk.
Proof. apply matchChunk_loop_wellFormed. lia. Qed.


(** *** The bytes of one rune *)

(** A rune that decodes without error is a first byte and continuation
    bytes, and decodes the same whatever follows. *)
Lemma decode_shape s r n :
  utf8.DecodeRuneInString s = (r, n) →
  is_empty s = false →
  (r =? utf8.RuneError)%N && (n =? 1)%nat = false →
  ∃ c0 conts,
    s = String c0 conts +:+ drop n s ∧
    String.length (String c0 conts) = n ∧
    continuations conts = true ∧
    ∀ w, utf8.DecodeRuneInString (String c0 conts +:+ w) = (r, n).
Proof.
  intros Hdec Hne Hok.
  assert (Hcont : ∀ c lo hi, (0x80 <= lo)%N →
            (byte c <? lo)%N || (hi <? byte c)%N = false → continuation c = true).
  { intros c lo hi Hlo H. apply orb_false_iff in H as [H _].
    apply N.ltb_ge in H. unfold continuation. apply N.leb_le. lia. }
  destruct s as [|c0 s1]; [done|].
  unfold utf8.DecodeRuneInString in Hdec.
  destruct (byte c0 <? utf8.RuneSelf)%N eqn:Hascii.
  { injection Hdec as <- <-. exists c0, EmptyString.
    split; [done|]. split; [done|]. split; [done|].
    intros w. unfold utf8.DecodeRuneInString.
    change (String c0 EmptyString +:+ w) with (String c0 w).
    cbv beta iota zeta. by rewrite Hascii. }
  destruct (utf8.first (byte c0)) as [[[sz lo] hi]|] eqn:Hfirst; cycle 1.
  { injection Hdec as <- <-. done. }
  assert (Hsz : (sz = 2 ∨ sz = 3 ∨ sz = 4)%nat ∧ (0x80 <= lo)%N).
  { unfold utf8.first in Hfirst.
    repeat (case_match; simplify_eq/=; try (split; [auto | lia])). }
  destruct Hsz as [Hsz Hlo].
  destruct (String.length (String c0 s1) <? sz)%nat eqn:Hlen.
  { injection Hdec as <- <-. done. }
  destruct s1 as [|c1 s2]; [injection Hdec as <- <-; done|].
  destruct ((byte c1 <? lo)%N || (hi <? byte c1)%N) eqn:H1.
  { injection Hdec as <- <-. done. }
  pose proof (Hcont c1 lo hi Hlo H1) as Hc1.
  destruct (sz <=? 2)%nat eqn:Hsz2.
  { injection Hdec as <- <-. exists c0, (String c1 EmptyString).
    split; [done|]. split; [done|]. split; [by cbn [continuations]; rewrite Hc1|].
    intros w. unfold utf8.DecodeRuneInString.
    change (String c0 (String c1 EmptyString) +:+ w) with (String c0 (String c1 w)).
    cbv beta iota zeta. rewrite Hascii, Hfirst.
    replace (String.length (String c0 (String c1 w)) <? sz)%nat with false
      by (symmetry; apply Nat.ltb_ge; apply Nat.leb_le in Hsz2; simpl; lia).
    by rewrite H1, Hsz2. }
  (**)
  destruct s2 as [|c2 s3]; [injection Hdec as <- <-; done|].
  destruct ((byte c2 <? utf8.locb)%N || (utf8.hicb <? byte c2)%N) eqn:H2.
  { injection Hdec as <- <-. done. }
  pose proof (Hcont c2 utf8.locb utf8.hicb ltac:(done) H2) as Hc2.
  destruct (sz <=? 3)%nat eqn:Hsz3.
  { injection Hdec as <- <-. exists c0, (String c1 (String c2 EmptyString)).
    split; [done|]. split; [done|].
    split; [by cbn [continuations]; rewrite Hc1, Hc2|].
    intros w. unfold utf8.DecodeRuneInString.
    change (String c0 (String c1 (String c2 EmptyString)) +:+ w)
      with (String c0 (String c1 (String c2 w))).
    cbv beta iota zeta. rewrite Hascii, Hfirst.
    replace (String.length (String c0 (String c1 (String c2 w))) <? sz)%nat
      with false
      by (symmetry; apply Nat.ltb_ge; apply Nat.leb_le in Hsz3; simpl; lia).
    by rewrite H1, Hsz2, H2, Hsz3. }
  (**)
  destruct s3 as [|c3 s4]; [injection Hdec as <- <-; done|].
  destruct ((byte c3 <? utf8.locb)%N || (utf8.hicb <? byte c3)%N) eqn:H3.
  { injection Hdec as <- <-. done. }
  pose proof (Hcont c3 utf8.locb utf8.hicb ltac:(done) H3) as Hc3.
  injection Hdec as <- <-.
  exists c0, (String c1 (String c2 (String c3 EmptyString))).
  split; [done|]. split; [done|].
  split; [by cbn [continuations]; rewrite Hc1, Hc2, Hc3|].
  intros w. unfold utf8.DecodeRuneInString.
  change (String c0 (String c1 (String c2 (String c3 EmptyString))) +:+ w)
    with (String c0 (String c1 (String c2 (String c3 w)))).
  cbv beta iota zeta. rewrite Hascii, Hfirst.
  replace (String.length (String c0 (String c1 (String c2 (String c3 w)))) <? sz)%nat
    with false by (symmetry; apply Nat.ltb_ge; simpl; lia).
  by rewrite H1, Hsz2, H2, Hsz3, H3.
Qed.


Lemma first_byte_app c e x y :
  is_empty e = false →
  has_prefix_byte c (e +:+ x) = has_prefix_byte c (e +:+ y).
Proof. by destruct e. Qed.

Lemma first_byte_app_l c e x :
  is_empty e = false → has_prefix_byte c (e +:+ x) = has_prefix_byte c e.
Proof. by destruct e. Qed.

Lemma drop_one_app e x :
  is_empty e = false → drop 1 (e +:+ x) = drop 1 e +:+ x.
Proof. by destruct e. Qed.

Lemma continuation_not (c d : ascii) :
  continuation c = true → (byte d < 0x80)%N → eqb c d = false.
Proof.
  unfold continuation. intros Hc Hd. apply N.leb_le in Hc.
  destruct (eqb c d) eqn:Heq; [|done]. apply Ascii.eqb_eq in Heq. subst. lia.
Qed.

Lemma scan_continuations inrange conts w :
  continuations conts = true →
  scan inrange (conts +:+ w)
  = (conts +:+ fst (scan inrange w), snd (scan inrange w)).
Proof.
  induction conts as [|c conts IH]; intros Hc.
  { change (EmptyString +:+ w) with w. by destruct (scan inrange w). }
  cbn [continuations] in Hc. apply andb_true_iff in Hc as [Hc Hconts].
  change (String c conts +:+ w) with (String c (conts +:+ w)). cbn [scan].
  rewrite !(continuation_not c) by (done || (vm_compute; done)).
  cbn [andb]. rewrite IH by done. done.
Qed.

(** The bytes [getEsc] consumes: they read the same whatever follows, and
    the scan of [scanChunk] passes over them inside a class. *)
Lemma getEsc_body z r z' :
  getEsc z = inr (r, z') →
  ∃ e, z = e +:+ z' ∧ is_empty e = false ∧
       has_prefix_byte "]" e = false ∧ has_prefix_byte "-" e = false ∧
       (∀ w, is_empty w = false → getEsc (e +:+ w) = inr (r, w)) ∧
       (∀ w, scan true (e +:+ w) = (e +:+ fst (scan true w), snd (scan true w))).
Proof.
  unfold getEsc. destruct z as [|c z1]; [done|].
  destruct (eqb c "-" || eqb c "]") eqn:Hc; [done|].
  apply orb_false_iff in Hc as [Hdash Hclose].
  destruct (eqb c "\") eqn:Hb.
  - apply Ascii.eqb_eq in Hb. subst c.
    destruct (is_empty z1) eqn:Hne; [done|].
    destruct (utf8.DecodeRuneInString z1) as [r' n] eqn:Hdec.
    destruct ((r' =? utf8.RuneError)%N && (n =? 1)%nat) eqn:Hok; [done|].
    destruct (is_empty (drop n z1)) eqn:Hrest; [done|]. intros [= <- <-].
    destruct (decode_shape z1 r' n Hdec Hne Hok) as (c0 & conts & Hz & Hlen & Hconts & Hw).
    exists (String "\" (String c0 conts)).
    split; [by rewrite Hz at 1|]. split; [done|]. split; [done|]. split; [done|].
    split.
    + intros w Hwne.
      change (String "\" (String c0 conts) +:+ w)
        with (String "\" (String c0 conts +:+ w)).
      cbv beta iota. change (eqb "\" "-" || eqb "\" "]") with false.
      change (eqb "\" "\") with true. cbv iota.
      change (is_empty (String c0 conts +:+ w)) with false. cbv iota.
      rewrite Hw, Hok. rewrite <- Hlen, string_drop_app. by rewrite Hwne.
    + intros w.
      change (String "\" (String c0 conts) +:+ w)
        with (String "\" (String c0 (conts +:+ w))).
      cbn [scan]. change (eqb "\" "\") with true. cbv iota.
      by rewrite scan_continuations.
  - destruct (utf8.DecodeRuneInString (String c z1)) as [r' n] eqn:Hdec.
    change (is_empty (String c z1)) with false. cbv iota.
    destruct ((r' =? utf8.RuneError)%N && (n =? 1)%nat) eqn:Hok; [done|].
    destruct (is_empty (drop n (String c z1))) eqn:Hrest; [done|].
    intros [= <- <-].
    destruct (decode_shape (String c z1) r' n Hdec eq_refl Hok)
      as (c0 & conts & Hz & Hlen & Hconts & Hw).
    assert (c0 = c) as -> by (by injection Hz).
    exists (String c conts).
    split; [done|]. split; [done|].
    split; [cbn [has_prefix_byte]; by rewrite Ascii.eqb_sym|].
    split; [cbn [has_prefix_byte]; by rewrite Ascii.eqb_sym|].
    split.
    + intros w Hwne.
      change (String c conts +:+ w) with (String c (conts +:+ w)).
      cbv beta iota. unfold eqb in *. rewrite Hdash, Hclose, Hb. cbn [orb].
      cbv iota. change (is_empty (String c (conts +:+ w))) with false. cbv iota.
      change (String c (conts +:+ w)) with (String c conts +:+ w).
      rewrite Hw, Hok. rewrite <- Hlen, string_drop_app. by rewrite Hwne.
    + intros w.
      change (String c conts +:+ w) with (String c (conts +:+ w)).
      cbn [scan]. unfold eqb in *. rewrite Hb, Hclose. cbn [negb andb].
      rewrite andb_false_r. rewrite scan_continuations by done.
      by destruct (Ascii.eqb c "[").
Qed.

Lemma string_app_cons (c : ascii) (a b : string) :
  String c a +:+ b = String c (a +:+ b).
Proof. reflexivity. Qed.

Ltac norm_app := repeat (rewrite string_app_assoc || rewrite string_app_cons).

Lemma is_empty_app_l e x : is_empty e = false → is_empty (e +:+ x) = false.
Proof. by destruct e. Qed.

(** The bytes of a class up to its closing bracket: the class reads the
    same whatever follows, and the scan of [scanChunk] leaves the class
    where the class loop does. *)
Lemma classLoop_body fuel z r matched nrange matched' z3 :
  classLoop fuel z r matched nrange = inr (matched', z3) →
  ∃ body, z = body +:+ z3 ∧ is_empty body = false ∧
    (∀ w fuel', (String.length (body +:+ w) < fuel')%nat →
       ∃ matched'', classLoop fuel' (body +:+ w) r matched nrange
                    = inr (matched'', w)) ∧
    (∀ w, scan true (body +:+ w)
          = (body +:+ fst (scan false w), snd (scan false w))).
Proof.
  revert z matched nrange.
  induction fuel as [|fuel IH]; intros z matched nrange; cbn [classLoop]; [done|].
  destruct (has_prefix_byte "]" z && (0 <? nrange)%nat) eqn:Hclose.
  { apply andb_true_iff in Hclose as [Hz Hn].
    destruct z as [|c z1]; [done|]. cbn [has_prefix_byte] in Hz.
    apply Ascii.eqb_eq in Hz. subst c. intros [= <- <-].
    exists "]". split; [done|]. split; [done|]. split.
    - intros w fuel' Hf. destruct fuel' as [|fuel']; [lia|].
      change ("]" +:+ w) with (String "]" w). cbn [classLoop has_prefix_byte].
      change (eqb "]" "]") with true. rewrite Hn. cbn [andb]. by eexists.
    - intros w. change ("]" +:+ w) with (String "]" w). cbn [scan].
      change (eqb "]" "\") with false. change (eqb "]" "[") with false.
      change (eqb "]" "]") with true. cbv iota. by destruct (scan false w). }
  destruct (getEsc z) as [e|[lo z1]] eqn:H1; [done|].
  destruct (getEsc_body z lo z1 H1) as (e1 & Hz & He1 & Hnc1 & Hnd1 & Hesc1 & Hscan1).
  destruct (has_prefix_byte "-" z1) eqn:Hdash.
  - destruct z1 as [|dash z1']; [done|]. cbn [has_prefix_byte] in Hdash.
    apply Ascii.eqb_eq in Hdash. subst dash. cbn [drop].
    destruct (getEsc z1') as [e|[hi z2]] eqn:H2; [done|].
    destruct (getEsc_body z1' hi z2 H2) as (e2 & Hz' & He2 & _ & _ & Hesc2 & Hscan2).
    intros Hrec. destruct (IH z2 _ _ Hrec) as (body & Hz2 & Hbody & Hloop & Hscan).
    exists (e1 +:+ String "-" (e2 +:+ body)).
    split.
    { rewrite Hz, Hz', Hz2. by norm_app. }
    split; [by apply is_empty_app_l|].
    split.
    + intros w fuel' Hf. destruct fuel' as [|fuel']; [lia|]. cbn [classLoop].
      rewrite string_app_assoc.
      rewrite (first_byte_app_l "]" e1) by done. rewrite Hnc1. cbn [andb].
      rewrite Hesc1 by done.
      change (String "-" (e2 +:+ body) +:+ w)
        with (String "-" ((e2 +:+ body) +:+ w)).
      cbn [has_prefix_byte]. change (eqb "-" "-") with true. cbv iota.
      cbn [drop]. rewrite string_app_assoc.
      rewrite Hesc2 by (by apply is_empty_app_l).
      apply Hloop.
      rewrite !string_app_assoc in Hf. rewrite !string_length_app in Hf.
      cbn [String.length] in Hf. rewrite !string_length_app in Hf.
      rewrite string_length_app. lia.
    + intros w. rewrite string_app_assoc. rewrite Hscan1.
      change (String "-" (e2 +:+ body) +:+ w)
        with (String "-" ((e2 +:+ body) +:+ w)).
      cbn [scan]. change (eqb "-" "\") with false. change (eqb "-" "[") with false.
      change (eqb "-" "]") with false. change (eqb "-" "*") with false.
      cbn [andb]. cbv iota.
      rewrite string_app_assoc, Hscan2, Hscan. cbn [fst snd].
      by norm_app.
  - intros Hrec. destruct (IH z1 _ _ Hrec) as (body & Hz1 & Hbody & Hloop & Hscan).
    exists (e1 +:+ body).
    split.
    { rewrite Hz, Hz1. by rewrite string_app_assoc. }
    split; [by apply is_empty_app_l|].
    split.
    + intros w fuel' Hf. destruct fuel' as [|fuel']; [lia|]. cbn [classLoop].
      rewrite string_app_assoc.
      rewrite (first_byte_app_l "]" e1) by done. rewrite Hnc1. cbn [andb].
      rewrite Hesc1 by (by apply is_empty_app_l).
      rewrite (first_byte_app "-" body w z3) by done. rewrite <- Hz1, Hdash.
      apply Hloop.
      rewrite !string_app_assoc in Hf. rewrite !string_length_app in Hf.
      rewrite string_length_app.
      assert (1 <= String.length e1)%nat by (destruct e1; [done | simpl; lia]).
      lia.
    + intros w. rewrite string_app_assoc. rewrite Hscan1, Hscan. cbn [fst snd].
      by rewrite string_app_assoc.
Qed.

Lemma afterCaret_app x b :
  is_empty x = false → afterCaret (x +:+ b) = afterCaret x +:+ b.
Proof.
  intros Hx. unfold afterCaret. rewrite (first_byte_app_l "^" x) by done.
  destruct (has_prefix_byte "^" x); [by apply drop_one_app | done].
Qed.

Lemma classLoop_nonempty fuel z r matched nrange res :
  classLoop fuel z r matched nrange = inr res → is_empty z = false.
Proof.
  destruct fuel; [done|]. cbn [classLoop]. by destruct z.
Qed.

Lemma afterCaret_nonempty x : is_empty (afterCaret x) = false → is_empty x = false.
Proof. by destruct x. Qed.

(** A class that closes in a pattern closes in the same place whatever
    follows the pattern. *)
Lemma wf_class_app chunk1 matched chunk3 b :
  classLoop (S (String.length (afterCaret chunk1))) (afterCaret chunk1) 0 false 0
  = inr (matched, chunk3) →
  ∃ matched',
    classLoop (S (String.length (afterCaret (chunk1 +:+ b))))
      (afterCaret (chunk1 +:+ b)) 0 false 0
    = inr (matched', chunk3 +:+ b).
Proof.
  intros Hcl.
  pose proof (classLoop_nonempty _ _ _ _ _ _ Hcl) as Hne.
  apply afterCaret_nonempty in Hne.
  destruct (classLoop_body _ _ _ _ _ _ _ Hcl) as (body & Hz & Hbody & Hloop & _).
  rewrite afterCaret_app by done. rewrite Hz, string_app_assoc.
  apply Hloop. lia.
Qed.

Lemma wellFormed_app a b :
  wellFormed a → wellFormed b → wellFormed (a +:+ b).
Proof.
  intros Ha Hb. induction Ha as [|chunk1 matched chunk3 Hcl _ IH|d chunk2 _ IH
                                 |c chunk1 Hc1 Hc2 _ IH].
  - done.
  - rewrite string_app_cons.
    destruct (wf_class_app chunk1 matched chunk3 b Hcl) as [matched' Hcl'].
    by apply (wf_class _ matched' (chunk3 +:+ b)).
  - rewrite !string_app_cons. by constructor.
  - rewrite string_app_cons. by apply wf_plain.
Qed.

Lemma wellFormed_app_inv a b :
  wellFormed a → wellFormed (a +:+ b) → wellFormed b.
Proof.
  intros Ha. induction Ha as [|chunk1 matched chunk3 Hcl _ IH|d chunk2 _ IH
                              |c chunk1 Hc1 Hc2 _ IH].
  - done.
  - rewrite string_app_cons.
    destruct (wf_class_app chunk1 matched chunk3 b Hcl) as [matched' Hcl'].
    inversion 1 as [|? m x Hx Hwf| |]; subst; [|done].
    rewrite Hcl' in Hx. injection Hx as _ <-. by apply IH.
  - rewrite !string_app_cons. inversion 1; subst; [by apply IH | done].
  - rewrite string_app_cons.
    inversion 1; subst;
      try (by rewrite Ascii.eqb_refl in Hc1);
      try (by rewrite Ascii.eqb_refl in Hc2).
    by apply IH.
Qed.

Lemma scan_app inrange z chunk rest :
  scan inrange z = (chunk, rest) → z = chunk +:+ rest.
Proof.
  revert inrange chunk rest.
  assert (Hn : ∀ n z inrange chunk rest, (String.length z <= n)%nat →
             scan inrange z = (chunk, rest) → z = chunk +:+ rest).
  { clear z. induction n as [|n IH]; intros z inrange chunk rest Hlen.
    { destruct z; [|simpl in Hlen; lia]. by intros [= <- <-]. }
    destruct z as [|c p]; [by intros [= <- <-]|]. cbn [scan].
    cbn [String.length] in Hlen.
    destruct (eqb c "\").
    { destruct p as [|d p]; [by intros [= <- <-]|]. cbn [String.length] in Hlen.
      destruct (scan inrange p) as [chunk' rest'] eqn:Hs. intros [= <- <-].
      apply IH in Hs; [|lia]. by rewrite Hs at 1. }
    destruct (eqb c "[").
    { destruct (scan true p) as [chunk' rest'] eqn:Hs. intros [= <- <-].
      apply IH in Hs; [|lia]. by rewrite Hs at 1. }
    destruct (eqb c "]").
    { destruct (scan false p) as [chunk' rest'] eqn:Hs. intros [= <- <-].
      apply IH in Hs; [|lia]. by rewrite Hs at 1. }
    destruct (eqb c "*" && negb inrange).
    { by intros [= <- <-]. }
    destruct (scan inrange p) as [chunk' rest'] eqn:Hs. intros [= <- <-].
    apply IH in Hs; [|lia]. by rewrite Hs at 1. }
  intros inrange chunk rest. by apply (Hn (String.length z)).
Qed.

(** The chunk [scanChunk] cuts off a well-formed pattern ends between two
    items: the chunk and the rest are well-formed. *)
Lemma scan_wellFormed z chunk rest :
  wellFormed z → scan false z = (chunk, rest) →
  wellFormed chunk ∧ wellFormed rest.
Proof.
  intros Hz. revert chunk rest.
  induction Hz as [|chunk1 matched chunk3 Hcl Hwf3 IH|d chunk2 Hwf2 IH
                   |c chunk1 Hc1 Hc2 Hwf1 IH]; intros chunk rest.
  - intros [= <- <-]. split; constructor.
  - cbn [scan]. change (eqb "[" "\") with false. change (eqb "[" "[") with true.
    cbv iota.
    pose proof (classLoop_nonempty _ _ _ _ _ _ Hcl) as Hne.
    destruct (classLoop_body _ _ _ _ _ _ _ Hcl) as (body & Hz & Hbody & Hloop & Hscan).
    destruct (scan false chunk3) as [c3 r3] eqn:Hs3.
    destruct (IH c3 r3 eq_refl) as [Hwc3 Hwr3].
    assert (Hscan1 : scan true chunk1
                     = ((if has_prefix_byte "^" chunk1 then "^" else EmptyString)
                        +:+ body +:+ c3, r3)).
    { unfold afterCaret in Hz. destruct chunk1 as [|x chunk1']; [done|].
      cbn [has_prefix_byte] in *. destruct (eqb "^" x) eqn:Hx.
      - apply Ascii.eqb_eq in Hx. subst x. cbn [drop] in Hz. subst chunk1'.
        cbn [scan]. change (eqb "^" "\") with false.
        change (eqb "^" "[") with false. change (eqb "^" "]") with false.
        change (eqb "^" "*") with false. cbn [andb]. cbv iota.
        by rewrite Hscan, Hs3.
      - rewrite Hz, Hscan, Hs3. done. }
    rewrite Hscan1. intros [= <- <-]. split; [|done].
    set (caret := if has_prefix_byte "^" chunk1 then "^" else EmptyString).
    assert (Hac : afterCaret (caret +:+ body +:+ c3) = body +:+ c3).
    { unfold caret, afterCaret. unfold afterCaret in Hz.
      destruct (has_prefix_byte "^" chunk1) eqn:Hcaret; [done|].
      change (EmptyString +:+ body +:+ c3) with (body +:+ c3).
      rewrite (first_byte_app "^" body c3 chunk3) by done.
      by rewrite <- Hz, Hcaret. }
    destruct (Hloop c3 (S (String.length (body +:+ c3))) ltac:(lia)) as [m Hm].
    apply (wf_class _ m c3); [by rewrite Hac | done].
  - cbn [scan]. change (eqb "\" "\") with true. cbv iota.
    destruct (scan false chunk2) as [c2 r2] eqn:Hs. intros [= <- <-].
    destruct (IH c2 r2 eq_refl). split; [by constructor | done].
  - cbn [scan]. rewrite Hc2, Hc1.
    destruct (eqb c "]").
    { destruct (scan false chunk1) as [c1 r1] eqn:Hs. intros [= <- <-].
      destruct (IH c1 r1 eq_refl). split; [by apply wf_plain | done]. }
    destruct (eqb c "*"); cbn [andb negb].
    { intros [= <- <-]. split; [constructor | by apply wf_plain]. }
    destruct (scan false chunk1) as [c1 r1] eqn:Hs. intros [= <- <-].
    destruct (IH c1 r1 eq_refl). split; [by apply wf_plain | done].
Qed.

Lemma wellFormed_plain c z :
  eqb c "[" = false → eqb c "\" = false →
  wellFormed (String c z) ↔ wellFormed z.
Proof.
  intros Hc1 Hc2. split; [|by apply wf_plain].
  inversion 1; subst;
    try (by rewrite Ascii.eqb_refl in Hc1);
    try (by rewrite Ascii.eqb_refl in Hc2).
  done.
Qed.

Lemma skipStars_wellFormed z : wellFormed (snd (skipStars z)) ↔ wellFormed z.
Proof.
  induction z as [|c z IH]; [done|]. cbn [skipStars].
  destruct (eqb c "*") eqn:Hc; [|done]. apply Ascii.eqb_eq in Hc. subst c.
  cbn [snd]. rewrite IH. symmetry. by apply wellFormed_plain.
Qed.

(** The patterns whose remainder check passes are the well-formed ones. *)
Lemma checkRemainder_wellFormed n z :
  (String.length z <= n)%nat → checkRemainder n z = None ↔ wellFormed z.
Proof.
  revert z. induction n as [|n IH]; intros z Hn.
  { destruct z; [|simpl in Hn; lia]. split; [constructor | done]. }
  cbn [checkRemainder]. destruct (is_empty z) eqn:Hne.
  { destruct z; [|done]. split; [constructor | done]. }
  destruct (scanChunk z) as [[star chunk] rest] eqn:Hsc.
  pose proof (scanChunk_shorter z star chunk rest Hne Hsc) as Hshort.
  unfold scanChunk in Hsc. pose proof (skipStars_wellFormed z) as Hstars.
  destruct (skipStars z) as [star' p]. cbn [snd] in Hstars.
  destruct (scan false p) as [chunk' rest'] eqn:Hscan.
  injection Hsc as -> -> ->.
  pose proof (matchChunk_wellFormed chunk EmptyString) as Hchunk.
  rewrite <- Hstars. split.
  - destruct (matchChunk chunk EmptyString) as [e|found]; [done|].
    intros Hrest%IH; [|lia].
    rewrite (scan_app _ _ _ _ Hscan). apply wellFormed_app; [|done].
    by apply Hchunk.
  - intros Hp. destruct (scan_wellFormed p chunk rest Hp Hscan) as [Hc Hr].
    apply Hchunk in Hc.
    destruct (matchChunk chunk EmptyString) as [e|found]; [done|].
    apply IH; [lia | done].
Qed.

(** A pattern compiles under the matcher exactly when it is well-formed. *)
Lemma compiles_wellFormed z : compiles z = true ↔ wellFormed z.
Proof.
  unfold compiles, rejects, Match.
  rewrite Match_loop_failure by lia.
  rewrite <- (checkRemainder_wellFormed (String.length z) z) by lia.
  rewrite negb_true_iff, bool_decide_eq_false. split.
  - intros H. by destruct (checkRemainder (String.length z) z); [destruct H|].
  - intros -> H. done.
Qed.

End WellFormed.

Section Elements.

Import Bytes filepath.

Implicit Types (path seg rest e : string) (out l : list ascii).

Lemma elements_boundary rest :
  boundary rest → elements rest = EmptyString :: tail (elements rest).
Proof.
  intros [-> | Hr]; [done|]. destruct rest as [|c r]; [done|].
  cbn [has_prefix_byte] in Hr. cbn [elements]. rewrite eqb_sym, Hr. done.
Qed.

Lemma elements_first e rest :
  contains_byte Separator e = false → boundary rest →
  elements (e +:+ rest) = e :: tail (elements rest).
Proof.
  intros He Hrest. induction e as [|c e IH].
  - by apply elements_boundary.
  - cbn [contains_byte] in He. apply orb_false_iff in He as [Hc He].
    rewrite string_app_cons. cbn [elements]. rewrite eqb_sym, Hc.
    by rewrite IH.
Qed.

Lemma elements_plain e :
  contains_byte Separator e = false → elements e = [e].
Proof.
  intros He. rewrite <- (append_empty_r e) at 1.
  rewrite elements_first; [done | done | by left].
Qed.

Lemma elements_sep path :
  elements (String Separator path) = EmptyString :: elements path.
Proof. done. Qed.

Lemma elements_nonempty path : elements path ≠ [].
Proof.
  destruct path as [|c p]; [done|]. cbn [elements].
  destruct (eqb c Separator); [done|]. by destruct (elements p).
Qed.

Lemma elements_app_sep a b :
  elements (a +:+ String Separator b) = elements a ++ elements b.
Proof.
  induction a as [|c a IH]; [done|].
  rewrite string_app_cons. cbn [elements]. destruct (eqb c Separator).
  - by rewrite IH.
  - rewrite IH. pose proof (elements_nonempty a). by destruct (elements a).
Qed.


(** What [copyElement] copies is the first element of the path. *)
Lemma copyElement_first path out :
  ∃ e rest,
    path = e +:+ rest ∧ contains_byte Separator e = false ∧ boundary rest ∧
    copyElement path out = (rest, rev (list_ascii_of_string e) ++ out).
Proof.
  revert out. induction path as [|c p IH]; intros out.
  { exists EmptyString, EmptyString. split; [done|]. split; [done|].
    split; [by left | done]. }
  cbn [copyElement]. destruct (eqb c Separator) eqn:Hc.
  - exists EmptyString, (String c p). split; [done|]. split; [done|].
    split; [|done]. right. cbn [has_prefix_byte]. by rewrite eqb_sym.
  - destruct (IH (c :: out)) as (e & rest & -> & He & Hrest & ->).
    exists (String c e), rest. split; [done|]. split.
    { cbn [contains_byte]. by rewrite eqb_sym, Hc. }
    split; [done|]. cbn [list_ascii_of_string rev]. by rewrite <- app_assoc.
Qed.

Lemma elements_wellFormed_first e rest :
  contains_byte Separator e = false → boundary rest →
  Forall wellFormed (elements (e +:+ rest)) →
  wellFormed e ∧ Forall wellFormed (elements rest).
Proof.
  intros He Hrest. rewrite (elements_first e rest He Hrest).
  rewrite (elements_boundary rest Hrest). cbn [tail].
  intros [Hwe Hwr]%Forall_cons. split; [done|]. constructor; [constructor | done].
Qed.

Lemma wellFormed_sep z : wellFormed (String Separator z) ↔ wellFormed z.
Proof. by apply wellFormed_plain. Qed.

(** A path whose elements are well-formed is well-formed. *)
Lemma elements_wellFormed path :
  Forall wellFormed (elements path) → wellFormed path.
Proof.
  assert (Hn : ∀ n path, (String.length path <= n)%nat →
             Forall wellFormed (elements path) → wellFormed path).
  { clear path. induction n as [|n IH]; intros path Hlen.
    { destruct path; [constructor | simpl in Hlen; lia]. }
    destruct (copyElement_first path []) as (e & rest & -> & He & Hrest & _).
    intros [Hwe Hwr]%elements_wellFormed_first; [|done|done].
    apply wellFormed_app; [done|].
    destruct rest as [|c r]; [constructor|].
    destruct Hrest as [|Hr]; [done|]. cbn [has_prefix_byte] in Hr.
    apply Ascii.eqb_eq in Hr. subst c. apply wellFormed_sep.
    rewrite elements_sep in Hwr. apply Forall_cons in Hwr as [_ Hwr].
    apply IH; [|done]. rewrite string_length_app in Hlen. simpl in Hlen. lia. }
  by apply (Hn (String.length path)).
Qed.

(** A string without metacharacters is well-formed, and so is each of its
    elements. *)
Lemma hasMeta_wellFormed z : hasMeta z = false → wellFormed z.
Proof.
  unfold hasMeta. induction z as [|c z IH]; [constructor|].
  cbn [contains_any]. intros [Hc Hz]%orb_false_iff.
  cbn [contains_byte] in Hc.
  apply orb_false_iff in Hc as [_ Hc]. apply orb_false_iff in Hc as [_ Hc].
  apply orb_false_iff in Hc as [H1 Hc]. apply orb_false_iff in Hc as [H2 _].
  apply wf_plain; [done | done | by apply IH].
Qed.

Lemma hasMeta_elements z :
  hasMeta z = false → Forall (fun e => hasMeta e = false) (elements z).
Proof.
  unfold hasMeta. induction z as [|c z IH]; [by constructor|].
  cbn [contains_any]. intros [Hc Hz]%orb_false_iff. specialize (IH Hz).
  cbn [elements]. destruct (eqb c Separator); [by constructor|].
  destruct (elements z) as [|seg segs].
  { constructor; [|done]. cbn [contains_any]. by rewrite Hc. }
  apply Forall_cons in IH as [Hseg Hsegs]. constructor; [|done].
  cbn [contains_any]. by rewrite Hc, Hseg.
Qed.

Lemma hasMeta_elements_wellFormed z :
  hasMeta z = false → Forall wellFormed (elements z).
Proof.
  intros H%hasMeta_elements. eapply Forall_impl; [exact H|].
  intros e. apply hasMeta_wellFormed.
Qed.

End Elements.

Section CleanSound.

Import Bytes filepath.

Implicit Types (path e rest : string) (out l : list ascii).

Lemma string_of_list_ascii_app l1 l2 :
  string_of_list_ascii (l1 ++ l2)
  = string_of_list_ascii l1 +:+ string_of_list_ascii l2.
Proof.
  induction l1 as [|c l1 IH]; [done|]. cbn [app string_of_list_ascii].
  by rewrite IH.
Qed.

Lemma string_of_rev_app l out :
  string_of_rev (l ++ out) = string_of_rev out +:+ string_of_rev l.
Proof.
  unfold string_of_rev. by rewrite rev_app_distr, string_of_list_ascii_app.
Qed.

Lemma string_of_rev_element e :
  string_of_rev (rev (list_ascii_of_string e)) = e.
Proof. apply string_of_rev_buffer. Qed.

Lemma sound_wellFormed dotdot out :
  sound dotdot out → wellFormed (string_of_rev out).
Proof. intros [_ H]. apply (H [] out); [done | by left]. Qed.

Lemma sound_start : sound 0 [].
Proof.
  split; [done|]. intros l1 l2 H _. symmetry in H.
  apply app_eq_nil in H as [_ ->]. constructor.
Qed.

Lemma sound_root : sound 1 [Separator].
Proof.
  split; [done|]. intros [|c l1] l2 H _.
  - simpl in H. subst l2. apply wellFormed_sep. constructor.
  - injection H as _ H. symmetry in H. apply app_eq_nil in H as [_ ->].
    constructor.
Qed.

Lemma backtrack_split dotdot out :
  (dotdot < length out)%nat →
  ∃ l1 l2, out = l1 ++ l2 ∧ backtrack dotdot out = l2 ∧
    (dotdot <= length l2)%nat ∧
    (length l2 = dotdot ∨ ∃ l, l1 = l ++ [Separator]).
Proof.
  induction out as [|c out IH]; [simpl; lia|]. intros Hlen.
  cbn [backtrack].
  destruct ((dotdot <? length out)%nat && negb (eqb c Separator)) eqn:Hgo.
  - apply andb_true_iff in Hgo as [Hlt%Nat.ltb_lt _].
    destruct (IH Hlt) as (l1 & l2 & -> & Hb & Hle & Hcut).
    exists (c :: l1), l2. split; [done|]. split; [done|]. split; [done|].
    destruct Hcut as [Hd | [l ->]]; [by left | right]. by exists (c :: l).
  - exists [c], out. split; [done|]. split; [done|].
    cbn [length] in Hlen. split; [lia|].
    apply andb_false_iff in Hgo as [Hge%Nat.ltb_ge | Hsep].
    + left. lia.
    + right. exists []. apply negb_false_iff, Ascii.eqb_eq in Hsep. by subst c.
Qed.

Lemma sound_backtrack dotdot out :
  sound dotdot out → (dotdot < length out)%nat →
  sound dotdot (backtrack dotdot out).
Proof.
  intros [_ Hout] Hlen.
  destruct (backtrack_split dotdot out Hlen) as (l1 & l2 & -> & -> & Hle & Hcut).
  split; [done|]. intros a b -> Hab.
  destruct Hab as [-> | [Hb | [l ->]]].
  - apply (Hout l1 b); [done|]. right. exact Hcut.
  - apply (Hout (l1 ++ a) b); [by rewrite app_assoc|]. right. by left.
  - apply (Hout (l1 ++ l ++ [Separator]) b); [by rewrite <- !app_assoc|].
    right. right. exists (l1 ++ l). by rewrite app_assoc.
Qed.

Lemma sound_separator dotdot out :
  sound dotdot out → sound dotdot (Separator :: out).
Proof.
  intros Hs. pose proof (sound_wellFormed _ _ Hs) as Hw. destruct Hs as [Hle Hout].
  split; [simpl; lia|]. intros [|c l1] l2 Heq Hcut.
  - cbn [app] in Heq. subst l2.
    change (Separator :: out) with ([Separator] ++ out).
    rewrite string_of_rev_app. apply wellFormed_app; [done|].
    apply wellFormed_sep. constructor.
  - injection Heq as <- ->. destruct Hcut as [? | [Hl | [l Hl]]]; [done | |].
    + apply (Hout l1 l2); [done|]. right. by left.
    + destruct l1 as [|c l1'].
      * apply (Hout [] l2); [done | by left].
      * apply (Hout (c :: l1') l2); [done|]. right. right.
        destruct l as [|x l]; [done|]. injection Hl as _ Hl. by exists l.
Qed.

Lemma elem_of_list_ascii (c : ascii) e :
  c ∈ list_ascii_of_string e → contains_byte c e = true.
Proof.
  induction e as [|d e IH]; [by intros ?%elem_of_nil|].
  cbn [list_ascii_of_string contains_byte].
  intros [-> | Hin]%elem_of_cons.
  - unfold eqb. by rewrite Ascii.eqb_refl.
  - rewrite IH by done. apply orb_true_r.
Qed.

(** Writing an element keeps the output sound, whether [dotdot] stays or
    moves to the end of the output. *)
Lemma sound_element dotdot dotdot' out e :
  sound dotdot out → wellFormed e → contains_byte Separator e = false →
  dotdot' = dotdot ∨ dotdot' = length (rev (list_ascii_of_string e) ++ out) →
  sound dotdot' (rev (list_ascii_of_string e) ++ out).
Proof.
  intros Hs Hwe He Hd. pose proof (sound_wellFormed _ _ Hs) as Hw.
  destruct Hs as [Hle Hout].
  assert (Hwhole : wellFormed (string_of_rev (rev (list_ascii_of_string e) ++ out))).
  { rewrite string_of_rev_app, string_of_rev_element. by apply wellFormed_app. }
  assert (Hnosep : ∀ l l', rev (list_ascii_of_string e) = l ++ Separator :: l' → False).
  { intros l l' Heq. assert (Separator ∈ rev (list_ascii_of_string e)) as Hin.
    { rewrite Heq. apply elem_of_app. right. left. }
    apply list_elem_of_In in Hin. apply in_rev in Hin.
    apply list_elem_of_In, elem_of_list_ascii in Hin. by rewrite Hin in He. }
  split.
  { destruct Hd as [-> | ->]; [rewrite length_app; lia | done]. }
  intros l1 l2 Heq Hcut.
  destruct Hcut as [-> | Hcut]; [cbn [app] in Heq; by subst l2|].
  apply app_eq_app in Heq as [l [[Hr Hl2] | [Hl1 Ho]]].
  - (* the cut is inside the element *)
    destruct l as [|x l].
    { rewrite app_nil_r in Hr. subst l1 l2.
      destruct Hcut as [Hlen | [l Hl]].
      - destruct Hd as [-> | ->].
        + apply (Hout [] out); [done | by left].
        + done.
      - exfalso. apply (Hnosep l []). by rewrite Hl. }
    destruct Hcut as [Hlen | [l' Hl']].
    + subst l2. rewrite length_app in Hlen. cbn [length] in Hlen.
      destruct Hd as [-> | ->]; [lia|].
      rewrite Hr in Hlen. rewrite !length_app in Hlen. cbn [length] in Hlen.
      destruct l1; [|simpl in Hlen; lia].
      cbn [app] in Hr. by rewrite <- Hr.
    + exfalso. subst l1. apply (Hnosep l' (x :: l)).
      by rewrite Hr, <- app_assoc.
  - (* the cut is inside the old output *)
    subst l1 out. destruct Hcut as [Hlen | [l' Hl']].
    + destruct Hd as [-> | ->].
      * apply (Hout l l2); [done|]. right. by left.
      * rewrite !length_app in Hlen.
        assert (l = [] ∧ rev (list_ascii_of_string e) = []) as [-> Hnil].
        { destruct l; [|simpl in Hlen; lia].
          destruct (rev (list_ascii_of_string e)); [done | simpl in Hlen; lia]. }
        apply (Hout [] l2); [done | by left].
    + destruct l as [|x l] using rev_ind.
      * exfalso. rewrite app_nil_r in Hl'. apply (Hnosep l' []). by rewrite Hl'.
      * rewrite app_assoc in Hl'. apply app_inj_tail in Hl' as [_ ->].
        apply (Hout (l ++ [Separator]) l2); [done|]. right. right. by exists l.
Qed.


Lemma boundary_test rest :
  is_empty rest || has_prefix_byte Separator rest = true → boundary rest.
Proof.
  destruct rest as [|c r]; [by left|]. cbn [is_empty orb]. by right.
Qed.

(** [Clean] keeps its output sound when the elements it reads are
    well-formed. *)
Lemma Clean_loop_sound fuel rooted path out dotdot :
  Forall wellFormed (elements path) → sound dotdot out →
  ∃ dotdot', sound dotdot' (Clean_loop fuel rooted path out dotdot).
Proof.
  revert path out dotdot.
  induction fuel as [|fuel IH]; intros path out dotdot Hpath Hout;
    cbn [Clean_loop]; [by exists dotdot|].
  destruct path as [|c p1]; [by exists dotdot|].
  destruct (eqb c Separator) eqn:Hc.
  { apply Ascii.eqb_eq in Hc. subst c. rewrite elements_sep in Hpath.
    apply Forall_cons in Hpath as [_ Hpath]. by apply IH. }
  destruct (eqb c "." && (is_empty p1 || has_prefix_byte Separator p1)) eqn:Hdot.
  { apply andb_true_iff in Hdot as [Hd%Ascii.eqb_eq Hb%boundary_test]. subst c.
    apply (elements_wellFormed_first "." p1) in Hpath as [_ Hpath]; [|done|done].
    by apply IH. }
  destruct (eqb c "." && has_prefix_byte "." p1
            && (is_empty (drop 1 p1) || has_prefix_byte Separator (drop 1 p1)))
    eqn:Hdotdot.
  { apply andb_true_iff in Hdotdot as [Hd Hb%boundary_test].
    apply andb_true_iff in Hd as [Hd%Ascii.eqb_eq Hd2]. subst c.
    destruct p1 as [|d p2]; [done|]. cbn [has_prefix_byte] in Hd2.
    apply Ascii.eqb_eq in Hd2. subst d. cbn [drop] in *.
    apply (elements_wellFormed_first ".." p2) in Hpath as [_ Hpath]; [|done|done].
    cbv zeta. destruct (dotdot <? length out)%nat eqn:Hlen.
    { apply Nat.ltb_lt in Hlen. apply IH; [done|]. by apply sound_backtrack. }
    destruct rooted; cbn [negb]; [by apply IH|].
    apply IH; [done|].
    apply (sound_element dotdot _ _ ".."); [|by apply hasMeta_wellFormed|done|by right].
    destruct (0 <? length out)%nat; [by apply sound_separator | done]. }
  cbv zeta.
  match goal with
  | |- context [copyElement _ ?o] =>
      assert (sound dotdot o) as Hout1;
        [destruct (rooted && _ || _); [by apply sound_separator | done]|];
        generalize dependent o; intros out1 Hout1
  end.
  destruct (copyElement_first (String c p1) out1) as (e & rest & Heq & He & Hrest & ->).
  rewrite Heq in Hpath.
  apply elements_wellFormed_first in Hpath as [Hwe Hpath]; [|done|done].
  apply IH; [done|]. apply (sound_element dotdot); [done | done | done | by left].
Qed.

Lemma Clean_wellFormed path :
  Forall wellFormed (elements path) → wellFormed (Clean path).
Proof.
  intros Hpath. unfold Clean. destruct path as [|c p1]; [by apply hasMeta_wellFormed|].
  match goal with
  | |- wellFormed (match ?o with [] => _ | _ => _ end) =>
      assert (∃ dotdot, sound dotdot o) as [dotdot Ho]
  end.
  { destruct (eqb c Separator) eqn:Hc.
    - apply Ascii.eqb_eq in Hc. subst c. rewrite elements_sep in Hpath.
      apply Forall_cons in Hpath as [_ Hpath].
      apply Clean_loop_sound; [done | apply sound_root].
    - apply Clean_loop_sound; [done | apply sound_start]. }
  apply sound_wellFormed in Ho.
  destruct (if eqb c Separator then _ else _); [by apply hasMeta_wellFormed | done].
Qed.

Lemma Join_wellFormed a b :
  Forall wellFormed (elements a) → Forall wellFormed (elements b) →
  wellFormed (Join a b).
Proof.
  intros Ha Hb. unfold Join. destruct (is_empty a); cbn [negb].
  - destruct (is_empty b); cbn [negb]; [constructor | by apply Clean_wellFormed].
  - apply Clean_wellFormed. rewrite elements_app_sep. by apply Forall_app.
Qed.

(** The absolute form of a path whose elements are well-formed is
    well-formed, when the working directory holds no metacharacter. *)
Lemma Abs_wellFormed env path k :
  (∀ wd, os.Getwd env = Some wd → hasMeta wd = false) →
  Forall wellFormed (elements path) →
  Abs env path = Some k → wellFormed k.
Proof.
  intros Hwd Hpath. unfold Abs. destruct (IsAbs path).
  - intros [= <-]. by apply Clean_wellFormed.
  - destruct (os.Getwd env) as [wd|]; [|done]. intros [= <-].
    apply Join_wellFormed; [|done]. apply hasMeta_elements_wellFormed. by apply Hwd.
Qed.

End CleanSound.

Section GlobChecks.

Import Bytes filepath.

Variable env : os.Env.

Implicit Types (pattern dir file d : string).

Lemma contains_byte_app c a b :
  contains_byte c (a +:+ b) = contains_byte c a || contains_byte c b.
Proof.
  induction a as [|x a IH]; [done|]. rewrite string_app_cons.
  cbn [contains_byte]. by rewrite IH, orb_assoc.
Qed.

(** [Split] cuts after the last separator. *)
Lemma Split_parts pattern dir file :
  Split pattern = (dir, file) →
  pattern = dir +:+ file ∧ contains_byte Separator file = false ∧
  (dir = EmptyString ∨ ∃ d, dir = d +:+ String Separator EmptyString).
Proof.
  revert dir file. induction pattern as [|c p IH]; intros dir file.
  { intros [= <- <-]. split; [done|]. split; [done | by left]. }
  cbn [Split]. destruct (Split p) as [dir0 file0].
  destruct (IH dir0 file0 eq_refl) as (Hp & Hfile & Hdir).
  destruct (contains_byte Separator p) eqn:Hsep.
  - intros [= <- <-]. split; [by rewrite Hp at 1|]. split; [done|]. right.
    destruct Hdir as [-> | [d ->]].
    + change (EmptyString +:+ file0) with file0 in Hp. subst p.
      by rewrite Hsep in Hfile.
    + by exists (String c d).
  - destruct (eqb c Separator) eqn:Hc.
    + apply Ascii.eqb_eq in Hc. subst c. intros [= <- <-].
      split; [done|]. split; [done|]. right. by exists EmptyString.
    + intros [= <- <-]. split; [done|]. split; [|by left].
      cbn [contains_byte]. by rewrite eqb_sym, Hc, Hsep.
Qed.

Lemma chop_last d c : chop (d +:+ String c EmptyString) = d.
Proof.
  induction d as [|x d IH]; [done|]. rewrite string_app_cons.
  cbn [chop]. rewrite IH. by destruct d.
Qed.

Lemma cleanGlobPath_dir d :
  cleanGlobPath (d +:+ String Separator EmptyString)
  = if is_empty d then String Separator EmptyString else d.
Proof.
  destruct d as [|x d]; [done|]. cbn [is_empty].
  rewrite <- (chop_last (String x d) Separator) at 2.
  rewrite string_app_cons. unfold cleanGlobPath.
  by destruct d.
Qed.

(** A pattern [Glob] accepts is well-formed element by element: the probe
    at the head of [globWithLimit] checks the pattern and, through the
    recursion on the directory part, every prefix of it that ends before a
    separator and holds a metacharacter. *)
Lemma globWithLimit_elements remaining pattern found :
  globWithLimit env remaining pattern = inr found →
  Forall wellFormed (elements pattern).
Proof.
  revert pattern found.
  induction remaining as [|remaining IH]; intros pattern found; [done|].
  cbn [globWithLimit].
  destruct (Match pattern EmptyString) as [err|matched] eqn:Hprobe; [done|].
  assert (Hw : wellFormed pattern).
  { apply compiles_wellFormed. unfold compiles, rejects. by rewrite Hprobe. }
  destruct (hasMeta pattern) eqn:Hmeta; cbn [negb].
  2: { intros _. by apply hasMeta_elements_wellFormed. }
  destruct (Split pattern) as [dir file] eqn:Hsplit.
  destruct (Split_parts pattern dir file Hsplit) as (Hp & Hfile & Hdir).
  destruct Hdir as [-> | [d ->]].
  { intros _. change (EmptyString +:+ file) with file in Hp. subst file.
    rewrite elements_plain by done. by constructor. }
  rewrite cleanGlobPath_dir.
  assert (Hd : Forall wellFormed (elements d) →
               Forall wellFormed (elements pattern)).
  { intros Hd. rewrite Hp, string_app_assoc, string_app_cons.
    change (EmptyString +:+ file) with file.
    rewrite elements_app_sep, (elements_plain file) by done.
    apply Forall_app. split; [done|]. constructor; [|done].
    apply (wellFormed_app_inv (d +:+ String Separator EmptyString)).
    - apply wellFormed_app; [by apply elements_wellFormed|].
      apply wellFormed_sep. constructor.
    - by rewrite <- Hp. }
  destruct (is_empty d) eqn:Hempty.
  { destruct d; [|done]. intros _. apply Hd. by repeat constructor. }
  destruct (hasMeta d) eqn:Hmd; cbn [negb].
  2: { intros _. apply Hd. by apply hasMeta_elements_wellFormed. }
  destruct (String.eqb d pattern); [done|].
  destruct (globWithLimit env remaining d) as [err|m] eqn:Hrec; [done|].
  intros _. apply Hd. by apply (IH d m).
Qed.

Lemma Glob_elements pattern found :
  Glob env pattern = inr found → Forall wellFormed (elements pattern).
Proof. apply globWithLimit_elements. Qed.

End GlobChecks.

(** ** What Glob accepts

    Whether [Glob] accepts a pattern depends on the pattern alone: it
    accepts the patterns whose elements are all well-formed. *)

Section GlobOutcome.

Import Bytes filepath.

Implicit Types (env : os.Env) (pattern dir file d : string).

(** Once the probe has passed, the file part of a pattern is well-formed
    when its directory part is. *)
Lemma Split_file_wellFormed pattern d file :
  wellFormed pattern → wellFormed d →
  pattern = (d +:+ String Separator EmptyString) +:+ file →
  wellFormed file.
Proof.
  intros Hp Hd Heq.
  apply (wellFormed_app_inv (d +:+ String Separator EmptyString)).
  - apply wellFormed_app; [done|]. apply wellFormed_sep. constructor.
  - by rewrite <- Heq.
Qed.

Lemma glob_names_passes dir file names found :
  wellFormed file → snd (glob_names dir file names found) = None.
Proof.
  intros Hfile. apply compiles_wellFormed in Hfile.
  revert found. induction names as [|n names IH]; intros found; [done|].
  cbn [glob_names]. pose proof (rejects_any_path file n) as Hn.
  rewrite Hfile in Hn. unfold rejects in Hn.
  destruct (Match file n) as [err|matched]; [done|]. apply IH.
Qed.

Lemma glob_passes env dir file found :
  wellFormed file → snd (glob env dir file found) = None.
Proof.
  intros Hfile. unfold glob. destruct (os.ReadDir env dir); [|done].
  by apply glob_names_passes.
Qed.

Lemma glob_dirs_passes env dirs file found :
  wellFormed file → failure (glob_dirs env dirs file found) = false.
Proof.
  intros Hfile. revert found.
  induction dirs as [|d dirs IH]; intros found; [done|]. cbn [glob_dirs].
  pose proof (glob_passes env d file found Hfile) as Hg.
  destruct (glob env d file found) as [found' [e|]]; [done|]. apply IH.
Qed.

Lemma app_sep_neq d file : String.eqb d ((d +:+ String Separator EmptyString) +:+ file) = false.
Proof.
  apply String.eqb_neq. intros Heq.
  apply (f_equal String.length) in Heq. rewrite !string_length_app in Heq.
  simpl in Heq. lia.
Qed.

(** Whether [Glob] fails does not depend on the file system. *)
Lemma globWithLimit_failure env env' remaining pattern :
  failure (globWithLimit env remaining pattern)
  = failure (globWithLimit env' remaining pattern).
Proof.
  revert pattern. induction remaining as [|remaining IH]; intros pattern; [done|].
  cbn [globWithLimit].
  destruct (Match pattern EmptyString) as [err|matched] eqn:Hprobe; [done|].
  assert (Hw : wellFormed pattern).
  { apply compiles_wellFormed. unfold compiles, rejects. by rewrite Hprobe. }
  destruct (hasMeta pattern) eqn:Hmeta; cbn [negb].
  2: { by destruct (os.Lstat env pattern), (os.Lstat env' pattern). }
  destruct (Split pattern) as [dir file] eqn:Hsplit.
  destruct (Split_parts pattern dir file Hsplit) as (Hp & Hfile & Hdir).
  assert (Hglob : wellFormed file → ∀ dir',
            failure match glob env dir' file [] with
                    | (_, Some e) => inl e
                    | (found, None) => inr found
                    end
            = failure match glob env' dir' file [] with
                      | (_, Some e) => inl e
                      | (found, None) => inr found
                      end).
  { intros Hwf dir'.
    pose proof (glob_passes env dir' file [] Hwf) as H1.
    pose proof (glob_passes env' dir' file [] Hwf) as H2.
    destruct (glob env dir' file []) as [? [?|]]; [done|].
    by destruct (glob env' dir' file []) as [? [?|]]. }
  destruct Hdir as [-> | [d ->]].
  { change (EmptyString +:+ file) with file in Hp. subst file.
    change (cleanGlobPath EmptyString) with ".". cbn [hasMeta contains_any contains_byte eqb Ascii.eqb Bool.eqb orb negb].
    by apply Hglob. }
  rewrite cleanGlobPath_dir. destruct (is_empty d) eqn:Hempty.
  { destruct d; [|done]. cbn [hasMeta contains_any contains_byte eqb Ascii.eqb Bool.eqb orb negb].
    apply Hglob. apply (Split_file_wellFormed pattern EmptyString file); [done | constructor | done]. }
  destruct (hasMeta d) eqn:Hmd; cbn [negb].
  2: { apply Hglob. apply (Split_file_wellFormed pattern d file); [done | | done].
       by apply hasMeta_wellFormed. }
  destruct (String.eqb d pattern); [done|].
  specialize (IH d).
  destruct (globWithLimit env remaining d) as [err|m] eqn:Hrec;
    destruct (globWithLimit env' remaining d) as [err'|m'] eqn:Hrec'; try done.
  assert (wellFormed file) as Hwf.
  { apply (Split_file_wellFormed pattern d file); [done | | done].
    apply elements_wellFormed. by apply (globWithLimit_elements env remaining d m). }
  by rewrite !glob_dirs_passes.
Qed.

Lemma Glob_failure env env' pattern :
  failure (Glob env pattern) = failure (Glob env' pattern).
Proof. apply globWithLimit_failure. Qed.

(** [Glob] accepts a pattern whose elements are well-formed, when the
    recursion on its directory part stays within the limit. *)
Lemma globWithLimit_accepts env remaining pattern :
  Forall wellFormed (elements pattern) →
  (length (elements pattern) <= remaining)%nat →
  failure (globWithLimit env remaining pattern) = false.
Proof.
  revert pattern. induction remaining as [|remaining IH]; intros pattern Hel Hlen.
  { pose proof (elements_nonempty pattern). destruct (elements pattern); [done|].
    simpl in Hlen. lia. }
  cbn [globWithLimit].
  pose proof (elements_wellFormed pattern Hel) as Hw.
  pose proof (proj2 (compiles_wellFormed pattern) Hw) as Hc.
  unfold compiles, rejects in Hc.
  destruct (Match pattern EmptyString) as [err|matched] eqn:Hprobe; [done|].
  destruct (hasMeta pattern) eqn:Hmeta; cbn [negb].
  2: { by destruct (os.Lstat env pattern). }
  destruct (Split pattern) as [dir file] eqn:Hsplit.
  destruct (Split_parts pattern dir file Hsplit) as (Hp & Hfile & Hdir).
  assert (Hglob : wellFormed file → ∀ dir',
            failure match glob env dir' file [] with
                    | (_, Some e) => inl e
                    | (found, None) => inr found
                    end = false).
  { intros Hwf dir'. pose proof (glob_passes env dir' file [] Hwf) as H1.
    by destruct (glob env dir' file []) as [? [?|]]. }
  destruct Hdir as [-> | [d ->]].
  { change (EmptyString +:+ file) with file in Hp. subst file.
    change (cleanGlobPath EmptyString) with ".". cbn [hasMeta contains_any contains_byte eqb Ascii.eqb Bool.eqb orb negb].
    by apply Hglob. }
  rewrite cleanGlobPath_dir. destruct (is_empty d) eqn:Hempty.
  { destruct d; [|done]. cbn [hasMeta contains_any contains_byte eqb Ascii.eqb Bool.eqb orb negb].
    apply Hglob. apply (Split_file_wellFormed pattern EmptyString file); [done | constructor | done]. }
  assert (Helements : elements pattern = elements d ++ [file]).
  { rewrite Hp, string_app_assoc, string_app_cons.
    change (EmptyString +:+ file) with file.
    by rewrite elements_app_sep, (elements_plain file). }
  rewrite Helements in Hel, Hlen. apply Forall_app in Hel as [Hd Hf].
  apply Forall_cons in Hf as [Hf _].
  destruct (hasMeta d) eqn:Hmd; cbn [negb]; [|by apply Hglob].
  rewrite Hp, app_sep_neq.
  rewrite length_app in Hlen. cbn [length] in Hlen.
  specialize (IH d Hd ltac:(lia)).
  destruct (globWithLimit env remaining d) as [err|m]; [done|].
  by apply glob_dirs_passes.
Qed.

End GlobOutcome.

(** ** Patterns without metacharacters *)

Section MatchLiteral.

Import Bytes filepath.

Implicit Types (chunk s t k path : string).

(** Once the match has failed, a chunk matches nothing. *)
Lemma matchChunk_loop_failed fuel chunk s t :
  matchChunk_loop fuel chunk s true ≠ inr (Some t).
Proof.
  revert chunk s. induction fuel as [|fuel IH]; intros chunk s; [done|].
  cbn [matchChunk_loop]. destruct chunk as [|c chunk1]; [done|].
  cbn [orb]. destruct (eqb c "[").
  { destruct (if has_prefix_byte "^" chunk1 then (true, drop 1 chunk1)
              else (false, chunk1)) as [negated chunk2].
    destruct (classLoop _ chunk2 0 false 0) as [e|[matched chunk3]]; [done|].
    apply IH. }
  destruct (eqb c "?"); [apply IH|].
  destruct (if eqb c "\" then _ else _) as [e|[c0 chunk']]; [done|]. apply IH.
Qed.

(** A pattern that begins with a separator matches no name that does not. *)
Lemma Match_rooted k path :
  IsAbs k = true → IsAbs path = false → Match k path ≠ inr true.
Proof.
  unfold IsAbs. destruct k as [|c k']; [done|]. cbn [has_prefix_byte].
  intros Hc%Ascii.eqb_eq Hpath. subst c. rewrite Match_unfold.
  cbn [is_empty]. unfold scanChunk.
  change (skipStars (String Separator k')) with (false, String Separator k').
  cbv iota. cbn [scan].
  change (eqb Separator "\") with false. change (eqb Separator "[") with false.
  change (eqb Separator "]") with false. change (eqb Separator "*") with false.
  cbn [andb]. cbv iota.
  destruct (scan false k') as [chunk rest]. cbn [andb].
  assert (Hm : ∀ t, matchChunk (String Separator chunk) path ≠ inr (Some t)).
  { intros t. unfold matchChunk. cbn [matchChunk_loop orb].
    change (eqb Separator "[") with false. change (eqb Separator "?") with false.
    change (eqb Separator "\") with false. cbv iota.
    destruct (is_empty path) eqn:He; [apply matchChunk_loop_failed|].
    rewrite Hpath. cbn [negb]. apply matchChunk_loop_failed. }
  destruct (matchChunk (String Separator chunk) path) as [e|[t|]]; [done | by destruct (Hm t) |].
  cbv zeta iota. by destruct (checkRemainder (String.length rest) rest).
Qed.

Lemma scan_literal inrange k : hasMeta k = false → scan inrange k = (k, EmptyString).
Proof.
  unfold hasMeta. induction k as [|c k IH]; [done|].
  cbn [contains_any contains_byte]. intros [Hc Hk]%orb_false_iff.
  apply orb_false_iff in Hc as [H1 Hc]. apply orb_false_iff in Hc as [H2 Hc].
  apply orb_false_iff in Hc as [H3 Hc]. apply orb_false_iff in Hc as [H4 _].
  cbn [scan]. rewrite H4, H3, H1. cbn [andb].
  assert (Hin : ∀ b, scan b k = (k, EmptyString)).
  { clear IH. intros b. revert b. 
    induction k as [|d k IHk]; intros b; [done|].
    cbn [contains_any contains_byte] in Hk. apply orb_false_iff in Hk as [Hd Hk].
    apply orb_false_iff in Hd as [G1 Hd]. apply orb_false_iff in Hd as [G2 Hd].
    apply orb_false_iff in Hd as [G3 Hd]. apply orb_false_iff in Hd as [G4 _].
    cbn [scan]. rewrite G4, G3, G1. cbn [andb].
    rewrite !(IHk Hk). by destruct (eqb d "]"). }
  rewrite !Hin. by destruct (eqb c "]").
Qed.

(** A chunk without metacharacters matches the names it is a prefix of. *)
Lemma matchChunk_loop_literal fuel chunk s t :
  hasMeta chunk = false → (String.length chunk < fuel)%nat →
  matchChunk_loop fuel chunk s false = inr (Some t) ↔ s = chunk +:+ t.
Proof.
  unfold hasMeta. revert chunk s.
  induction fuel as [|fuel IH]; intros chunk s Hmeta Hfuel; [lia|].
  cbn [matchChunk_loop]. destruct chunk as [|c chunk1].
  { split; [by intros [= ->] | by intros ->]. }
  cbn [contains_any contains_byte] in Hmeta.
  apply orb_false_iff in Hmeta as [Hc Hk].
  apply orb_false_iff in Hc as [H1 Hc]. apply orb_false_iff in Hc as [H2 Hc].
  apply orb_false_iff in Hc as [H3 Hc]. apply orb_false_iff in Hc as [H4 _].
  rewrite H3, H2, H4. cbn [orb]. cbv iota. cbn [String.length] in Hfuel.
  destruct s as [|d s1]; cbn [is_empty].
  { split; [by intros ?%matchChunk_loop_failed | done]. }
  cbn [has_prefix_byte drop]. destruct (eqb c d) eqn:Hcd; cbn [negb].
  - apply Ascii.eqb_eq in Hcd. subst d. rewrite IH by (done || lia).
    rewrite string_app_cons. split; [by intros -> | by intros [= ->]].
  - split; [by intros ?%matchChunk_loop_failed|].
    rewrite string_app_cons. intros [= -> _]. unfold eqb in Hcd.
    by rewrite Ascii.eqb_refl in Hcd.
Qed.

(** A pattern without metacharacters matches itself and nothing else. *)
Lemma Match_literal k path :
  hasMeta k = false → Match k path = inr (String.eqb k path).
Proof.
  intros Hmeta. rewrite Match_unfold.
  destruct k as [|c k'] eqn:Hk.
  { by destruct path. }
  rewrite <- Hk in *. assert (is_empty k = false) as -> by by subst.
  assert (skipStars k = (false, k)) as Hstars.
  { subst k. unfold hasMeta in Hmeta. cbn [contains_any contains_byte] in Hmeta.
    apply orb_false_iff in Hmeta as [Hc _]. apply orb_false_iff in Hc as [H1 _].
    cbn [skipStars]. by rewrite H1. }
  unfold scanChunk. rewrite Hstars, (scan_literal false k Hmeta). cbn [andb].
  pose proof (matchChunk_wellFormed k path) as Hw.
  pose proof (matchChunk_loop_literal (S (String.length k)) k path) as Hlit.
  fold (matchChunk k path) in Hlit.
  destruct (matchChunk k path) as [e|[t|]].
  - exfalso. assert (failure (inl e : PatternError + option string) = false) as Hf.
    { apply Hw. by apply hasMeta_wellFormed. }
    done.
  - pose proof (proj1 (Hlit t Hmeta ltac:(lia)) eq_refl) as ->.
    cbv zeta. cbn [is_empty negb orb]. rewrite orb_false_r.
    destruct t as [|d t]; cbn [is_empty].
    + rewrite append_empty_r, String.eqb_refl. done.
    + cbn [checkRemainder String.length]. f_equal. symmetry.
      apply String.eqb_neq. intros Heq.
      apply (f_equal String.length) in Heq. rewrite string_length_app in Heq.
      simpl in Heq. lia.
  - cbv zeta. cbn [checkRemainder String.length]. f_equal. symmetry.
    apply String.eqb_neq. intros <-.
    pose proof (proj2 (Hlit EmptyString Hmeta ltac:(lia))) as H.
    rewrite append_empty_r in H. by specialize (H eq_refl).
Qed.

End MatchLiteral.

Section CleanLiteral.

Import Bytes filepath.

Implicit Types (path : string) (out l : list ascii).

Lemma hasMeta_list s :
  hasMeta s = false ↔
  Forall (fun c => contains_byte c "*?[\" = false) (list_ascii_of_string s).
Proof.
  unfold hasMeta. induction s as [|c s IH]; [by split; [constructor|]|].
  cbn [contains_any list_ascii_of_string]. rewrite Forall_cons, <- IH.
  apply orb_false_iff.
Qed.

Lemma hasMeta_string_of_rev out :
  hasMeta (string_of_rev out) = false ↔
  Forall (fun c => contains_byte c "*?[\" = false) out.
Proof.
  unfold string_of_rev. rewrite hasMeta_list, list_ascii_of_string_of_list_ascii.
  split; intros H; apply Forall_forall; intros c Hc;
    rewrite Forall_forall in H; apply H.
  - apply list_elem_of_In, in_rev. rewrite rev_involutive. by apply list_elem_of_In.
  - apply list_elem_of_In, in_rev in Hc. by apply list_elem_of_In.
Qed.

Lemma hasMeta_app a b :
  hasMeta (a +:+ b) = false ↔ hasMeta a = false ∧ hasMeta b = false.
Proof.
  rewrite !hasMeta_list, list_ascii_app. apply Forall_app.
Qed.

Lemma backtrack_Forall (P : ascii → Prop) dotdot out :
  Forall P out → Forall P (backtrack dotdot out).
Proof.
  induction 1 as [|c out Hc Hout IH]; [constructor|]. cbn [backtrack].
  by destruct ((dotdot <? length out)%nat && negb (eqb c Separator)).
Qed.

(** [Clean] writes no metacharacter that it has not read. *)
Lemma Clean_loop_literal fuel rooted path out dotdot :
  hasMeta path = false →
  Forall (fun c => contains_byte c "*?[\" = false) out →
  Forall (fun c => contains_byte c "*?[\" = false)
    (Clean_loop fuel rooted path out dotdot).
Proof.
  revert path out dotdot.
  induction fuel as [|fuel IH]; intros path out dotdot Hpath Hout;
    cbn [Clean_loop]; [done|].
  destruct path as [|c p1]; [done|].
  assert (Hp1 : hasMeta p1 = false).
  { apply (hasMeta_app (String c EmptyString) p1) in Hpath. tauto. }
  destruct (eqb c Separator); [by apply IH|].
  destruct (eqb c "." && (is_empty p1 || has_prefix_byte Separator p1));
    [by apply IH|].
  destruct (eqb c "." && has_prefix_byte "." p1
            && (is_empty (drop 1 p1) || has_prefix_byte Separator (drop 1 p1))).
  { assert (Hp2 : hasMeta (drop 1 p1) = false).
    { destruct p1 as [|d p2]; [done|].
      apply (hasMeta_app (String d EmptyString) p2) in Hp1. tauto. }
    cbv zeta. destruct (dotdot <? length out)%nat.
    { apply IH; [done|]. by apply backtrack_Forall. }
    destruct rooted; cbn [negb]; [by apply IH|].
    apply IH; [done|]. constructor; [done|]. constructor; [done|].
    destruct (0 <? length out)%nat; [by constructor | done]. }
  cbv zeta.
  match goal with
  | |- context [copyElement _ ?o] =>
      assert (Forall (fun c => contains_byte c "*?[\" = false) o) as Hout1;
        [destruct (rooted && _ || _); [by constructor | done]|];
        generalize dependent o; intros out1 Hout1
  end.
  destruct (copyElement_first (String c p1) out1) as (e & rest & Heq & He & Hrest & ->).
  rewrite Heq in Hpath. apply hasMeta_app in Hpath as [Hme Hmr].
  apply IH; [done|]. apply Forall_app. split; [|done].
  apply hasMeta_string_of_rev. by rewrite string_of_rev_element.
Qed.

Lemma Clean_literal path : hasMeta path = false → hasMeta (Clean path) = false.
Proof.
  intros Hpath. unfold Clean. destruct path as [|c p1]; [done|].
  match goal with
  | |- hasMeta (match ?o with [] => _ | _ => _ end) = false =>
      assert (Forall (fun c => contains_byte c "*?[\" = false) o) as Ho
  end.
  { assert (Hp1 : hasMeta p1 = false).
    { apply (hasMeta_app (String c EmptyString) p1) in Hpath. tauto. }
    destruct (eqb c Separator).
    - apply Clean_loop_literal; [done|]. by constructor.
    - by apply Clean_loop_literal. }
  apply hasMeta_string_of_rev in Ho.
  by destruct (if eqb c Separator then _ else _).
Qed.

Lemma Abs_literal env path k :
  (∀ wd, os.Getwd env = Some wd → hasMeta wd = false) →
  hasMeta path = false → Abs env path = Some k → hasMeta k = false.
Proof.
  intros Hwd Hpath. unfold Abs. destruct (IsAbs path).
  - intros [= <-]. by apply Clean_literal.
  - destruct (os.Getwd env) as [wd|]; [|done]. intros [= <-].
    unfold Join. destruct (is_empty wd); cbn [negb].
    + destruct (is_empty path); cbn [negb]; [done | by apply Clean_literal].
    + apply Clean_literal. apply hasMeta_app. split; [by apply Hwd|].
      by apply (hasMeta_app (String Separator EmptyString) path).
Qed.

End CleanLiteral.

(** ** The clean form of an absolute path *)

Section CleanForm.

Import Bytes filepath.

Implicit Types (path seg rest acc e : string) (out l : list ascii) (segs : list string).

Lemma rooted_snoc segs seg :
  rooted (segs ++ [seg]) = (rooted segs +:+ "/") +:+ seg.
Proof.
  induction segs as [|s segs IH].
  - cbn [app rooted]. by rewrite append_empty_r.
  - cbn [app rooted]. rewrite IH, !string_app_cons. f_equal.
    by rewrite !string_app_assoc.
Qed.

Lemma rootedPath_length segs :
  Forall (fun s => simple s = true) segs →
  (String.length (rootedPath segs) =? 1)%nat = bool_decide (segs = []).
Proof.
  destruct segs as [|s segs]; [done|]. intros [Hs%simple_length _]%Forall_cons.
  cbn [rootedPath rooted String.length]. rewrite string_length_app.
  rewrite bool_decide_eq_false_2 by done. apply Nat.eqb_neq. lia.
Qed.

Lemma rootedPath_snoc segs seg :
  Forall (fun s => simple s = true) segs →
  rootedPath (segs ++ [seg])
  = (if (String.length (rootedPath segs) =? 1)%nat then rootedPath segs
     else rootedPath segs +:+ "/") +:+ seg.
Proof.
  intros Hsegs. rewrite (rootedPath_length segs Hsegs).
  destruct segs as [|s segs].
  - cbn [app rootedPath rooted bool_decide decide_rel]. by rewrite append_empty_r.
  - rewrite bool_decide_eq_false_2 by done.
    change (rootedPath ((s :: segs) ++ [seg])) with (rooted ((s :: segs) ++ [seg])).
    apply rooted_snoc.
Qed.

Lemma backtrack_app l out dotdot :
  Forall (fun c => eqb c Separator = false) l →
  (dotdot < length out)%nat →
  backtrack dotdot (l ++ out) = backtrack dotdot out.
Proof.
  intros Hl Hlen. induction Hl as [|c l Hc _ IH]; [done|].
  cbn [app backtrack]. rewrite Hc. cbn [negb]. rewrite andb_true_r.
  assert ((dotdot <? length (l ++ out))%nat = true) as ->; [|done].
  apply Nat.ltb_lt. rewrite length_app. lia.
Qed.

Lemma list_ascii_no_separator e :
  contains_byte Separator e = false →
  Forall (fun c => eqb c Separator = false) (list_ascii_of_string e).
Proof.
  induction e as [|c e IH]; [constructor|]. cbn [contains_byte].
  intros [Hc He]%orb_false_iff. constructor; [by rewrite eqb_sym | by apply IH].
Qed.

Lemma simple_parts seg :
  simple seg = true ↔
  is_empty seg = false ∧ contains_byte Separator seg = false ∧
  seg ≠ "." ∧ seg ≠ "..".
Proof.
  unfold simple. rewrite !andb_true_iff, !negb_true_iff, !String.eqb_neq. tauto.
Qed.

(** The [..] element after a rooted clean path removes its last element. *)
Lemma backtrack_rootedPath segs seg :
  Forall (fun s => simple s = true) segs → simple seg = true →
  (1 <? length (buffer (rootedPath (segs ++ [seg]))))%nat = true ∧
  backtrack 1 (buffer (rootedPath (segs ++ [seg]))) = buffer (rootedPath segs).
Proof.
  intros Hsegs Hseg. pose proof (simple_length seg Hseg) as Hlen.
  apply simple_parts in Hseg as (_ & Hsep & _).
  rewrite rootedPath_snoc, rootedPath_length by done. split.
  { apply Nat.ltb_lt. rewrite buffer_length, string_length_app.
    destruct (bool_decide (segs = [])); [|rewrite string_length_app];
      destruct segs; simpl; lia. }
  rewrite <- buffer_app.
  pose proof (list_ascii_no_separator seg Hsep) as Hall.
  destruct segs as [|s segs].
  - rewrite bool_decide_eq_true_2 by done. cbn [rootedPath].
    destruct (list_ascii_of_string seg) as [|x l] eqn:Hl.
    { destruct seg; [simpl in Hlen; lia | done]. }
    apply Forall_cons in Hall as [Hx Hall]. apply List.Forall_rev in Hall.
    cbn [rev]. rewrite <- app_assoc.
    rewrite backtrack_app; [|done|simpl; lia].
    cbn [app backtrack buffer list_ascii_of_string rev length].
    done.
  - rewrite bool_decide_eq_false_2 by done. rewrite <- buffer_sep.
    apply List.Forall_rev in Hall.
    rewrite backtrack_app; [|done|].
    + cbn [backtrack]. change (eqb Separator Separator) with true.
      cbn [negb]. by rewrite andb_false_r.
    + cbn [length]. rewrite buffer_length. cbn [rootedPath rooted String.length]. lia.
Qed.


(** One round of the loop of [Clean] on each kind of element. *)
Lemma Clean_loop_skip fuel rest out dotdot rooted' :
  Clean_loop (S fuel) rooted' (String Separator rest) out dotdot
  = Clean_loop fuel rooted' rest out dotdot.
Proof. done. Qed.

Lemma Clean_loop_dot fuel rest out dotdot rooted' :
  boundary rest →
  Clean_loop (S fuel) rooted' (String "." rest) out dotdot
  = Clean_loop fuel rooted' rest out dotdot.
Proof.
  intros Hrest. cbn [Clean_loop]. change (eqb "." Separator) with false.
  change (eqb "." ".") with true. cbv iota. cbn [andb].
  assert (is_empty rest || has_prefix_byte Separator rest = true) as ->; [|done].
  destruct Hrest as [-> | ->]; [done | apply orb_true_r].
Qed.

Lemma Clean_loop_dotdot fuel rest out dotdot :
  boundary rest →
  Clean_loop (S fuel) true (String "." (String "." rest)) out dotdot
  = Clean_loop fuel true rest
      (if (dotdot <? length out)%nat then backtrack dotdot out else out) dotdot.
Proof.
  intros Hrest. cbn [Clean_loop]. change (eqb "." Separator) with false.
  change (eqb "." ".") with true. cbv iota.
  cbn [andb is_empty has_prefix_byte orb drop].
  change (eqb Separator ".") with false. change (eqb "." ".") with true.
  cbv iota. cbn [andb].
  assert (is_empty rest || has_prefix_byte Separator rest = true) as ->.
  { destruct Hrest as [-> | ->]; [done | apply orb_true_r]. }
  cbv zeta. by destruct (dotdot <? length out)%nat.
Qed.

(** In rooted mode the output of [Clean] is always a clean absolute path. *)
Lemma Clean_loop_rootedPath fuel path segs :
  Forall (fun s => simple s = true) segs →
  ∃ segs', Forall (fun s => simple s = true) segs' ∧
    Clean_loop fuel true path (buffer (rootedPath segs)) 1
    = buffer (rootedPath segs').
Proof.
  revert path segs. induction fuel as [|fuel IH]; intros path segs Hsegs.
  { by exists segs. }
  destruct (copyElement_first path []) as (e & rest & -> & He & Hrest & _).
  destruct (simple e) eqn:Hsimple.
  { rewrite Clean_loop_simple by done.
    rewrite <- rootedPath_snoc by done. apply IH.
    apply Forall_app. split; [done | by constructor]. }
  assert (e = EmptyString ∨ e = "." ∨ e = "..") as [-> | [-> | ->]].
  { unfold simple in Hsimple. rewrite He in Hsimple. cbn [negb andb] in Hsimple.
    rewrite andb_true_r in Hsimple.
    destruct e as [|c e]; [by left|]. cbn [is_empty negb andb] in Hsimple.
    apply andb_false_iff in Hsimple as [H | H]; apply negb_false_iff, String.eqb_eq in H;
      auto. }
  - change (EmptyString +:+ rest) with rest.
    destruct Hrest as [-> | Hr]; [by exists segs|].
    destruct rest as [|c rest]; [done|]. cbn [has_prefix_byte] in Hr.
    apply Ascii.eqb_eq in Hr. subst c. rewrite Clean_loop_skip. by apply IH.
  - change ("." +:+ rest) with (String "." rest).
    rewrite Clean_loop_dot by done. by apply IH.
  - change (".." +:+ rest) with (String "." (String "." rest)).
    rewrite Clean_loop_dotdot by done.
    destruct segs as [|s segs _] using rev_ind.
    + change (1 <? length (buffer (rootedPath [])))%nat with false. cbv iota.
      by apply IH.
    + apply Forall_app in Hsegs as [Hsegs Hs]. apply Forall_cons in Hs as [Hs _].
      destruct (backtrack_rootedPath segs s Hsegs Hs) as [-> ->]. by apply IH.
Qed.

Lemma rootedPath_nonempty segs : buffer (rootedPath segs) ≠ [].
Proof.
  intros H. apply (f_equal (@length ascii)) in H. rewrite buffer_length in H.
  destruct segs; simpl in H; lia.
Qed.

(** [Clean] of an absolute path is the root or a rooted path of simple
    elements. *)
Lemma Clean_rootedPath path :
  IsAbs path = true →
  ∃ segs, Forall (fun s => simple s = true) segs ∧ Clean path = rootedPath segs.
Proof.
  destruct path as [|c p1]; [done|]. unfold IsAbs. cbn [has_prefix_byte].
  intros Hc%Ascii.eqb_eq. subst c. unfold Clean.
  change (eqb Separator Separator) with true. cbv iota.
  destruct (Clean_loop_rootedPath (String.length p1) p1 []) as (segs & Hsegs & Hout);
    [constructor|].
  change (buffer (rootedPath [])) with [Separator] in Hout.
  exists segs. split; [done|]. rewrite Hout.
  pose proof (rootedPath_nonempty segs).
  destruct (buffer (rootedPath segs)) eqn:Hb; [done|].
  rewrite <- Hb. apply string_of_rev_buffer.
Qed.

Lemma Clean_rootedPath_fixed segs :
  Forall (fun s => simple s = true) segs →
  Clean (rootedPath segs) = rootedPath segs.
Proof.
  destruct segs as [|s segs]; [done|]. intros Hsegs.
  by apply Clean_simple_path.
Qed.

Lemma Abs_rootedPath env pattern k :
  (∀ wd, os.Getwd env = Some wd → IsAbs wd = true) →
  Abs env pattern = Some k →
  ∃ segs, Forall (fun s => simple s = true) segs ∧ k = rootedPath segs.
Proof.
  intros Hwd. unfold Abs. destruct (IsAbs pattern) eqn:Hp.
  - intros [= <-]. by apply Clean_rootedPath.
  - destruct (os.Getwd env) as [wd|] eqn:Hg; [|done]. intros [= <-].
    specialize (Hwd wd eq_refl). unfold Join.
    destruct wd as [|c wd]; [done|]. cbn [is_empty negb].
    apply Clean_rootedPath. exact Hwd.
Qed.

End CleanForm.

(** ** The bytes of a JSON value

    A JSON value is read the same from the bytes it spans as from the
    whole text. *)

Section JSONFrame.

Import Bytes json.

Implicit Types (s rest raw pre : string).

Lemma follows_refl rest : follows rest rest.
Proof.
  split; [done|]. destruct rest as [|c t]; [by left | right]. by exists c, t, t.
Qed.

Lemma follows_empty rest : follows rest EmptyString.
Proof. split; [simpl; lia | by left]. Qed.

Lemma follows_app a rest rest' :
  (String.length rest' <= String.length rest)%nat →
  is_empty a = false → follows (a +:+ rest) (a +:+ rest').
Proof.
  intros Hlen Ha. split; [rewrite !string_length_app; lia|].
  destruct a as [|c a]; [done|]. right.
  exists c, (a +:+ rest), (a +:+ rest'). done.
Qed.

Lemma follows_head (P : ascii → bool) rest rest' :
  follows rest rest' →
  match rest with String c _ => P c = false | EmptyString => True end →
  match rest' with String c _ => P c = false | EmptyString => True end.
Proof.
  intros [_ [-> | (c & t & t' & -> & ->)]]; done.
Qed.

Lemma digits_frame s ds rest :
  digits s = (ds, rest) →
  s = ds +:+ rest ∧
  ∀ rest', follows rest rest' → digits (ds +:+ rest') = (ds, rest').
Proof.
  revert ds rest. induction s as [|c s IH]; intros ds rest; cbn [digits].
  { intros [= <- <-]. split; [done|]. by intros rest' [_ [-> | (c & t & t' & ? & _)]]. }
  destruct (isDigit c) eqn:Hc.
  - destruct (digits s) as [ds' r] eqn:Hd. intros [= <- <-].
    destruct (IH _ _ eq_refl) as [-> Hframe]. split; [done|].
    intros rest' Hf. rewrite string_app_cons. cbn [digits]. rewrite Hc.
    by rewrite (Hframe rest' Hf).
  - intros [= <- <-]. split; [done|]. intros rest' Hf.
    change (EmptyString +:+ rest') with rest'.
    pose proof (follows_head isDigit _ _ Hf Hc) as H.
    destruct rest' as [|c' t']; [done|]. cbn [digits]. by rewrite H.
Qed.

Lemma string_app_nil_l s : EmptyString +:+ s = s.
Proof. done. Qed.

Lemma scanExponent_frame s e rest :
  scanExponent s = Some (e, rest) →
  s = e +:+ rest ∧
  ∀ rest', follows rest rest' → scanExponent (e +:+ rest') = Some (e, rest').
Proof.
  unfold scanExponent at 1. destruct s as [|c t].
  { intros [= <- <-]. split; [done|]. by intros rest' [_ [-> | (c & t & t' & ? & _)]]. }
  destruct (eqb c "e" || eqb c "E") eqn:Hc.
  2: { intros [= <- <-]. split; [done|]. intros rest' Hf.
       rewrite string_app_nil_l.
       pose proof (follows_head (fun c => eqb c "e" || eqb c "E") _ _ Hf Hc) as H.
       unfold scanExponent. destruct rest' as [|c' t']; [done|]. by rewrite H. }
  destruct t as [|g t'].
  { done. }
  destruct (eqb g "+" || eqb g "-") eqn:Hg.
  - destruct (digits t') as [ds r] eqn:Hd.
    destruct (digits_frame _ _ _ Hd) as [-> Hframe].
    destruct ds as [|d ds]; [done|]. intros [= <- <-].
    rewrite ?string_app_cons, ?string_app_nil_l. split; [done|].
    intros rest' Hf. rewrite !string_app_cons.
    unfold scanExponent. rewrite Hc, Hg.
    change (String d (ds +:+ rest')) with (String d ds +:+ rest').
    rewrite (Hframe rest' Hf). by rewrite ?string_app_cons, ?string_app_nil_l.
  - destruct (digits (String g t')) as [ds r] eqn:Hd.
    destruct (digits_frame _ _ _ Hd) as [Heq Hframe].
    destruct ds as [|d ds]; [done|]. intros [= <- <-].
    rewrite ?string_app_nil_l, ?string_app_cons. split; [by rewrite Heq|].
    intros rest' Hf. rewrite ?string_app_nil_l, ?string_app_cons.
    unfold scanExponent. rewrite Hc.
    rewrite string_app_cons in Heq. injection Heq as -> _.
    rewrite Hg. change (String d (ds +:+ rest')) with (String d ds +:+ rest').
    rewrite (Hframe rest' Hf). by rewrite ?string_app_nil_l.
Qed.

Lemma scanFraction_frame s f rest :
  scanFraction s = Some (f, rest) →
  s = f +:+ rest ∧
  ∀ rest', follows rest rest' → scanFraction (f +:+ rest') = Some (f, rest').
Proof.
  unfold scanFraction at 1. destruct s as [|c t].
  { intros [= <- <-]. split; [done|]. by intros rest' [_ [-> | (c & t & t' & ? & _)]]. }
  destruct (eqb c ".") eqn:Hc.
  - destruct (digits t) as [ds r] eqn:Hd.
    destruct (digits_frame _ _ _ Hd) as [-> Hframe].
    destruct ds as [|d ds]; [done|].
    destruct (scanExponent r) as [[e r']|] eqn:He; [|done].
    destruct (scanExponent_frame _ _ _ He) as [-> Hframe'].
    intros [= <- <-]. rewrite ?string_app_cons, ?string_app_assoc.
    split; [done|]. intros rest' Hf.
    rewrite ?string_app_cons, ?string_app_assoc. unfold scanFraction. rewrite Hc.
    change (String d (ds +:+ e +:+ rest')) with (String d ds +:+ e +:+ rest').
    rewrite Hframe.
    + by rewrite (Hframe' rest' Hf).
    + destruct e as [|x e]; [by rewrite ?string_app_nil_l|].
      apply (follows_app (String x e)); [|done]. by destruct Hf.
  - intros He. destruct (scanExponent_frame _ _ _ He) as [Heq Hframe].
    split; [done|]. intros rest' Hf. specialize (Hframe rest' Hf).
    unfold scanFraction. destruct (f +:+ rest') as [|c' t'] eqn:Hs; [done|].
    assert (eqb c' "." = false) as ->; [|done].
    destruct f as [|x f].
    + rewrite string_app_nil_l in Heq, Hs. subst rest rest'.
      by apply (follows_head (fun c => eqb c ".") _ _ Hf Hc).
    + rewrite string_app_cons in Heq, Hs. by injection Heq as -> _; injection Hs as <- _.
Qed.


Lemma scanNumber_integer_frame c t lit rest :
    match (if eqb c "0" then Some (String c EmptyString, t)
           else if isDigit c then
             let '(ds, rest) := digits t in Some (String c ds, rest)
           else None) with
    | Some (i, rest) =>
        match scanFraction rest with
        | Some (f, rest') => Some (i +:+ f, rest')
        | None => None
        end
    | None => None
    end = Some (lit, rest) →
    String c t = lit +:+ rest ∧
    ∃ lit', lit = String c lit' ∧
    ∀ rest', follows rest rest' →
      match (if eqb c "0" then Some (String c EmptyString, lit' +:+ rest')
             else if isDigit c then
               let '(ds, rest) := digits (lit' +:+ rest') in Some (String c ds, rest)
             else None) with
      | Some (i, rest) =>
          match scanFraction rest with
          | Some (f, rest') => Some (i +:+ f, rest')
          | None => None
          end
      | None => None
      end = Some (lit, rest').
Proof.
  destruct (eqb c "0").
    - destruct (scanFraction t) as [[f r]|] eqn:Hf; [|done].
      destruct (scanFraction_frame _ _ _ Hf) as [-> Hframe].
      intros [= <- <-]. rewrite ?string_app_cons, ?string_app_nil_l.
      split; [done|]. exists f. split; [done|]. intros rest' Hfo.
      by rewrite (Hframe rest' Hfo).
    - destruct (isDigit c); [|done].
      destruct (digits t) as [ds r] eqn:Hd.
      destruct (digits_frame _ _ _ Hd) as [-> Hframe].
      destruct (scanFraction r) as [[f r']|] eqn:Hf; [|done].
      destruct (scanFraction_frame _ _ _ Hf) as [-> Hframe'].
      intros [= <- <-]. rewrite ?string_app_cons, ?string_app_assoc.
      split; [done|]. exists (ds +:+ f). split; [done|]. intros rest' Hfo.
      rewrite string_app_assoc, Hframe.
      + by rewrite (Hframe' rest' Hfo).
      + destruct f as [|x f]; [by rewrite ?string_app_nil_l|].
        apply (follows_app (String x f)); [|done]. by destruct Hfo.
Qed.

Lemma scanNumber_frame s lit rest :
  scanNumber s = Some (lit, rest) →
  s = lit +:+ rest ∧
  ∀ rest', follows rest rest' → scanNumber (lit +:+ rest') = Some (lit, rest').
Proof.
  pose proof scanNumber_integer_frame as Hint.
  unfold scanNumber at 1. destruct s as [|c t]; [done|].
  destruct (eqb c "-") eqn:Hc.
  - destruct t as [|c' t']; [done|]. intros H.
    assert (∃ lit0, lit = String c lit0 ∧
              match (if eqb c' "0" then Some (String c' EmptyString, t')
                     else if isDigit c' then
                       let '(ds, rest) := digits t' in Some (String c' ds, rest)
                     else None) with
              | Some (i, rest) =>
                  match scanFraction rest with
                  | Some (f, rest') => Some (i +:+ f, rest')
                  | None => None
                  end
              | None => None
              end = Some (lit0, rest)) as (lit0 & -> & H0).
    { destruct (if eqb c' "0" then _ else _) as [[i r]|]; [|done].
      destruct (scanFraction r) as [[f r']|]; [|done].
      injection H as <- <-. exists (i +:+ f). split; [|done].
      by rewrite ?string_app_cons, ?string_app_nil_l. }
    destruct (Hint c' t' lit0 rest H0) as (Heq & lit' & -> & Hframe).
    rewrite ?string_app_cons. split; [by rewrite Heq|]. intros rest' Hfo.
    rewrite ?string_app_cons. unfold scanNumber. rewrite Hc.
    specialize (Hframe rest' Hfo). clear H H0 Heq.
    destruct (if eqb c' "0" then _ else _) as [[i r]|]; [|done].
    destruct (scanFraction r) as [[f r']|]; [|done].
    injection Hframe as -> ->. by rewrite ?string_app_cons, ?string_app_nil_l.
  - intros H.
    assert (match (if eqb c "0" then Some (String c EmptyString, t)
                     else if isDigit c then
                       let '(ds, rest) := digits t in Some (String c ds, rest)
                     else None) with
              | Some (i, rest) =>
                  match scanFraction rest with
                  | Some (f, rest') => Some (i +:+ f, rest')
                  | None => None
                  end
              | None => None
              end = Some (lit, rest)) as H0.
    { destruct (if eqb c "0" then _ else _) as [[i r]|]; [|done].
      destruct (scanFraction r) as [[f r']|]; [|done].
      injection H as <- <-. by rewrite ?string_app_nil_l. }
    destruct (Hint c t lit rest H0) as (Heq & lit' & -> & Hframe).
    split; [done|]. intros rest' Hfo.
    rewrite ?string_app_cons. unfold scanNumber. rewrite Hc.
    specialize (Hframe rest' Hfo). clear H H0 Heq.
    destruct (if eqb c "0" then _ else _) as [[i r]|]; [|done].
    destruct (scanFraction r) as [[f r']|]; [|done].
    injection Hframe as <- ->. by rewrite ?string_app_nil_l.
Qed.

Lemma expect_frame word s rest :
  expect word s = Some rest →
  s = word +:+ rest ∧ ∀ rest', expect word (word +:+ rest') = Some rest'.
Proof.
  revert s. induction word as [|w word IH]; intros s; cbn [expect].
  { by intros [= <-]. }
  destruct s as [|c s]; [done|]. destruct (eqb w c) eqn:Hw; [|done].
  apply Ascii.eqb_eq in Hw. subst c. intros [-> Hframe]%IH.
  split; [done|]. intros rest'. rewrite string_app_cons. cbn [expect].
  unfold eqb. by rewrite Ascii.eqb_refl.
Qed.

Lemma scanString_frame s raw rest :
  scanString s = Some (raw, rest) →
  ∃ pre, s = pre +:+ rest ∧
    ∀ rest', scanString (pre +:+ rest') = Some (raw, rest').
Proof.
  revert raw rest.
  assert (Hn : ∀ n s raw rest, (String.length s <= n)%nat →
                scanString s = Some (raw, rest) →
                ∃ pre, s = pre +:+ rest ∧
                  ∀ rest', scanString (pre +:+ rest') = Some (raw, rest')).
  { clear s. induction n as [|n IH]; intros s raw rest Hlen.
    { by destruct s; [|simpl in Hlen; lia]. }
    destruct s as [|c t]; [done|]. cbn [scanString]. cbn [String.length] in *.
    destruct (eqb c quote) eqn:Hq.
    { intros [= <- <-]. exists (String c EmptyString). split; [done|].
      intros rest'. rewrite string_app_cons. cbn [scanString]. by rewrite Hq. }
    destruct (eqb c "\") eqn:Hb.
    { destruct t as [|e t1]; [done|]. cbn [String.length] in *.
      destruct (eqb e "u") eqn:Hu.
      - destruct t1 as [|h1 [|h2 [|h3 [|h4 t2]]]]; try done.
        cbn [String.length] in *.
        destruct (hexValue h1) eqn:H1, (hexValue h2) eqn:H2,
          (hexValue h3) eqn:H3, (hexValue h4) eqn:H4; try done.
        destruct (scanString t2) as [[raw' rest']|] eqn:Hs; [|done].
        intros [= <- <-]. apply IH in Hs as (pre & -> & Hframe); [|lia].
        exists (String c (String e (String h1 (String h2 (String h3 (String h4 pre)))))).
        split; [done|]. intros r. rewrite !string_app_cons. cbn [scanString].
        by rewrite Hq, Hb, Hu, H1, H2, H3, H4, Hframe.
      - destruct (_ || _) eqn:He; [|done].
        destruct (scanString t1) as [[raw' rest']|] eqn:Hs; [|done].
        intros [= <- <-]. apply IH in Hs as (pre & -> & Hframe); [|lia].
        exists (String c (String e pre)). split; [done|].
        intros r. rewrite !string_app_cons. cbn [scanString].
        by rewrite Hq, Hb, Hu, He, Hframe. }
    destruct (byte c <? 32)%N eqn:Hctl; [done|].
    destruct (scanString t) as [[raw' rest']|] eqn:Hs; [|done].
    intros [= <- <-]. apply IH in Hs as (pre & -> & Hframe); [|lia].
    exists (String c pre). split; [done|].
    intros r. rewrite !string_app_cons. cbn [scanString].
    by rewrite Hq, Hb, Hctl, Hframe. }
  intros raw rest. by apply (Hn (String.length s)).
Qed.

Lemma skipSpace_head s c t : skipSpace s = String c t → isSpace c = false.
Proof.
  induction s as [|d s IH]; [done|]. cbn [skipSpace].
  destruct (isSpace d) eqn:Hd; [done|]. by intros [= <- _].
Qed.

Lemma skipSpace_fixed c t : isSpace c = false → skipSpace (String c t) = String c t.
Proof. intros H. cbn [skipSpace]. by rewrite H. Qed.

(** White space is skipped the same whatever follows the next byte. *)
Lemma skipSpace_app s c t x :
  skipSpace s = String c t → skipSpace (s +:+ x) = String c (t +:+ x).
Proof.
  induction s as [|d s IH]; [done|]. cbn [skipSpace]. rewrite string_app_cons.
  cbn [skipSpace]. destruct (isSpace d); [done|]. by intros [= -> ->].
Qed.

Lemma skipSpace_split s :
  ∃ ws, s = ws +:+ skipSpace s ∧
    ∀ c t, isSpace c = false → skipSpace (ws +:+ String c t) = String c t.
Proof.
  induction s as [|d s (ws & Hs & Hws)].
  { exists EmptyString. split; [done|]. intros c t. apply skipSpace_fixed. }
  cbn [skipSpace]. destruct (isSpace d) eqn:Hd.
  - exists (String d ws). split; [by rewrite string_app_cons, <- Hs|].
    intros c t Hc. rewrite string_app_cons. cbn [skipSpace]. rewrite Hd.
    by apply Hws.
  - exists EmptyString. split; [done|]. intros c t. apply skipSpace_fixed.
Qed.


Lemma follows_delimiter ws c p rest rest' :
  (String.length rest' <= String.length rest)%nat →
  follows (ws +:+ String c (p +:+ rest)) (ws +:+ String c (p +:+ rest')).
Proof.
  intros Hlen.
  assert (Heq : ∀ r, ws +:+ String c (p +:+ r) = (ws +:+ String c p) +:+ r).
  { intros r. by rewrite string_app_assoc, string_app_cons. }
  rewrite !Heq. apply follows_app; [done|]. by destruct ws.
Qed.

Lemma skipSpace_nonempty_app pre x :
  is_empty (skipSpace pre) = false →
  ∃ q p, skipSpace pre = String q p ∧ skipSpace (pre +:+ x) = String q (p +:+ x).
Proof.
  destruct (skipSpace pre) as [|q p] eqn:Hsp; [done|]. intros _.
  exists q, p. split; [done|]. by apply skipSpace_app.
Qed.

Section LoopFrames.

Variable nested : string → option (Value * string).
Hypothesis nested_frame :
  ∀ s v rest, nested s = Some (v, rest) →
    ∃ pre, s = pre +:+ rest ∧ is_empty (skipSpace pre) = false ∧
      ∀ rest', follows rest rest' → nested (pre +:+ rest') = Some (v, rest').

Lemma parseElements_frame fuel s acc vs rest :
  parseElements nested fuel s acc = Some (vs, rest) →
  ∃ pre, s = pre +:+ rest ∧ is_empty (skipSpace pre) = false ∧
    ∀ rest', (String.length rest' <= String.length rest)%nat →
      parseElements nested fuel (pre +:+ rest') acc = Some (vs, rest').
Proof.
  revert s acc. induction fuel as [|fuel IH]; intros s acc; cbn [parseElements];
    [done|].
  destruct (nested s) as [[v r]|] eqn:Hn; [|done].
  destruct (nested_frame _ _ _ Hn) as (pre1 & Hs & Hpre1 & Hframe).
  destruct (skipSpace_split r) as (ws & Hr & Hws).
  destruct (skipSpace r) as [|c t] eqn:Hsp; [done|].
  pose proof (skipSpace_head _ _ _ Hsp) as Hc.
  assert (Hgo : ∀ pre2 rest',
            (String.length rest' <= String.length rest)%nat →
            t = pre2 +:+ rest →
            nested ((pre1 +:+ ws +:+ String c pre2) +:+ rest')
            = Some (v, ws +:+ String c (pre2 +:+ rest')) ∧
            skipSpace (ws +:+ String c (pre2 +:+ rest')) = String c (pre2 +:+ rest') ∧
            s = (pre1 +:+ ws +:+ String c pre2) +:+ rest ∧
            is_empty (skipSpace (pre1 +:+ ws +:+ String c pre2)) = false).
  { intros pre2 rest' Hlen Ht. split; [|split; [|split]].
    - rewrite !string_app_assoc, string_app_cons. apply Hframe.
      rewrite Hr, Ht. by apply follows_delimiter.
    - by apply Hws.
    - rewrite Hs, Hr, Ht. by rewrite !string_app_assoc, string_app_cons.
    - destruct (skipSpace_nonempty_app pre1 (ws +:+ String c pre2) Hpre1)
        as (q & p & _ & ->). done. }
  destruct (eqb c ",") eqn:Hcomma.
  - intros (pre2 & Ht & _ & Hrec)%IH.
    exists (pre1 +:+ ws +:+ String c pre2).
    split; [by apply (Hgo pre2 rest)|].
    split; [by apply (Hgo pre2 rest)|].
    intros rest' Hlen. destruct (Hgo pre2 rest' Hlen Ht) as (-> & -> & _).
    rewrite Hcomma. by apply Hrec.
  - destruct (eqb c "]") eqn:Hclose; [|done]. intros [= <- <-].
    exists (pre1 +:+ ws +:+ String c EmptyString).
    split; [by apply (Hgo EmptyString t)|].
    split; [by apply (Hgo EmptyString t)|].
    intros rest' Hlen.
    destruct (Hgo EmptyString rest' Hlen eq_refl) as (-> & -> & _).
    by rewrite Hcomma, Hclose.
Qed.

Lemma parseMembers_frame fuel s acc ms rest :
  parseMembers nested fuel s acc = Some (ms, rest) →
  ∃ pre, s = pre +:+ rest ∧ is_empty (skipSpace pre) = false ∧
    ∀ rest', (String.length rest' <= String.length rest)%nat →
      parseMembers nested fuel (pre +:+ rest') acc = Some (ms, rest').
Proof.
  revert s acc. induction fuel as [|fuel IH]; intros s acc; cbn [parseMembers];
    [done|].
  destruct (skipSpace_split s) as (ws0 & Hs0 & Hws0).
  destruct (skipSpace s) as [|q t0] eqn:Hsp0; [done|].
  pose proof (skipSpace_head _ _ _ Hsp0) as Hq.
  destruct (eqb q quote) eqn:Hquote; [|done].
  destruct (scanString t0) as [[raw r]|] eqn:Hstr; [|done].
  destruct (scanString_frame _ _ _ Hstr) as (pre0 & Ht0 & Hframe0).
  destruct (skipSpace_split r) as (ws1 & Hr & Hws1).
  destruct (skipSpace r) as [|colon t1] eqn:Hsp1; [done|].
  pose proof (skipSpace_head _ _ _ Hsp1) as Hcolon.
  destruct (eqb colon ":") eqn:Hcol; [|done].
  destruct (nested t1) as [[v r1]|] eqn:Hn; [|done].
  destruct (nested_frame _ _ _ Hn) as (pre1 & Ht1 & Hpre1 & Hframe).
  destruct (skipSpace_split r1) as (ws & Hr1 & Hws).
  destruct (skipSpace r1) as [|c t] eqn:Hsp; [done|].
  pose proof (skipSpace_head _ _ _ Hsp) as Hc.
  set (head := ws0 +:+ String q (pre0 +:+ ws1 +:+ String colon pre1)).
  assert (Hgo : ∀ pre2 rest',
            (String.length rest' <= String.length rest)%nat →
            t = pre2 +:+ rest →
            s = (head +:+ ws +:+ String c pre2) +:+ rest ∧
            is_empty (skipSpace (head +:+ ws +:+ String c pre2)) = false ∧
            skipSpace ((head +:+ ws +:+ String c pre2) +:+ rest')
            = String q (pre0 +:+ ws1 +:+ String colon
                          (pre1 +:+ ws +:+ String c (pre2 +:+ rest'))) ∧
            skipSpace (ws1 +:+ String colon
                          (pre1 +:+ ws +:+ String c (pre2 +:+ rest')))
            = String colon (pre1 +:+ ws +:+ String c (pre2 +:+ rest')) ∧
            nested (pre1 +:+ ws +:+ String c (pre2 +:+ rest'))
            = Some (v, ws +:+ String c (pre2 +:+ rest')) ∧
            skipSpace (ws +:+ String c (pre2 +:+ rest')) = String c (pre2 +:+ rest')).
  { intros pre2 rest' Hlen Ht. unfold head. split; [|split; [|split; [|split; [|split]]]].
    - rewrite Hs0, Ht0, Hr, Ht1, Hr1, Ht.
      by rewrite ?string_app_assoc, ?string_app_cons, ?string_app_assoc,
         ?string_app_cons, ?string_app_assoc.
    - rewrite ?string_app_assoc, ?string_app_cons, ?string_app_assoc,
        ?string_app_cons, ?string_app_assoc. by rewrite Hws0.
    - rewrite ?string_app_assoc, ?string_app_cons, ?string_app_assoc,
        ?string_app_cons, ?string_app_assoc. by apply Hws0.
    - by apply Hws1.
    - apply Hframe. rewrite Hr1, Ht. by apply follows_delimiter.
    - by apply Hws. }
  destruct (eqb c ",") eqn:Hcomma.
  - intros (pre2 & Ht & _ & Hrec)%IH.
    exists (head +:+ ws +:+ String c pre2).
    split; [by apply (Hgo pre2 rest)|]. split; [by apply (Hgo pre2 rest)|].
    intros rest' Hlen.
    destruct (Hgo pre2 rest' Hlen Ht) as (_ & _ & H0 & H1 & H2 & H3).
    rewrite H0, Hquote, Hframe0, H1, Hcol, H2, H3, Hcomma. by apply Hrec.
  - destruct (eqb c "}") eqn:Hclose; [|done]. intros [= <- <-].
    exists (head +:+ ws +:+ String c EmptyString).
    split; [by apply (Hgo EmptyString t)|]. split; [by apply (Hgo EmptyString t)|].
    intros rest' Hlen.
    destruct (Hgo EmptyString rest' Hlen eq_refl) as (_ & _ & H0 & H1 & H2 & H3).
    rewrite string_app_nil_l in H0, H1, H2, H3.
    by rewrite H0, Hquote, Hframe0, H1, Hcol, H2, H3, Hcomma, Hclose.
Qed.

End LoopFrames.

Lemma follows_length rest rest' :
  follows rest rest' → (String.length rest' <= String.length rest)%nat.
Proof. by intros [? _]. Qed.

(** The scalar values: a string, a literal or a number. *)
Ltac scalar_frame c t ws Hs Hws Hc Hbrace Hbracket :=
  let go pre' Hframe :=
    (exists (ws +:+ String c pre');
     split; [by rewrite Hs, string_app_assoc, string_app_cons|];
     split; [by rewrite Hws|];
     let rest' := fresh "rest'" in let Hf := fresh "Hf" in
     intros rest' Hf; rewrite string_app_assoc, string_app_cons;
     cbn [parseValue]; rewrite Hws by done;
     rewrite Hbrace, Hbracket) in
  let H := fresh "H" in
  let raw := fresh "raw" in let r := fresh "r" in
  let pre := fresh "pre" in let Hframe := fresh "Hframe" in
  let Hquote := fresh "Hquote" in let Hn := fresh "Hn" in
  let Ht := fresh "Ht" in let Hfalse := fresh "Hfalse" in
  destruct (eqb c quote) eqn:Hquote;
  [ destruct (scanString t) as [[raw r]|] eqn:H; [|done];
    destruct (scanString_frame _ _ _ H) as (pre & -> & Hframe);
    intros [= <- <-]; go pre Hframe; by rewrite Hquote, Hframe
  |];
  destruct (eqb c "n") eqn:Hn;
  [ destruct (expect "ull" t) as [r|] eqn:H; [|done];
    destruct (expect_frame _ _ _ H) as (-> & Hframe);
    intros [= <- <-]; go "ull" Hframe; by rewrite Hquote, Hn, Hframe
  |];
  destruct (eqb c "t") eqn:Ht;
  [ destruct (expect "rue" t) as [r|] eqn:H; [|done];
    destruct (expect_frame _ _ _ H) as (-> & Hframe);
    intros [= <- <-]; go "rue" Hframe; by rewrite Hquote, Hn, Ht, Hframe
  |];
  destruct (eqb c "f") eqn:Hfalse;
  [ destruct (expect "alse" t) as [r|] eqn:H; [|done];
    destruct (expect_frame _ _ _ H) as (-> & Hframe);
    intros [= <- <-]; go "alse" Hframe; by rewrite Hquote, Hn, Ht, Hfalse, Hframe
  |];
  let lit := fresh "lit" in
  destruct (scanNumber (String c t)) as [[lit r]|] eqn:H; [|done];
  destruct (scanNumber_frame _ _ _ H) as (Heq & Hframe);
  intros [= <- <-];
  destruct lit as [|c' lit'];
    [ apply scanNumber_shorter in H; rewrite string_app_nil_l in Heq;
      rewrite <- Heq in H; lia |];
  rewrite string_app_cons in Heq; injection Heq as <- ->;
  go lit' Hframe; rewrite Hquote, Hn, Ht, Hfalse;
  rewrite <- string_app_cons; by rewrite Hframe.

(** A value is read the same whatever follows it that begins with the same
    byte. *)
Lemma parseValue_frame depth s v rest :
  parseValue depth s = Some (v, rest) →
  ∃ pre, s = pre +:+ rest ∧ is_empty (skipSpace pre) = false ∧
    ∀ rest', follows rest rest' → parseValue depth (pre +:+ rest') = Some (v, rest').
Proof.
  revert s v rest. induction depth as [|depth IH]; intros s v rest.
  - cbn [parseValue]. destruct (skipSpace_split s) as (ws & Hs & Hws).
    destruct (skipSpace s) as [|c t] eqn:Hsp; [done|].
    pose proof (skipSpace_head _ _ _ Hsp) as Hc.
    destruct (eqb c "{") eqn:Hbrace; [done|].
    destruct (eqb c "[") eqn:Hbracket; [done|].
    scalar_frame c t ws Hs Hws Hc Hbrace Hbracket.
  - cbn [parseValue]. destruct (skipSpace_split s) as (ws & Hs & Hws).
    destruct (skipSpace s) as [|c t] eqn:Hsp; [done|].
    pose proof (skipSpace_head _ _ _ Hsp) as Hc.
    destruct (eqb c "{") eqn:Hbrace.
    { destruct (skipSpace_split t) as (ws1 & Ht & Hws1).
      destruct (skipSpace t) as [|c1 t1] eqn:Hsp1; [done|].
      pose proof (skipSpace_head _ _ _ Hsp1) as Hc1.
      destruct (eqb c1 "}") eqn:Hclose.
      { intros [= <- <-]. exists (ws +:+ String c (ws1 +:+ String c1 EmptyString)).
        split; [by rewrite Hs, Ht, ?string_app_assoc, ?string_app_cons,
                  ?string_app_assoc, ?string_app_cons|].
        split; [by rewrite Hws|]. intros rest' Hf.
        rewrite ?string_app_assoc, ?string_app_cons, ?string_app_assoc,
          ?string_app_cons, ?string_app_nil_l.
        cbn [parseValue]. rewrite Hws by done. rewrite Hbrace.
        rewrite Hws1 by done. by rewrite Hclose. }
      destruct (parseMembers _ _ t []) as [[ms r]|] eqn:H; [|done].
      intros [= <- <-].
      destruct (parseMembers_frame _ IH _ _ _ _ _ H) as (pre & Hpre & Hne & Hframe).
      exists (ws +:+ String c pre).
      split; [by rewrite Hs, Hpre, ?string_app_assoc, ?string_app_cons|].
      split; [by rewrite Hws|]. intros rest' Hf.
      rewrite ?string_app_assoc, ?string_app_cons.
      cbn [parseValue]. rewrite Hws by done. rewrite Hbrace.
      destruct (skipSpace_nonempty_app pre r Hne) as (q & p & Hq & Hqr).
      rewrite <- Hpre, Hsp1 in Hqr. injection Hqr as -> _.
      rewrite (skipSpace_app pre q p rest' Hq), Hclose.
      rewrite (parseMembers_fuel _ (parseValue_shorter depth) _ (String.length t));
        [by rewrite Hframe; [|apply follows_length]
        | done
        | rewrite Hpre, !string_length_app; apply follows_length in Hf; lia]. }
    destruct (eqb c "[") eqn:Hbracket.
    { destruct (skipSpace_split t) as (ws1 & Ht & Hws1).
      destruct (skipSpace t) as [|c1 t1] eqn:Hsp1; [done|].
      pose proof (skipSpace_head _ _ _ Hsp1) as Hc1.
      destruct (eqb c1 "]") eqn:Hclose.
      { intros [= <- <-]. exists (ws +:+ String c (ws1 +:+ String c1 EmptyString)).
        split; [by rewrite Hs, Ht, ?string_app_assoc, ?string_app_cons,
                  ?string_app_assoc, ?string_app_cons|].
        split; [by rewrite Hws|]. intros rest' Hf.
        rewrite ?string_app_assoc, ?string_app_cons, ?string_app_assoc,
          ?string_app_cons, ?string_app_nil_l.
        cbn [parseValue]. rewrite Hws by done. rewrite Hbrace, Hbracket.
        rewrite Hws1 by done. by rewrite Hclose. }
      destruct (parseElements _ _ t []) as [[vs r]|] eqn:H; [|done].
      intros [= <- <-].
      destruct (parseElements_frame _ IH _ _ _ _ _ H) as (pre & Hpre & Hne & Hframe).
      exists (ws +:+ String c pre).
      split; [by rewrite Hs, Hpre, ?string_app_assoc, ?string_app_cons|].
      split; [by rewrite Hws|]. intros rest' Hf.
      rewrite ?string_app_assoc, ?string_app_cons.
      cbn [parseValue]. rewrite Hws by done. rewrite Hbrace, Hbracket.
      destruct (skipSpace_nonempty_app pre r Hne) as (q & p & Hq & Hqr).
      rewrite <- Hpre, Hsp1 in Hqr. injection Hqr as -> _.
      rewrite (skipSpace_app pre q p rest' Hq), Hclose.
      rewrite (parseElements_fuel _ (parseValue_shorter depth) _ (String.length t));
        [by rewrite Hframe; [|apply follows_length]
        | done
        | rewrite Hpre, !string_length_app; apply follows_length in Hf; lia]. }
    scalar_frame c t ws Hs Hws Hc Hbrace Hbracket.
Qed.

Lemma skipSpace_idempotent s : skipSpace (skipSpace s) = skipSpace s.
Proof.
  induction s as [|c s IH]; [done|]. cbn [skipSpace].
  destruct (isSpace c) eqn:Hc; [done|]. cbn [skipSpace]. by rewrite Hc.
Qed.

Lemma parseValue_skipSpace depth s :
  parseValue depth (skipSpace s) = parseValue depth s.
Proof. destruct depth; cbn [parseValue]; by rewrite skipSpace_idempotent. Qed.

Lemma string_take_app a b : take (String.length a) (a +:+ b) = a.
Proof.
  induction a as [|c a IH]; [by destruct b|].
  rewrite string_app_cons. cbn [String.length take]. by rewrite IH.
Qed.

(** The bytes [valueText] keeps hold the same JSON value. *)
Lemma parse_valueText b v : parse b = Some v → parse (valueText b) = Some v.
Proof.
  unfold parse, valueText.
  destruct (parseValue maxNestingDepth b) as [[v' rest]|] eqn:Hb; [|done].
  destruct (is_empty (skipSpace rest)); [|done]. intros [= ->].
  destruct (parseValue_frame _ _ _ _ Hb) as (pre & Hpre & Hne & Hframe).
  destruct (skipSpace_nonempty_app pre rest Hne) as (q & p & Hq & Hqr).
  rewrite <- Hpre in Hqr. cbv zeta. rewrite Hqr.
  change (String q (p +:+ rest)) with (String q p +:+ rest).
  rewrite string_length_app.
  replace (String.length (String q p) + String.length rest - String.length rest)%nat
    with (String.length (String q p)) by lia.
  rewrite string_take_app, <- Hq, parseValue_skipSpace.
  specialize (Hframe EmptyString (follows_empty rest)).
  rewrite append_empty_r in Hframe. by rewrite Hframe.
Qed.

Lemma Unmarshal_valueText b :
  Valid b = true → Unmarshal (valueText b) = Unmarshal b.
Proof.
  unfold Valid, Unmarshal. destruct (parse b) as [v|] eqn:Hb; [|done].
  intros _. by rewrite (parse_valueText b v Hb).
Qed.

End JSONFrame.

(** ** Wildcards and separators *)

Section MatchSeparators.

Import Bytes filepath.

Implicit Types (chunk s t k path pattern name : string).

Lemma separators_app a b :
  separators (a +:+ b) = (separators a + separators b)%nat.
Proof.
  induction a as [|c a IH]; [done|]. rewrite string_app_cons.
  cbn [separators]. rewrite IH. lia.
Qed.

Lemma separators_none s :
  contains_byte Separator s = false ↔ separators s = 0%nat.
Proof.
  induction s as [|c s IH]; [done|]. cbn [contains_byte separators].
  rewrite orb_false_iff, IH, (eqb_sym Separator c).
  destruct (eqb c Separator); [split; [by intros [? ?] | lia]|].
  split; [by intros [_ ->] | intros H; split; [done | lia]].
Qed.

Lemma separators_continuations conts :
  continuations conts = true → separators conts = 0%nat.
Proof.
  induction conts as [|c conts IH]; [done|]. cbn [continuations separators].
  intros [Hc Hconts]%andb_true_iff.
  rewrite (continuation_not c Separator Hc) by (vm_compute; done).
  by rewrite IH.
Qed.

Lemma drop_split n s :
  (n <= String.length s)%nat → s = take n s +:+ drop n s.
Proof.
  revert s. induction n as [|n IH]; intros s Hn; [done|].
  destruct s as [|c s]; [simpl in Hn; lia|]. cbn [take drop].
  rewrite string_app_cons. f_equal. apply IH. simpl in Hn. lia.
Qed.

(** The rune a question mark matches holds no separator. *)
Lemma rune_no_separator s :
  is_empty s = false → has_prefix_byte Separator s = false →
  ∃ pre, s = pre +:+ drop (snd (utf8.DecodeRuneInString s)) s ∧
         separators pre = 0%nat.
Proof.
  intros Hne Hsep. destruct (utf8.DecodeRuneInString s) as [r n] eqn:Hdec.
  cbn [snd].
  destruct ((r =? utf8.RuneError)%N && (n =? 1)%nat) eqn:Herr.
  - apply andb_true_iff in Herr as [_ Hn%Nat.eqb_eq]. subst n.
    destruct s as [|c s1]; [done|]. exists (String c EmptyString).
    split; [done|]. cbn [has_prefix_byte] in Hsep. cbn [separators].
    by rewrite (eqb_sym c Separator), Hsep.
  - destruct (decode_shape s r n Hdec Hne Herr) as (c0 & conts & Hs & _ & Hconts & _).
    exists (String c0 conts). split; [done|].
    rewrite Hs in Hsep. rewrite string_app_cons in Hsep.
    cbn [has_prefix_byte] in Hsep. cbn [separators].
    by rewrite (eqb_sym c0 Separator), Hsep, separators_continuations.
Qed.

(** What a chunk without a class matches holds as many separators as the
    chunk. *)
Lemma matchChunk_loop_separators fuel chunk s t :
  contains_byte "[" chunk = false →
  matchChunk_loop fuel chunk s false = inr (Some t) →
  ∃ consumed, s = consumed +:+ t ∧ separators consumed = separators chunk.
Proof.
  revert chunk s. induction fuel as [|fuel IH]; intros chunk s Hchunk; [done|].
  cbn [matchChunk_loop]. destruct chunk as [|c chunk1].
  { intros [= ->]. by exists EmptyString. }
  cbn [contains_byte] in Hchunk. apply orb_false_iff in Hchunk as [Hc Hchunk1].
  rewrite (eqb_sym c "["), Hc. cbn [orb].
  destruct (is_empty s) eqn:Hs.
  { destruct (eqb c "?"); [by intros ?%matchChunk_loop_failed|].
    destruct (if eqb c "\" then _ else _) as [e|[c0 chunk']]; [done|].
    by intros ?%matchChunk_loop_failed. }
  destruct (eqb c "?") eqn:Hq.
  { apply Ascii.eqb_eq in Hq. subst c.
    destruct (has_prefix_byte Separator s) eqn:Hsep;
      [by intros ?%matchChunk_loop_failed|].
    intros (consumed & Hdrop & Hcount)%IH; [|done].
    destruct (rune_no_separator s Hs Hsep) as (pre & Hpre & Hzero).
    exists (pre +:+ consumed). split.
    - by rewrite string_app_assoc, <- Hdrop.
    - rewrite separators_app, Hzero, Hcount. done. }
  destruct (eqb c "\") eqn:Hb.
  { apply Ascii.eqb_eq in Hb. subst c. destruct chunk1 as [|d chunk2]; [done|].
    cbn [contains_byte] in Hchunk1. apply orb_false_iff in Hchunk1 as [_ Hchunk2].
    destruct s as [|x s1]; [done|]. cbn [has_prefix_byte drop].
    destruct (eqb d x) eqn:Hd; cbn [negb]; [|by intros ?%matchChunk_loop_failed].
    apply Ascii.eqb_eq in Hd. subst x.
    intros (consumed & -> & Hcount)%IH; [|done].
    exists (String d consumed). split; [done|].
    cbn [separators]. change (eqb "\" Separator) with false. cbv iota.
    rewrite Hcount. lia. }
  destruct s as [|x s1]; [done|]. cbn [has_prefix_byte drop].
  destruct (eqb c x) eqn:Hd; cbn [negb]; [|by intros ?%matchChunk_loop_failed].
  apply Ascii.eqb_eq in Hd. subst x.
  intros (consumed & -> & Hcount)%IH; [|done].
  exists (String c consumed). split; [done|]. cbn [separators]. by rewrite Hcount.
Qed.

Lemma starLoop_separators chunk last name t :
  contains_byte "[" chunk = false →
  starLoop chunk last name = inr (Some t) →
  ∃ consumed, name = consumed +:+ t ∧ separators consumed = separators chunk.
Proof.
  intros Hchunk. induction name as [|c name IH]; cbn [starLoop]; [done|].
  destruct (eqb c Separator) eqn:Hc; [done|].
  assert (Hskip : ∀ t', (∃ consumed, name = consumed +:+ t' ∧
                           separators consumed = separators chunk) →
            ∃ consumed, String c name = consumed +:+ t' ∧
                        separators consumed = separators chunk).
  { intros t' (consumed & -> & Hcount). exists (String c consumed).
    split; [done|]. cbn [separators]. by rewrite Hc. }
  destruct (matchChunk chunk name) as [e|[t'|]] eqn:Hm; [done | |].
  - apply matchChunk_loop_separators in Hm; [|done].
    destruct (last && negb (is_empty t')).
    + intros H. apply Hskip. by apply IH.
    + intros [= <-]. by apply Hskip.
  - intros H. apply Hskip. by apply IH.
Qed.

Lemma skipStars_parts pattern :
  ∃ stars, pattern = stars +:+ snd (skipStars pattern) ∧
           separators stars = 0%nat.
Proof.
  induction pattern as [|c p (stars & Hp & Hstars)]; [by exists EmptyString|].
  cbn [skipStars]. destruct (eqb c "*") eqn:Hc; [|by exists EmptyString].
  apply Ascii.eqb_eq in Hc. subst c. exists (String "*" stars). cbn [snd].
  split; [by rewrite string_app_cons, <- Hp|]. done.
Qed.

(** A pattern without a class matches only names that hold as many
    separators as it does: a star and a question mark match no separator. *)
Lemma Match_separators pattern name :
  contains_byte "[" pattern = false →
  Match pattern name = inr true → separators name = separators pattern.
Proof.
  assert (Hn : ∀ n pattern name, (String.length pattern <= n)%nat →
             contains_byte "[" pattern = false →
             Match pattern name = inr true →
             separators name = separators pattern).
  { clear. induction n as [|n IH]; intros pattern name Hlen Hpattern.
    { destruct pattern; [|simpl in Hlen; lia]. rewrite Match_unfold.
      cbn [is_empty]. intros [= H]. by destruct name. }
    rewrite Match_unfold. destruct (is_empty pattern) eqn:Hne.
    { destruct pattern; [|done]. intros [= H]. by destruct name. }
    destruct (scanChunk pattern) as [[star chunk] rest] eqn:Hscan.
    pose proof (scanChunk_shorter pattern star chunk rest Hne Hscan) as Hshort.
    unfold scanChunk in Hscan.
    destruct (skipStars_parts pattern) as (stars & Hp & Hstars).
    pose proof (skipStars_no_star pattern) as Hnostar.
    destruct (skipStars pattern) as [star' p]. cbn [snd] in Hp, Hnostar.
    destruct (scan false p) as [chunk' rest'] eqn:Hsc.
    injection Hscan as -> -> ->.
    pose proof (scan_app _ _ _ _ Hsc) as Hpq.
    assert (Hcount : separators pattern = (separators chunk + separators rest)%nat).
    { by rewrite Hp, Hpq, !separators_app, Hstars. }
    assert (contains_byte "[" chunk = false ∧ contains_byte "[" rest = false)
      as [Hchunk Hrest].
    { rewrite Hp, Hpq, !contains_byte_app in Hpattern.
      apply orb_false_iff in Hpattern as [_ H]. by apply orb_false_iff in H. }
    assert (Hgo : ∀ t, (∃ consumed, name = consumed +:+ t ∧
                          separators consumed = separators chunk) →
              Match rest t = inr true → separators name = separators pattern).
    { intros t (consumed & -> & Hc) Ht. apply IH in Ht; [|lia|done].
      rewrite separators_app, Hcount. lia. }
    destruct (star && is_empty chunk) eqn:Hstar.
    { apply andb_true_iff in Hstar as [_ Hchunk0]. destruct chunk; [|done].
      destruct (scan_empty_chunk p rest Hsc Hnostar) as [-> ->].
      intros [= H]. apply negb_true_iff, separators_none in H.
      rewrite H, Hcount. done. }
    destruct (matchChunk chunk name) as [e|found] eqn:Hm; [done|].
    cbv zeta.
    assert (Htail : match (if star then starLoop chunk (is_empty rest) name
                           else inr None) with
                    | inl e => inl e
                    | inr (Some t) => Match rest t
                    | inr None =>
                        match checkRemainder (String.length rest) rest with
                        | Some e => inl e
                        | None => inr false
                        end
                    end = inr true → separators name = separators pattern).
    { destruct star.
      - destruct (starLoop chunk (is_empty rest) name) as [e|[t|]] eqn:Hstar';
          [done | | by destruct (checkRemainder _ rest)].
        apply Hgo. by apply (starLoop_separators chunk (is_empty rest)).
      - by destruct (checkRemainder _ rest). }
    destruct found as [t|]; [|exact Htail].
    apply matchChunk_loop_separators in Hm; [|done].
    destruct (is_empty t || negb (is_empty rest)); [by apply Hgo | exact Htail]. }
  by apply (Hn (String.length pattern)).
Qed.

End MatchSeparators.

Section MatchStar.

Import Bytes filepath.

Implicit Types (prefix suffix path f t name : string).

Lemma matchChunk_literal chunk s :
  hasMeta chunk = false →
  ∃ found, matchChunk chunk s = inr found ∧
    ∀ t, found = Some t ↔ s = chunk +:+ t.
Proof.
  intros Hmeta.
  pose proof (matchChunk_wellFormed chunk s) as Hw.
  pose proof (matchChunk_loop_literal (S (String.length chunk)) chunk s) as Hlit.
  fold (matchChunk chunk s) in Hlit.
  destruct (matchChunk chunk s) as [e|found].
  - exfalso. assert (failure (inl e : PatternError + option string) = false) as Hf.
    { apply Hw. by apply hasMeta_wellFormed. }
    done.
  - exists found. split; [done|]. intros t. rewrite <- (Hlit t Hmeta ltac:(lia)).
    split; [by intros -> | by intros [= ->]].
Qed.

Lemma string_app_inv_l a b c : a +:+ b = a +:+ c → b = c.
Proof.
  induction a as [|x a IH]; [done|]. rewrite !string_app_cons.
  intros [= H]. by apply IH.
Qed.

(** The search after a star for a last chunk without metacharacters: it
    succeeds when the name is the chunk after some bytes, at least one, that
    hold no separator. *)
Lemma starLoop_literal_found suffix name t :
  hasMeta suffix = false →
  starLoop suffix true name = inr (Some t) →
  t = EmptyString ∧
  ∃ f, is_empty f = false ∧ name = f +:+ suffix ∧
       contains_byte Separator f = false.
Proof.
  intros Hmeta. induction name as [|c name IH]; cbn [starLoop]; [done|].
  destruct (eqb c Separator) eqn:Hc; [done|].
  assert (Hskip : (t = EmptyString ∧
                   ∃ f, is_empty f = false ∧ name = f +:+ suffix ∧
                        contains_byte Separator f = false) →
                  t = EmptyString ∧
                  ∃ f, is_empty f = false ∧ String c name = f +:+ suffix ∧
                       contains_byte Separator f = false).
  { intros (-> & f & _ & -> & Hf). split; [done|]. exists (String c f).
    split; [done|]. split; [done|].
    cbn [contains_byte]. by rewrite (eqb_sym Separator c), Hc. }
  destruct (matchChunk_literal suffix name Hmeta) as (found & -> & Hfound).
  destruct found as [t'|]; [|intros H; by apply Hskip, IH].
  cbn [andb]. destruct (is_empty t') eqn:Ht'; cbn [negb].
  - intros [= <-]. destruct t'; [|done]. split; [done|].
    exists (String c EmptyString). split; [done|]. split.
    + rewrite string_app_cons. f_equal.
      rewrite (proj1 (Hfound EmptyString) eq_refl). by rewrite append_empty_r.
    + cbn [contains_byte]. by rewrite (eqb_sym Separator c), Hc.
  - intros H. by apply Hskip, IH.
Qed.

Lemma starLoop_literal_finds suffix f :
  hasMeta suffix = false → is_empty f = false →
  contains_byte Separator f = false →
  starLoop suffix true (f +:+ suffix) = inr (Some EmptyString).
Proof.
  intros Hmeta. induction f as [|c f IH]; [done|]. intros _ Hf.
  cbn [contains_byte] in Hf. apply orb_false_iff in Hf as [Hc Hf].
  rewrite string_app_cons. cbn [starLoop]. rewrite (eqb_sym c Separator), Hc.
  destruct (matchChunk_literal suffix (f +:+ suffix) Hmeta) as (found & -> & Hfound).
  destruct f as [|d f].
  - rewrite string_app_nil_l in *.
    pose proof (proj2 (Hfound EmptyString)) as H. rewrite append_empty_r in H.
    specialize (H eq_refl). subst found. done.
  - destruct found as [t'|]; [|by apply IH].
    assert (is_empty t' = false) as ->; [|by apply IH].
    pose proof (proj1 (Hfound t') eq_refl) as Heq.
    apply (f_equal String.length) in Heq. rewrite !string_length_app in Heq.
    destruct t'; [simpl in Heq; lia | done].
Qed.

Lemma hasMeta_no_star suffix :
  hasMeta suffix = false → skipStars suffix = (false, suffix).
Proof.
  unfold hasMeta. destruct suffix as [|d s]; [done|].
  cbn [contains_any contains_byte skipStars].
  intros [Hd _]%orb_false_iff. apply orb_false_iff in Hd as [H _]. by rewrite H.
Qed.

(** A star and then a chunk without metacharacters. *)
Lemma Match_star_suffix suffix name :
  hasMeta suffix = false →
  Match (String "*" suffix) name = inr true ↔
  ∃ f, name = f +:+ suffix ∧ contains_byte Separator f = false.
Proof.
  intros Hmeta. rewrite Match_unfold. cbn [is_empty].
  assert (scanChunk (String "*" suffix) = (true, suffix, EmptyString)) as ->.
  { unfold scanChunk. cbn [skipStars]. change (eqb "*" "*") with true. cbv iota.
    rewrite (hasMeta_no_star suffix Hmeta). cbn [snd].
    by rewrite (scan_literal false suffix Hmeta). }
  cbn [andb]. destruct (is_empty suffix) eqn:Hempty.
  { destruct suffix; [|done]. split.
    - intros [= H]. exists name. split; [by rewrite append_empty_r|].
      by apply negb_true_iff.
    - intros (f & -> & Hf). by rewrite append_empty_r, Hf. }
  destruct (matchChunk_literal suffix name Hmeta) as (found & -> & Hfound).
  cbv zeta. cbn [is_empty negb].
  assert (Htail : match starLoop suffix true name with
                  | inl e => inl e
                  | inr (Some t) => Match EmptyString t
                  | inr None =>
                      match checkRemainder (String.length EmptyString) EmptyString with
                      | Some e => inl e
                      | None => inr false
                      end
                  end = inr true ↔
                  ∃ f, is_empty f = false ∧ name = f +:+ suffix ∧
                       contains_byte Separator f = false).
  { split.
    - destruct (starLoop suffix true name) as [e|[t|]] eqn:Hstar; [done | | done].
      destruct (starLoop_literal_found suffix name t Hmeta Hstar) as (-> & f & H).
      intros _. by exists f.
    - intros (f & Hne & -> & Hf).
      by rewrite (starLoop_literal_finds suffix f Hmeta Hne Hf). }
  assert (Hsplit : (∃ f, name = f +:+ suffix ∧ contains_byte Separator f = false) ↔
            name = suffix ∨
            ∃ f, is_empty f = false ∧ name = f +:+ suffix ∧
                 contains_byte Separator f = false).
  { split.
    - intros (f & -> & Hf). destruct f as [|c f]; [by left | right].
      by exists (String c f).
    - intros [-> | (f & _ & -> & Hf)]; [by exists EmptyString | by exists f]. }
  rewrite Hsplit. destruct found as [t|].
  - pose proof (proj1 (Hfound t) eq_refl) as Hname. rewrite orb_false_r.
    destruct (is_empty t) eqn:Ht.
    + destruct t; [|done]. rewrite append_empty_r in Hname. subst name.
      rewrite Match_unfold. cbn [is_empty]. split; [by left | done].
    + rewrite Htail. split; [by right|]. intros [-> | H]; [|done].
      apply (f_equal String.length) in Hname. rewrite string_length_app in Hname.
      destruct t; [done | simpl in Hname; lia].
  - rewrite Htail. split; [by right|]. intros [-> | H]; [|done].
    pose proof (proj2 (Hfound EmptyString)) as H. rewrite append_empty_r in H.
    by specialize (H eq_refl).
Qed.

Lemma scan_literal_before_star prefix rest :
  hasMeta prefix = false →
  scan false (prefix +:+ String "*" rest) = (prefix, String "*" rest).
Proof.
  unfold hasMeta. induction prefix as [|c prefix IH]; [done|].
  cbn [contains_any contains_byte]. intros [Hc Hp]%orb_false_iff.
  apply orb_false_iff in Hc as [H1 Hc]. apply orb_false_iff in Hc as [H2 Hc].
  apply orb_false_iff in Hc as [H3 Hc]. apply orb_false_iff in Hc as [H4 _].
  rewrite !string_app_cons. cbn [scan]. rewrite H4, H3, H1. cbn [andb].
  rewrite (IH Hp). by destruct (eqb c "]").
Qed.

(** The pattern [prefix*suffix], whose two parts hold no metacharacter,
    matches the names made of the prefix, some bytes without a separator,
    and the suffix. *)
Lemma Match_star prefix suffix path :
  hasMeta prefix = false → hasMeta suffix = false →
  Match (prefix +:+ String "*" suffix) path = inr true ↔
  ∃ f, path = prefix +:+ f +:+ suffix ∧ contains_byte Separator f = false.
Proof.
  intros Hprefix Hsuffix.
  destruct prefix as [|c0 p0] eqn:Hp.
  { rewrite string_app_nil_l. rewrite (Match_star_suffix suffix path Hsuffix).
    done. }
  rewrite <- Hp in *. assert (Hne : is_empty prefix = false) by by subst.
  clear Hp c0 p0.
  rewrite Match_unfold.
  assert (is_empty (prefix +:+ String "*" suffix) = false) as -> by by destruct prefix.
  unfold scanChunk.
  assert (skipStars (prefix +:+ String "*" suffix)
          = (false, prefix +:+ String "*" suffix)) as ->.
  { pose proof (hasMeta_no_star prefix Hprefix) as H.
    destruct prefix as [|c p]; [done|]. rewrite string_app_cons.
    cbn [skipStars] in *. by destruct (eqb c "*"). }
  rewrite (scan_literal_before_star prefix suffix Hprefix). cbn [andb].
  destruct (matchChunk_literal prefix path Hprefix) as (found & -> & Hfound).
  cbv zeta. cbn [is_empty negb]. destruct found as [t|].
  - pose proof (proj1 (Hfound t) eq_refl) as ->. rewrite orb_true_r.
    rewrite (Match_star_suffix suffix t Hsuffix). split.
    + intros (f & -> & Hf). by exists f.
    + intros (f & Heq%string_app_inv_l & Hf). by exists f.
  - cbn [checkRemainder]. split.
    + destruct (checkRemainder _ _); done.
    + intros (f & -> & _). exfalso.
      pose proof (proj2 (Hfound (f +:+ suffix)) eq_refl). done.
Qed.

End MatchStar.

(** ** Ranging over a map *)

Section Range.

Implicit Types (table : gmap string string) (m e : Exclude).
Implicit Types (order : list string) (k path : string).

Lemma keys_lookup table k : k ∈ keys (Some table) ↔ is_Some (table !! k).
Proof.
  unfold keys. rewrite list_elem_of_fmap. split.
  - intros [[k' v] [-> Hin]]. apply elem_of_map_to_list in Hin. by exists v.
  - intros [v Hv]. exists (k, v). split; [done|]. by apply elem_of_map_to_list.
Qed.

Lemma keys_NoDup m : NoDup (keys m).
Proof.
  destruct m as [table|]; simpl; [apply NoDup_fst_map_to_list | constructor].
Qed.

Lemma range_order_elem m order k :
  range_order m order → k ∈ order ↔ k ∈ keys m.
Proof. unfold range_order. intros Hperm. by rewrite Hperm. Qed.

Lemma range_order_nil order : range_order None order → order = [].
Proof. unfold range_order; simpl. apply Permutation_nil_r. Qed.

Lemma range_order_empty order : range_order (Some ∅) order → order = [].
Proof.
  unfold range_order; simpl. rewrite map_to_list_empty. apply Permutation_nil_r.
Qed.

Lemma range_order_singleton k v order :
  range_order (Some {[k := v]}) order → order = [k].
Proof.
  unfold range_order; simpl. rewrite map_to_list_singleton; simpl.
  apply Permutation_singleton_r.
Qed.

Lemma range_order_keys m : range_order m (keys m).
Proof. by unfold range_order. Qed.

End Range.

(** ** Excluded *)

Section ExcludedFacts.

Implicit Types (e : Exclude) (order : list string) (k path : string).

Lemma Excluded_no_rejection order path :
  Forall (fun k => rejects k path = false) order →
  Excluded order path = Returns (existsb (fun k => matches k path) order).
Proof.
  induction 1 as [|k order Hk _ IH]; simpl; [done|].
  unfold rejects in Hk. unfold matches at 1.
  destruct (filepath.Match k path) as [err|[|]]; [done | done | exact IH].
Qed.

Lemma Excluded_true order path :
  Excluded order path = Returns true → ∃ k, k ∈ order ∧ matches k path = true.
Proof.
  induction order as [|k order IH]; simpl; [done|].
  destruct (filepath.Match k path) as [err|[|]] eqn:Hm; [done | | ].
  - intros _. exists k. split; [left|]. unfold matches. by rewrite Hm.
  - intros H. destruct (IH H) as (k' & Hin & Hk'). exists k'. split; [by right|done].
Qed.

Lemma Excluded_false order path :
  Excluded order path = Returns false →
  Forall (fun k => filepath.Match k path = inr false) order.
Proof.
  induction order as [|k order IH]; simpl; [constructor|].
  destruct (filepath.Match k path) as [err|[|]] eqn:Hm; [done | done | ].
  intros H. constructor; [done | by apply IH].
Qed.

Lemma existsb_matches order path :
  existsb (fun k => matches k path) order = true ↔
  ∃ k, k ∈ order ∧ matches k path = true.
Proof.
  rewrite existsb_exists. split; intros (k & Hin & Hk); exists k;
    (split; [by apply list_elem_of_In | done]).
Qed.

(** C10. Querying the zero value of [Exclude], the nil map that no load has
    ever replaced, does not fail: ranging over it visits nothing, so
    [Excluded] returns false for every path, which is also what it returns
    for the empty mapping. *)
Theorem Excluded_unloaded order order' path :
  range_order None order → range_order (Some ∅) order' →
  Excluded order path = Returns false ∧
  Excluded order path = Excluded order' path.
Proof.
  intros ->%range_order_nil ->%range_order_empty. done.
Qed.

Lemma Excluded_unloaded_witness :
  Excluded [] "/repo/testdata/testdata.go" = Returns false ∧
  Excluded [] "/repo/testdata/testdata.go" = Excluded [] "/repo/testdata/testdata.go".
Proof.
  apply (Excluded_unloaded [] [] "/repo/testdata/testdata.go").
  - unfold range_order. simpl. apply Permutation_refl.
  - unfold range_order. simpl. rewrite map_to_list_empty. apply Permutation_refl.
Defined.

Lemma existsb_matches_perm order1 order2 path :
  order1 ≡ₚ order2 →
  existsb (fun k => matches k path) order1
  = existsb (fun k => matches k path) order2.
Proof.
  intros Hperm. apply Bool.eq_iff_eq_true. rewrite !existsb_matches.
  split; intros (k & Hin & Hk); exists k; (split; [|done]).
  - by rewrite <- Hperm.
  - by rewrite Hperm.
Qed.

Lemma compiles_Forall e order path :
  range_order e order →
  (∀ k, k ∈ keys e → compiles k = true) →
  Forall (fun k => rejects k path = false) order.
Proof.
  intros Hrange Hok. apply Forall_forall. intros k Hin.
  rewrite rejects_any_path, Hok; [done|]. by apply (range_order_elem e order).
Qed.

(** What [Excluded] does on a mapping whose stored patterns all compile
    under the matcher: for every query path it returns a boolean, true if
    and only if at least one stored pattern glob-matches the path, false if
    and only if none does; and for the empty mapping it returns false for
    every path.  After a load this is the case whenever the working
    directory holds no metacharacter of the matcher. *)
Theorem Excluded_iff_some_pattern_matches e order path :
  range_order e order →
  (∀ k, k ∈ keys e → compiles k = true) →
  (∃ b, Excluded order path = Returns b) ∧
  (Excluded order path = Returns true ↔
     ∃ k, k ∈ keys e ∧ matches k path = true) ∧
  (Excluded order path = Returns false ↔
     ¬ ∃ k, k ∈ keys e ∧ matches k path = true) ∧
  (e = Some ∅ → Excluded order path = Returns false).
Proof.
  intros Hrange Hok.
  pose proof (Excluded_no_rejection order path
                (compiles_Forall e order path Hrange Hok)) as Heq.
  assert (Hex : existsb (fun k => matches k path) order = true ↔
                ∃ k, k ∈ keys e ∧ matches k path = true).
  { rewrite existsb_matches. split; intros (k & Hin & Hk); exists k;
      (split; [by apply (range_order_elem e order) | done]). }
  rewrite Heq. repeat split.
  - eauto.
  - intros [= H]. by apply Hex.
  - intros H. f_equal. by apply Hex.
  - intros [= H] Hsome. apply Hex in Hsome. congruence.
  - intros Hnone. f_equal. apply Bool.not_true_is_false. intros H.
    by apply Hnone, Hex.
  - intros ->. apply range_order_empty in Hrange. by subst order.
Qed.

Lemma Excluded_iff_some_pattern_matches_witness :
  (∃ b, Excluded ["/repo/*.log"] "/repo/app.log" = Returns b) ∧
  (Excluded ["/repo/*.log"] "/repo/app.log" = Returns true ↔
     ∃ k, k ∈ keys (Some {["/repo/*.log" := "noise"]})
          ∧ matches k "/repo/app.log" = true) ∧
  (Excluded ["/repo/*.log"] "/repo/app.log" = Returns false ↔
     ¬ ∃ k, k ∈ keys (Some {["/repo/*.log" := "noise"]})
            ∧ matches k "/repo/app.log" = true) ∧
  (Some ({["/repo/*.log" := "noise"]} : gmap string string) = Some ∅ →
   Excluded ["/repo/*.log"] "/repo/app.log" = Returns false).
Proof.
  apply (Excluded_iff_some_pattern_matches
           (Some {["/repo/*.log" := "noise"]}) ["/repo/*.log"] "/repo/app.log").
  - unfold range_order. vm_compute. apply Permutation_refl.
  - intros k Hk. vm_compute in Hk. apply list_elem_of_singleton in Hk.
    subst k. vm_compute. reflexivity.
Defined.

(** C1. The code departs from the claim on a mapping that a load has
    built.  In a working directory whose name holds a bracket, the load of
    the one relative pattern [a] succeeds: line 44 checks [a], line 51
    stores [/tmp/[x/a], which the matcher rejects.  No stored pattern
    matches the path [/q], and [Excluded] panics at line 61 where the claim
    has it return false. *)
Lemma Excluded_aborts_where_claim_returns_false :
  json.Unmarshal (text "{'a':'r'}") = inr (Some {["a" := "r"]}) ∧
  range_order (Some {["a" := "r"]}) ["a"] ∧
  UnmarshalJSON (process (Some "/tmp/[x")) ["a"] (text "{'a':'r'}") None
  = (Some {["/tmp/[x/a" := "r"]}, None) ∧
  range_order (Some {["/tmp/[x/a" := "r"]}) ["/tmp/[x/a"] ∧
  matches "/tmp/[x/a" "/q" = false ∧
  Excluded ["/tmp/[x/a"] "/q" = Panics "Uncaught bad pattern".
Proof.
  repeat split; try (vm_compute; reflexivity);
    unfold range_order; vm_compute; apply Permutation_refl.
Qed.

(** Two calls of [Excluded] on the same mapping and path, each with the
    iteration order the runtime gives it, return the same boolean whenever
    both return; and when the stored patterns all compile under the matcher,
    every iteration order gives the same outcome. *)
Theorem Excluded_order_independent e order1 order2 path :
  range_order e order1 → range_order e order2 →
  (∀ b1 b2, Excluded order1 path = Returns b1 →
            Excluded order2 path = Returns b2 → b1 = b2) ∧
  ((∀ k, k ∈ keys e → compiles k = true) →
   Excluded order1 path = Excluded order2 path).
Proof.
  intros H1 H2.
  assert (Hperm : order1 ≡ₚ order2) by (unfold range_order in *; by rewrite H1, H2).
  assert (Hmix : ∀ o o', o ≡ₚ o' → Excluded o path = Returns true →
                         Excluded o' path = Returns false → False).
  { intros o o' Hp Ht Hf. apply Excluded_true in Ht as (k & Hin & Hk).
    apply Excluded_false in Hf. rewrite Forall_forall in Hf.
    rewrite Hp in Hin. apply Hf in Hin. unfold matches in Hk.
    by rewrite Hin in Hk. }
  split.
  - intros [|] [|] Hb1 Hb2; try done; exfalso.
    + by apply (Hmix order1 order2).
    + by apply (Hmix order2 order1).
  - intros Hok.
    rewrite (Excluded_no_rejection order1 path), (Excluded_no_rejection order2 path)
      by (by eapply compiles_Forall).
    f_equal. by apply existsb_matches_perm.
Qed.

Lemma Excluded_order_independent_witness :
  (∀ b1 b2, Excluded ["/b"; "/repo/a"] "/b" = Returns b1 →
            Excluded ["/repo/a"; "/b"] "/b" = Returns b2 → b1 = b2) ∧
  ((∀ k, k ∈ keys (Some {["/b" := "x"; "/repo/a" := "y"]}) →
         compiles k = true) →
   Excluded ["/b"; "/repo/a"] "/b" = Excluded ["/repo/a"; "/b"] "/b").
Proof.
  apply (Excluded_order_independent
           (Some {["/b" := "x"; "/repo/a" := "y"]})
           ["/b"; "/repo/a"] ["/repo/a"; "/b"] "/b").
  - unfold range_order. vm_compute. apply perm_swap.
  - unfold range_order. vm_compute. apply Permutation_refl.
Defined.

(** C9. The code departs from the claim on a mapping that a load has
    built.  In a working directory whose name holds a bracket, the load of
    the patterns [/b] and [a] succeeds and stores [/b] and [/tmp/[x/a], the
    second of which the matcher rejects (line 44 checks [a], line 51 stores
    its absolute form).  On the path [/b], [Excluded] returns true when it
    visits [/b] first and panics at line 61 when it visits [/tmp/[x/a]
    first: the outcome depends on the iteration order. *)
Lemma Excluded_outcome_depends_on_order :
  json.Unmarshal (text "{'/b':'x','a':'y'}")
  = inr (Some {["/b" := "x"; "a" := "y"]}) ∧
  range_order (Some {["/b" := "x"; "a" := "y"]}) ["/b"; "a"] ∧
  UnmarshalJSON (process (Some "/tmp/[x")) ["/b"; "a"]
    (text "{'/b':'x','a':'y'}") None
  = (Some {["/b" := "x"; "/tmp/[x/a" := "y"]}, None) ∧
  range_order (Some {["/b" := "x"; "/tmp/[x/a" := "y"]}) ["/b"; "/tmp/[x/a"] ∧
  range_order (Some {["/b" := "x"; "/tmp/[x/a" := "y"]}) ["/tmp/[x/a"; "/b"] ∧
  Excluded ["/b"; "/tmp/[x/a"] "/b" = Returns true ∧
  Excluded ["/tmp/[x/a"; "/b"] "/b" = Panics "Uncaught bad pattern".
Proof.
  repeat split; try (vm_compute; reflexivity);
    unfold range_order; vm_compute;
    first [apply Permutation_refl | apply perm_swap].
Qed.

End ExcludedFacts.

(** ** UnmarshalJSON *)

Section Load.

Variable env : os.Env.

Implicit Types (m e : Exclude) (table : gmap string string).
Implicit Types (order visited : list string) (b pattern : string).

Lemma range_store m order table :
  Forall (fun p => accepted env p = true) order →
  UnmarshalJSON_range env m order table = (foldl (store env m) table order, None).
Proof.
  intros Hall. revert table.
  induction Hall as [|p order Hp _ IH]; intros table; simpl; [done|].
  unfold accepted in Hp. unfold store at 2.
  destruct (filepath.Glob env p); [done|].
  destruct (filepath.Abs env p); [apply IH | done].
Qed.

Lemma range_stops m visited pattern rest table :
  Forall (fun p => accepted env p = true) visited →
  accepted env pattern = false →
  UnmarshalJSON_range env m (visited ++ pattern :: rest) table
  = (foldl (store env m) table visited, Some (rejection env pattern)).
Proof.
  intros Hall Hrej. revert table.
  induction Hall as [|p order Hp _ IH]; intros table; simpl.
  - unfold accepted in Hrej. unfold rejection.
    destruct (filepath.Glob env pattern); [done|].
    destruct (filepath.Abs env pattern); [done | done].
  - unfold accepted in Hp. unfold store at 2.
    destruct (filepath.Glob env p); [done|].
    destruct (filepath.Abs env p); [apply IH | done].
Qed.

(** The loop either accepts every pattern or stops at the first one it does
    not accept. *)
Lemma order_split order :
  Forall (fun p => accepted env p = true) order ∨
  ∃ visited pattern rest,
    order = visited ++ pattern :: rest ∧
    Forall (fun p => accepted env p = true) visited ∧
    accepted env pattern = false.
Proof.
  induction order as [|p order IH]; [by left|].
  destruct (accepted env p) eqn:Hp.
  - destruct IH as [Hall | (visited & q & rest & -> & Hall & Hq)].
    + left. by constructor.
    + right. exists (p :: visited), q, rest. split; [done|]. split; [|done].
      by constructor.
  - right. exists [], p, order. split; [done|]. split; [constructor | done].
Qed.

Lemma UnmarshalJSON_success order b e0 e' m :
  json.Unmarshal b = inr m →
  UnmarshalJSON env order b e0 = (e', None) →
  Forall (fun p => accepted env p = true) order ∧ e' = Some (entries env m order).
Proof.
  intros Hm. unfold UnmarshalJSON. rewrite Hm.
  destruct (order_split order) as [Hall | (visited & q & rest & -> & Hall & Hq)].
  - rewrite (range_store m order ∅ Hall). intros [= <-]. done.
  - rewrite (range_stops m visited q rest ∅ Hall Hq). done.
Qed.

(** C2, amended. A failed load returns the first error encountered.  When
    the bytes do not decode, the receiver is left as it was.  When a
    pattern is not accepted, the receiver has already been replaced by a
    new mapping, which holds the entries of the patterns visited before the
    failing one, and nothing else. *)
Theorem failed_load_state order b e0 e' err :
  UnmarshalJSON env order b e0 = (e', Some err) →
  (∃ jerr, json.Unmarshal b = inl jerr ∧ err = MalformedConfig jerr ∧ e' = e0) ∨
  (∃ m visited pattern rest,
     json.Unmarshal b = inr m ∧
     order = visited ++ pattern :: rest ∧
     Forall (fun p => accepted env p = true) visited ∧
     accepted env pattern = false ∧
     err = rejection env pattern ∧
     e' = Some (entries env m visited)).
Proof.
  unfold UnmarshalJSON. destruct (json.Unmarshal b) as [jerr|m] eqn:Hm.
  - intros [= <- <-]. left. by exists jerr.
  - destruct (order_split order) as [Hall | (visited & q & rest & -> & Hall & Hq)].
    + by rewrite (range_store m order ∅ Hall).
    + rewrite (range_stops m visited q rest ∅ Hall Hq). intros [= <- <-].
      right. by exists m, visited, q, rest.
Qed.

Lemma store_keys m order table k :
  is_Some (foldl (store env m) table order !! k) ↔
  is_Some (table !! k) ∨ ∃ p, p ∈ order ∧ filepath.Abs env p = Some k.
Proof.
  revert table. induction order as [|q order IH]; intros table; simpl.
  - split; [by left|]. intros [H | (p & Hin & _)]; [done|]. by apply elem_of_nil in Hin.
  - rewrite IH. unfold store. split.
    + intros [H | (p & Hin & Hp)].
      * destruct (filepath.Abs env q) as [k'|] eqn:Hq; [|by left].
        destruct (decide (k' = k)) as [->|Hne].
        -- right. exists q. split; [left | done].
        -- left. by rewrite lookup_insert_ne in H.
      * right. exists p. split; [by right | done].
    + intros [H | (p & Hin & Hp)].
      * left. destruct (filepath.Abs env q) as [k'|]; [|done].
        destruct (decide (k' = k)) as [->|Hne].
        -- rewrite lookup_insert_eq. by eexists.
        -- by rewrite lookup_insert_ne.
      * apply elem_of_cons in Hin as [-> | Hin].
        -- left. rewrite Hp. rewrite lookup_insert_eq. by eexists.
        -- right. by exists p.
Qed.

Lemma entries_keys m order k :
  k ∈ keys (Some (entries env m order)) ↔
  ∃ p, p ∈ order ∧ filepath.Abs env p = Some k.
Proof.
  rewrite keys_lookup. unfold entries. rewrite store_keys. split.
  - intros [[v Hv] | H]; [by rewrite lookup_empty in Hv | done].
  - intros H. by right.
Qed.

Lemma store_other m order table k :
  (∀ q, q ∈ order → filepath.Abs env q ≠ Some k) →
  foldl (store env m) table order !! k = table !! k.
Proof.
  revert table. induction order as [|q order IH]; intros table Hq; simpl; [done|].
  rewrite IH by (intros q' Hin; apply Hq; by right).
  unfold store. destruct (filepath.Abs env q) as [k'|] eqn:Hk'; [|done].
  apply lookup_insert_ne. intros ->. by apply (Hq q); [left|].
Qed.

(** The reason kept for a key is that of the last pattern visited whose
    absolute form is the key. *)
Lemma entries_last_wins m visited p rest k :
  filepath.Abs env p = Some k →
  (∀ q, q ∈ rest → filepath.Abs env q ≠ Some k) →
  entries env m (visited ++ p :: rest) !! k = Some (index m p).
Proof.
  intros Hk Hrest. unfold entries. rewrite foldl_app. simpl.
  rewrite store_other by done. unfold store. rewrite Hk.
  apply lookup_insert_eq.
Qed.

Lemma accepted_Abs pattern :
  accepted env pattern = true → is_Some (filepath.Abs env pattern).
Proof.
  unfold accepted. destruct (filepath.Glob env pattern); [done|].
  destruct (filepath.Abs env pattern); [by eexists | done].
Qed.

Lemma Abs_cases pattern k :
  filepath.Abs env pattern = Some k →
  if filepath.IsAbs pattern then k = filepath.Clean pattern
  else ∃ wd, os.Getwd env = Some wd ∧ k = filepath.Join wd pattern.
Proof.
  unfold filepath.Abs. destruct (filepath.IsAbs pattern).
  - by intros [= <-].
  - destruct (os.Getwd env) as [wd|]; [|done]. intros [= <-]. by exists wd.
Qed.




Lemma storeMembers_saved members table saved :
  snd (json.storeMembers members table saved) = None ↔
  saved = None ∧ loadable (json.Object members) = true.
Proof.
  revert table saved. induction members as [|[key v] members IH];
    intros table saved; simpl; [tauto|].
  destruct v; simpl; rewrite IH; simpl; try tauto;
    (split; [intros [H _]; by destruct saved | intros [_ H]; done]).
Qed.

Lemma Unmarshal_error_iff b :
  (∃ jerr, json.Unmarshal b = inl jerr) ↔
  (∀ v, json.parse b = Some v → loadable v = false).
Proof.
  unfold json.Unmarshal. destruct (json.parse b) as [v|]; cycle 1.
  { split; [done | by eexists]. }
  assert (Hobj : ∀ members,
    (∃ jerr, match json.storeMembers members ∅ None with
             | (_, Some e) => inl e
             | (m, None) => inr (Some m)
             end = inl jerr)
    ↔ loadable (json.Object members) = false).
  { intros members.
    pose proof (storeMembers_saved members ∅ None) as Hs.
    destruct (json.storeMembers members ∅ None) as [table [e|]]; simpl in Hs.
    - split; [|by eexists]. intros _. apply Bool.not_true_is_false.
      intros H. by specialize (proj2 Hs (conj eq_refl H)).
    - split; [by intros [? ?]|]. intros H.
      destruct (proj1 Hs eq_refl) as [_ Ht]. simpl in H. congruence. }
  destruct v as [| | | | |members]; simpl.
  - split; [by intros [? ?] | intros H; by specialize (H _ eq_refl)].
  - split; [by intros _ ? [= <-] | by eexists].
  - split; [by intros _ ? [= <-] | by eexists].
  - split; [by intros _ ? [= <-] | by eexists].
  - split; [by intros _ ? [= <-] | by eexists].
  - rewrite Hobj. split; [by intros H ? [= <-] | intros H; by apply H].
Qed.

(** C5, amended. Loading fails with a [MalformedConfig] error exactly when
    the bytes are not valid JSON, or are valid JSON other than [null] and
    other than an object whose member values are strings or [null]; the
    failure leaves the receiver as it was and consults neither the patterns
    nor the environment. *)
Theorem MalformedConfig_iff_not_loadable order b e0 :
  (∃ jerr, UnmarshalJSON env order b e0 = (e0, Some (MalformedConfig jerr)))
  ↔ (∀ v, json.parse b = Some v → loadable v = false).
Proof.
  rewrite <- Unmarshal_error_iff. unfold UnmarshalJSON.
  destruct (json.Unmarshal b) as [jerr|m].
  - split; intros _; by eexists.
  - split; [|by intros [? ?]]. intros [jerr H]. exfalso.
    destruct (order_split order) as [Hall | (visited & q & rest & -> & Hall & Hq)].
    + by rewrite (range_store m order ∅ Hall) in H.
    + rewrite (range_stops m visited q rest ∅ Hall Hq) in H.
      unfold rejection in H. by destruct (filepath.Glob env q).
Qed.

Lemma loaded_key order b e0 e' m p :
  json.Unmarshal b = inr m → range_order m order →
  UnmarshalJSON env order b e0 = (e', None) → p ∈ keys m →
  ∃ k, filepath.Abs env p = Some k ∧ k ∈ keys e'.
Proof.
  intros Hm Hrange Hload Hp.
  destruct (UnmarshalJSON_success order b e0 e' m Hm Hload) as [Hall ->].
  apply (range_order_elem m order) in Hp; [|done].
  rewrite Forall_forall in Hall.
  destruct (accepted_Abs p (Hall p Hp)) as [k Hk].
  exists k. split; [done|]. apply entries_keys. by exists p.
Qed.

Lemma loaded_keys_rooted order b e0 e' m k :
  (∀ wd, os.Getwd env = Some wd → filepath.IsAbs wd = true) →
  json.Unmarshal b = inr m →
  UnmarshalJSON env order b e0 = (e', None) →
  k ∈ keys e' → filepath.IsAbs k = true.
Proof.
  intros Hwd Hm Hload.
  destruct (UnmarshalJSON_success order b e0 e' m Hm Hload) as [_ ->].
  intros (p & _ & Hp)%entries_keys. by apply (Abs_rooted env p).
Qed.


End Load.



(** C5 as stated fails: [null] is valid JSON and not an object, and an
    object with a [null] value is not an object of strings; both load
    without error, as the empty mapping and as an empty reason. *)
Lemma null_loads_without_error :
  json.parse (text "null") = Some json.Null ∧
  UnmarshalJSON (process (Some "/repo")) [] (text "null") None = (Some ∅, None) ∧
  json.parse (text "{'a': null}") = Some (json.Object [("a", json.Null)]) ∧
  UnmarshalJSON (process (Some "/repo")) ["a"] (text "{'a': null}") None
  = (Some {["/repo/a" := EmptyString]}, None).
Proof. repeat split; vm_compute; reflexivity. Qed.

(** C3, amended. After a successful load every raw pattern has its key in
    the mapping: the lexically cleaned pattern ([filepath.Clean]) when the
    pattern is absolute, which is the pattern itself when it is a rooted
    path of simple elements, and the pattern joined to the working directory
    and cleaned ([filepath.Join]) when it is relative.  Loading the relative
    pattern [testdata/testdata.go] in the directory [/repo] stores the key
    [/repo/testdata/testdata.go]; that path is excluded and
    [/other/testdata/testdata.go] is not. *)
Theorem stored_key_is_cleaned_absolute_form :
  (∀ env order b e0 e' m p,
     json.Unmarshal b = inr m → range_order m order →
     UnmarshalJSON env order b e0 = (e', None) → p ∈ keys m →
     ∃ k, k ∈ keys e' ∧
          if filepath.IsAbs p then k = filepath.Clean p
          else ∃ wd, os.Getwd env = Some wd ∧ k = filepath.Join wd p) ∧
  (∀ segs, segs ≠ [] → Forall (fun seg => simple seg = true) segs →
           filepath.Clean (rooted segs) = rooted segs) ∧
  UnmarshalJSON (process (Some "/repo")) ["testdata/testdata.go"]
    (text "{'testdata/testdata.go': 'Tracked in issue #42'}") None
  = (Some {["/repo/testdata/testdata.go" := "Tracked in issue #42"]}, None) ∧
  Excluded ["/repo/testdata/testdata.go"] "/repo/testdata/testdata.go"
  = Returns true ∧
  Excluded ["/repo/testdata/testdata.go"] "/other/testdata/testdata.go"
  = Returns false.
Proof.
  split; [|split; [exact Clean_simple_path | repeat split; vm_compute; reflexivity]].
  intros env order b e0 e' m p Hm Hrange Hload Hp.
  destruct (loaded_key env order b e0 e' m p Hm Hrange Hload Hp) as (k & Hk & Hin).
  exists k. split; [done|]. by apply Abs_cases.
Qed.

Lemma stored_key_is_cleaned_absolute_form_witness :
  ∃ k, k ∈ keys (Some {["/a/b" := "r"]}) ∧
       if filepath.IsAbs "/a//b" then k = filepath.Clean "/a//b"
       else ∃ wd, os.Getwd (process (Some "/repo")) = Some wd
                  ∧ k = filepath.Join wd "/a//b".
Proof.
  apply (proj1 stored_key_is_cleaned_absolute_form (process (Some "/repo"))
           ["/a//b"] (text "{'/a//b':'r'}") None (Some {["/a/b" := "r"]})
           (Some {["/a//b" := "r"]}) "/a//b").
  - vm_compute. reflexivity.
  - unfold range_order. vm_compute. apply Permutation_refl.
  - vm_compute. reflexivity.
  - vm_compute. left.
Defined.

(** C3 as stated fails: an absolute pattern that is not in clean form is not
    stored as it is. *)
Lemma absolute_pattern_not_stored_as_is :
  filepath.IsAbs "/a//b" = true ∧
  UnmarshalJSON (process (Some "/repo")) ["/a//b"] (text "{'/a//b':'r'}") None
  = (Some {["/a/b" := "r"]}, None) ∧
  ({["/a/b" := "r"]} : gmap string string) !! "/a//b" = None.
Proof. repeat split; vm_compute; reflexivity. Qed.

(** ** The patterns a load stores are not validated *)

(** C6. In the working directory [/tmp/[x] the load of the pattern [a]
    succeeds: the pattern checked is [a], the pattern stored is
    [/tmp/[x/a], which the matcher rejects, and [Excluded] panics. *)
Lemma Excluded_panics_after_successful_load :
  json.Unmarshal (text "{'a':'r'}") = inr (Some {["a" := "r"]}) ∧
  range_order (Some {["a" := "r"]}) ["a"] ∧
  UnmarshalJSON (process (Some "/tmp/[x")) ["a"] (text "{'a':'r'}") None
  = (Some {["/tmp/[x/a" := "r"]}, None) ∧
  range_order (Some {["/tmp/[x/a" := "r"]}) ["/tmp/[x/a"] ∧
  Excluded ["/tmp/[x/a"] "/tmp/[x/a" = Panics "Uncaught bad pattern".
Proof.
  repeat split; try (vm_compute; reflexivity);
    unfold range_order; vm_compute; apply Permutation_refl.
Qed.

(** C8. After the same successful load the one key of the mapping is
    absolute and does not compile under the matcher. *)
Lemma loaded_key_does_not_compile :
  UnmarshalJSON (process (Some "/tmp/[x")) ["a"] (text "{'a':'r'}") None
  = (Some {["/tmp/[x/a" := "r"]}, None) ∧
  keys (Some {["/tmp/[x/a" := "r"]}) = ["/tmp/[x/a"] ∧
  filepath.IsAbs "/tmp/[x/a" = true ∧
  compiles "/tmp/[x/a" = false ∧
  filepath.Match "/tmp/[x/a" EmptyString = inl filepath.ErrBadPattern.
Proof. repeat split; vm_compute; reflexivity. Qed.

Lemma failed_load_state_witness :
  (∃ jerr, json.Unmarshal (text "{'a':'x','[bad':'y'}") = inl jerr ∧
           InvalidPattern "[bad" filepath.ErrBadPattern = MalformedConfig jerr ∧
           Some ({["/repo/a" := "x"]} : gmap string string) = None) ∨
  (∃ m visited pattern rest,
     json.Unmarshal (text "{'a':'x','[bad':'y'}") = inr m ∧
     ["a"; "[bad"] = visited ++ pattern :: rest ∧
     Forall (fun p => accepted (process (Some "/repo")) p = true) visited ∧
     accepted (process (Some "/repo")) pattern = false ∧
     InvalidPattern "[bad" filepath.ErrBadPattern
     = rejection (process (Some "/repo")) pattern ∧
     Some ({["/repo/a" := "x"]} : gmap string string)
     = Some (entries (process (Some "/repo")) m visited)).
Proof.
  apply (failed_load_state (process (Some "/repo")) ["a"; "[bad"]
           (text "{'a':'x','[bad':'y'}") None).
  vm_compute. reflexivity.
Defined.

(** C2 as stated fails: the load of two patterns, the second malformed,
    returns an error and leaves in the receiver the entry of the first. *)
Lemma failed_load_keeps_earlier_entries :
  json.Unmarshal (text "{'a':'x','[bad':'y'}")
  = inr (Some {["a" := "x"; "[bad" := "y"]}) ∧
  range_order (Some {["a" := "x"; "[bad" := "y"]}) ["a"; "[bad"] ∧
  UnmarshalJSON (process (Some "/repo")) ["a"; "[bad"]
    (text "{'a':'x','[bad':'y'}") None
  = (Some {["/repo/a" := "x"]},
     Some (InvalidPattern "[bad" filepath.ErrBadPattern)).
Proof.
  repeat split; try (vm_compute; reflexivity).
  unfold range_order; vm_compute; first [apply Permutation_refl | apply perm_swap].
Qed.


(** ** Loading one entry *)

(** C7, amended. When the load of the single-entry object [{p: r}]
    succeeds, the mapping holds exactly one entry: its key is the canonical
    pattern [k = Abs(p)] and its reason is [r].  For every path that
    [canonicalize] makes from [k] (from the canonical absolute pattern, not
    from [p]) by replacing its wildcards with literal matching characters,
    [Excluded] returns true. *)
Theorem single_entry_load_excludes_canonical_path env order b e0 e' p r :
  json.Unmarshal b = inr (Some {[p := r]}) →
  range_order (Some {[p := r]}) order →
  UnmarshalJSON env order b e0 = (e', None) →
  ∃ k, filepath.Abs env p = Some k ∧ e' = Some {[k := r]} ∧
       ∀ path order',
         canonical.canonicalize k = Some path → range_order e' order' →
         Excluded order' path = Returns true.
Proof.
  intros Hm ->%range_order_singleton Hload.
  destruct (UnmarshalJSON_success env [p] b e0 e' _ Hm Hload) as [Hall ->].
  apply Forall_inv in Hall. destruct (accepted_Abs env p Hall) as [k Hk].
  exists k. split; [done|].
  assert (Hentries : entries env (Some {[p := r]}) [p] = {[k := r]}).
  { unfold entries; simpl. unfold store. rewrite Hk. simpl.
    rewrite lookup_singleton_eq. simpl. apply insert_empty. }
  rewrite Hentries. split; [done|].
  intros path order' Hcanon ->%range_order_singleton. simpl.
  by rewrite (Match_canonical k path Hcanon).
Qed.

Lemma single_entry_load_excludes_canonical_path_witness :
  (∃ k, filepath.Abs (process (Some "/repo")) "src/[a-c]?/*.go" = Some k ∧
        Some ({["/repo/src/[a-c]?/*.go" := "generated"]} : gmap string string)
        = Some {[k := "generated"]} ∧
        ∀ path order',
          canonical.canonicalize k = Some path →
          range_order (Some {["/repo/src/[a-c]?/*.go" := "generated"]}) order' →
          Excluded order' path = Returns true) ∧
  canonical.canonicalize "/repo/src/[a-c]?/*.go" = Some "/repo/src/ax/.go" ∧
  Excluded ["/repo/src/[a-c]?/*.go"] "/repo/src/ax/.go" = Returns true.
Proof.
  split; [|split; vm_compute; reflexivity].
  apply (single_entry_load_excludes_canonical_path (process (Some "/repo"))
           ["src/[a-c]?/*.go"] (text "{'src/[a-c]?/*.go': 'generated'}") None
           (Some {["/repo/src/[a-c]?/*.go" := "generated"]})
           "src/[a-c]?/*.go" "generated").
  - vm_compute. reflexivity.
  - unfold range_order. vm_compute. apply Permutation_refl.
  - vm_compute. reflexivity.
Defined.

(** C7 as stated fails: the path made from a relative raw pattern is
    relative, the stored pattern is absolute, and [Excluded] returns
    false. *)
Lemma relative_pattern_does_not_exclude_its_own_path :
  json.Unmarshal (text "{'a':'r'}") = inr (Some {["a" := "r"]}) ∧
  range_order (Some {["a" := "r"]}) ["a"] ∧
  UnmarshalJSON (process (Some "/repo")) ["a"] (text "{'a':'r'}") None
  = (Some {["/repo/a" := "r"]}, None) ∧
  range_order (Some {["/repo/a" := "r"]}) ["/repo/a"] ∧
  canonical.canonicalize "a" = Some "a" ∧
  Excluded ["/repo/a"] "a" = Returns false.
Proof.
  repeat split; try (vm_compute; reflexivity);
    unfold range_order; vm_compute; apply Permutation_refl.
Qed.

(** ** What a successful load does establish *)

(** The parts of the invariant of the mapping that every successful load
    establishes, for a process whose working directory is an absolute path:
    every key is absolute, no key occurs twice, and the reason kept for a
    key is that of the last raw pattern, in iteration order, whose absolute
    form is the key. *)
Theorem loaded_keys_absolute_and_later_pattern_wins env order b e0 e' m :
  (∀ wd, os.Getwd env = Some wd → filepath.IsAbs wd = true) →
  json.Unmarshal b = inr m →
  UnmarshalJSON env order b e0 = (e', None) →
  (∀ k, k ∈ keys e' → filepath.IsAbs k = true) ∧
  NoDup (keys e') ∧
  (∀ visited p rest k,
     order = visited ++ p :: rest →
     filepath.Abs env p = Some k →
     (∀ q, q ∈ rest → filepath.Abs env q ≠ Some k) →
     index e' k = index m p).
Proof.
  intros Hwd Hm Hload. split; [|split].
  - intros k. by apply (loaded_keys_rooted env order b e0 e' m k).
  - apply keys_NoDup.
  - intros visited p rest k -> Hk Hrest.
    destruct (UnmarshalJSON_success env _ b e0 e' m Hm Hload) as [_ ->].
    unfold index at 1. by rewrite (entries_last_wins env m visited p rest k).
Qed.

Lemma loaded_keys_absolute_and_later_pattern_wins_witness :
  (∀ k, k ∈ keys (Some {["/repo/a" := "second"]}) → filepath.IsAbs k = true) ∧
  NoDup (keys (Some {["/repo/a" := "second"]})) ∧
  (∀ visited p rest k,
     ["a"; "./a"] = visited ++ p :: rest →
     filepath.Abs (process (Some "/repo")) p = Some k →
     (∀ q, q ∈ rest → filepath.Abs (process (Some "/repo")) q ≠ Some k) →
     index (Some {["/repo/a" := "second"]}) k
     = index (Some {["a" := "first"; "./a" := "second"]}) p).
Proof.
  apply (loaded_keys_absolute_and_later_pattern_wins (process (Some "/repo"))
           ["a"; "./a"] (text "{'a':'first','./a':'second'}") None).
  - intros wd [= <-]. vm_compute. reflexivity.
  - vm_compute. reflexivity.
  - vm_compute. reflexivity.
Defined.

(** ** When the stored patterns are valid *)

Lemma UnmarshalJSON_decodes env order b e0 e' :
  UnmarshalJSON env order b e0 = (e', None) → ∃ m, json.Unmarshal b = inr m.
Proof.
  destruct (json.Unmarshal b) as [err|m] eqn:Hm; [|by exists m].
  unfold UnmarshalJSON. by rewrite Hm.
Qed.

Lemma accepted_key_wellFormed env p k :
  (∀ wd, os.Getwd env = Some wd → filepath.hasMeta wd = false) →
  accepted env p = true → filepath.Abs env p = Some k → wellFormed k.
Proof.
  intros Hwd Hp Hk. apply (Abs_wellFormed env p k Hwd); [|done].
  unfold accepted in Hp.
  destruct (filepath.Glob env p) as [err|found] eqn:HG; [done|].
  by apply (Glob_elements env p found).
Qed.

(** In a process whose working directory holds none of the metacharacters
    of the matcher (star, question mark, opening bracket, backslash), every
    key of the mapping a successful load leaves compiles under the matcher,
    and [Excluded] returns for every path, in whatever order it visits the
    keys: true when some key matches the path, false otherwise. *)
Theorem loaded_keys_compile env order b e0 e' :
  (∀ wd, os.Getwd env = Some wd → filepath.hasMeta wd = false) →
  UnmarshalJSON env order b e0 = (e', None) →
  (∀ k, k ∈ keys e' → compiles k = true) ∧
  (∀ order' path, range_order e' order' →
     Excluded order' path = Returns (existsb (fun k => matches k path) order')).
Proof.
  intros Hwd Hload.
  destruct (UnmarshalJSON_decodes env order b e0 e' Hload) as [m Hm].
  destruct (UnmarshalJSON_success env order b e0 e' m Hm Hload) as [Hall ->].
  assert (Hkeys : ∀ k, k ∈ keys (Some (entries env m order)) → compiles k = true).
  { intros k (p & Hp & Hk)%entries_keys. apply compiles_wellFormed.
    rewrite Forall_forall in Hall.
    by apply (accepted_key_wellFormed env p k Hwd (Hall p Hp)). }
  split; [exact Hkeys|]. intros order' path Hrange.
  apply Excluded_no_rejection.
  by apply (compiles_Forall (Some (entries env m order))).
Qed.

Lemma loaded_keys_compile_witness :
  (∀ k, k ∈ keys (Some {["/repo/[a-c]*.go" := "r"]}) → compiles k = true) ∧
  (∀ order' path, range_order (Some {["/repo/[a-c]*.go" := "r"]}) order' →
     Excluded order' path = Returns (existsb (fun k => matches k path) order')).
Proof.
  apply (loaded_keys_compile (process (Some "/repo")) ["x/../[a-c]*.go"]
           (text "{'x/../[a-c]*.go':'r'}") None).
  - intros wd [= <-]. vm_compute. reflexivity.
  - vm_compute. reflexivity.
Defined.

(** ** LoadFromFile *)

Lemma Unmarshal_invalid b :
  json.Valid b = false → json.Unmarshal b = inl json.SyntaxError.
Proof.
  unfold json.Valid, json.Unmarshal. by destruct (json.parse b).
Qed.

Lemma Unmarshal_Exclude_UnmarshalJSON env order b e :
  Unmarshal_Exclude env order b e = UnmarshalJSON env order b e.
Proof.
  unfold Unmarshal_Exclude. destruct (json.Valid b) eqn:Hvalid.
  - unfold UnmarshalJSON. by rewrite (Unmarshal_valueText b Hvalid).
  - unfold UnmarshalJSON. by rewrite (Unmarshal_invalid b Hvalid).
Qed.

(** [LoadFromFile] returns the error of the read, leaving the receiver as
    it was, when the file cannot be read; otherwise it leaves the receiver
    as [UnmarshalJSON] leaves it when given the contents of the file, and it
    fails when that call fails, with the same error as far as [error]
    records one: a syntax error, a type error for the same description of
    the JSON value, the error of line 45 or of line 49 for the same pattern.
    The check and the cut that [json.Unmarshal] makes before it calls
    [UnmarshalJSON] do not change these.  The offset that a type error of
    [json.Unmarshal] carries is not part of [json.Error]: it is counted from
    the start of the bytes handed over, so it is smaller by the white space
    cut off in front. *)
Theorem LoadFromFile_unmarshals_the_contents env ReadFile order file e :
  LoadFromFile env ReadFile order file e
  = match ReadFile file with
    | inl err => (e, Some (ReadFileError err))
    | inr b =>
        let '(e', err) := UnmarshalJSON env order b e in
        (e', option_map UnmarshalError err)
    end.
Proof.
  unfold LoadFromFile. destruct (ReadFile file) as [err|b]; [done|].
  by rewrite Unmarshal_Exclude_UnmarshalJSON.
Qed.

(** ** What a load depends on, and which loads succeed *)

Lemma Abs_Getwd env env' p :
  os.Getwd env = os.Getwd env' → filepath.Abs env p = filepath.Abs env' p.
Proof. intros Hwd. unfold filepath.Abs. by rewrite Hwd. Qed.

Lemma UnmarshalJSON_range_Getwd env env' m order table :
  os.Getwd env = os.Getwd env' →
  UnmarshalJSON_range env m order table = UnmarshalJSON_range env' m order table.
Proof.
  intros Hwd. revert table.
  induction order as [|p order IH]; intros table; [done|].
  cbn [UnmarshalJSON_range]. pose proof (Glob_failure env env' p) as HG.
  rewrite <- (Abs_Getwd env env' p Hwd).
  destruct (filepath.Glob env p) as [[]|found], (filepath.Glob env' p) as [[]|found'];
    try done.
  destruct (filepath.Abs env p); [apply IH | done].
Qed.

Lemma accepted_Getwd env env' p :
  os.Getwd env = os.Getwd env' → accepted env p = accepted env' p.
Proof.
  intros Hwd. unfold accepted. pose proof (Glob_failure env env' p) as HG.
  rewrite <- (Abs_Getwd env env' p Hwd).
  by destruct (filepath.Glob env p) as [[]|found],
              (filepath.Glob env' p) as [[]|found'].
Qed.

Lemma UnmarshalJSON_accepts env order b e0 m :
  json.Unmarshal b = inr m →
  Forall (fun p => accepted env p = true) order →
  UnmarshalJSON env order b e0 = (Some (entries env m order), None).
Proof.
  intros Hm Hall. unfold UnmarshalJSON. rewrite Hm.
  by rewrite (range_store env m order ∅ Hall).
Qed.

(** The file system plays no part in a load.  For one iteration order of
    the decoded map, two processes with the same working directory get the
    same result from the same bytes, the same mapping or the same error,
    whatever files exist.  The runtime picks the order anew at each run:
    for two orders of the same keys, the two loads still succeed together
    or fail together, and after success the two mappings have the same
    keys. *)
Theorem load_ignores_file_system env env' order order' b e0 :
  os.Getwd env = os.Getwd env' → order ≡ₚ order' →
  UnmarshalJSON env order b e0 = UnmarshalJSON env' order b e0 ∧
  ((∃ e1, UnmarshalJSON env order b e0 = (e1, None)) ↔
   (∃ e2, UnmarshalJSON env' order' b e0 = (e2, None))) ∧
  (∀ e1 e2, UnmarshalJSON env order b e0 = (e1, None) →
            UnmarshalJSON env' order' b e0 = (e2, None) →
            ∀ k, k ∈ keys e1 ↔ k ∈ keys e2).
Proof.
  intros Hwd Hperm.
  assert (Hacc : ∀ o o' v v', os.Getwd v = os.Getwd v' → o ≡ₚ o' →
            Forall (fun p => accepted v p = true) o →
            Forall (fun p => accepted v' p = true) o').
  { intros o o' v v' Hv Hp Hall. rewrite <- Hp.
    eapply Forall_impl; [exact Hall|]. intros p Hok.
    by rewrite <- (accepted_Getwd v v' p Hv). }
  split; [|split].
  - unfold UnmarshalJSON. destruct (json.Unmarshal b) as [err|m]; [done|].
    by rewrite (UnmarshalJSON_range_Getwd env env' m order ∅ Hwd).
  - split; intros [e Hload].
    + destruct (UnmarshalJSON_decodes env order b e0 e Hload) as [m Hm].
      destruct (UnmarshalJSON_success env order b e0 e m Hm Hload) as [Hall _].
      exists (Some (entries env' m order')).
      apply UnmarshalJSON_accepts; [done|]. by apply (Hacc order order' env env').
    + destruct (UnmarshalJSON_decodes env' order' b e0 e Hload) as [m Hm].
      destruct (UnmarshalJSON_success env' order' b e0 e m Hm Hload) as [Hall _].
      exists (Some (entries env m order)).
      apply UnmarshalJSON_accepts; [done|]. by apply (Hacc order' order env' env).
  - intros e1 e2 H1 H2 k.
    destruct (UnmarshalJSON_decodes env order b e0 e1 H1) as [m Hm].
    destruct (UnmarshalJSON_success env order b e0 e1 m Hm H1) as [_ ->].
    destruct (UnmarshalJSON_success env' order' b e0 e2 m Hm H2) as [_ ->].
    rewrite !entries_keys.
    split; intros (p & Hin & Hk); exists p.
    + rewrite <- Hperm, <- (Abs_Getwd env env' p Hwd). done.
    + rewrite Hperm, (Abs_Getwd env env' p Hwd). done.
Qed.

Lemma load_ignores_file_system_witness :
  UnmarshalJSON (process (Some "/repo")) ["*.go"; "b"]
    (text "{'*.go':'r','b':'s'}") None
  = UnmarshalJSON
      {| os.Getwd := Some "/repo"; os.Lstat := fun _ => true;
         os.ReadDir := fun _ => Some ["a.go"; "b.txt"] |}
      ["*.go"; "b"] (text "{'*.go':'r','b':'s'}") None ∧
  ((∃ e1, UnmarshalJSON (process (Some "/repo")) ["*.go"; "b"]
            (text "{'*.go':'r','b':'s'}") None = (e1, None)) ↔
   (∃ e2, UnmarshalJSON
            {| os.Getwd := Some "/repo"; os.Lstat := fun _ => true;
               os.ReadDir := fun _ => Some ["a.go"; "b.txt"] |}
            ["b"; "*.go"] (text "{'*.go':'r','b':'s'}") None = (e2, None))) ∧
  (∀ e1 e2,
     UnmarshalJSON (process (Some "/repo")) ["*.go"; "b"]
       (text "{'*.go':'r','b':'s'}") None = (e1, None) →
     UnmarshalJSON
       {| os.Getwd := Some "/repo"; os.Lstat := fun _ => true;
          os.ReadDir := fun _ => Some ["a.go"; "b.txt"] |}
       ["b"; "*.go"] (text "{'*.go':'r','b':'s'}") None = (e2, None) →
     ∀ k, k ∈ keys e1 ↔ k ∈ keys e2).
Proof.
  apply load_ignores_file_system; [reflexivity | apply perm_swap].
Defined.

Lemma accepted_iff env p :
  (length (elements p) <= filepath.pathSeparatorsLimit)%nat →
  accepted env p = true ↔
  Forall (fun seg => compiles seg = true) (elements p) ∧
  (filepath.IsAbs p = true ∨ is_Some (os.Getwd env)).
Proof.
  intros Hlen. unfold accepted. split.
  - destruct (filepath.Glob env p) as [err|found] eqn:HG; [done|].
    intros Habs. split.
    + eapply Forall_impl; [by apply (Glob_elements env p found)|].
      intros seg. apply compiles_wellFormed.
    + unfold filepath.Abs in Habs. destruct (filepath.IsAbs p); [by left | right].
      by destruct (os.Getwd env).
  - intros [Hel Habs].
    assert (Forall wellFormed (elements p)) as Hwf.
    { eapply Forall_impl; [exact Hel|]. intros seg. apply compiles_wellFormed. }
    pose proof (globWithLimit_accepts env _ p Hwf Hlen) as HG.
    fold (filepath.Glob env p) in HG.
    destruct (filepath.Glob env p) as [err|found]; [done|].
    unfold filepath.Abs. destruct (filepath.IsAbs p); [done|].
    destruct Habs as [? | [wd ->]]; done.
Qed.

(** The loads that succeed: a configuration that decodes loads exactly
    when every element between separators of every pattern compiles under
    the matcher, and the working directory is known if some pattern is
    relative.  This is for patterns of at most 10000 elements, the limit of
    the recursion of [Glob].  The check is stricter than the matcher: the
    pattern [a[/]b] compiles, with the separator inside a class, and the
    load refuses it, since its first element [a[] does not compile (its
    second, []b], does). *)
Theorem load_succeeds_iff_every_element_compiles env order b e0 m :
  json.Unmarshal b = inr m → range_order m order →
  (∀ p, p ∈ keys m → (length (elements p) <= filepath.pathSeparatorsLimit)%nat) →
  (∃ e', UnmarshalJSON env order b e0 = (e', None)) ↔
  ∀ p, p ∈ keys m →
    Forall (fun seg => compiles seg = true) (elements p) ∧
    (filepath.IsAbs p = true ∨ is_Some (os.Getwd env)).
Proof.
  intros Hm Hrange Hlen. split.
  - intros [e' Hload] p Hp.
    destruct (UnmarshalJSON_success env order b e0 e' m Hm Hload) as [Hall _].
    rewrite Forall_forall in Hall. apply accepted_iff; [by apply Hlen|].
    apply Hall. by apply (range_order_elem m order).
  - intros Hall. exists (Some (entries env m order)).
    unfold UnmarshalJSON. rewrite Hm.
    rewrite (range_store env m order ∅); [done|].
    apply Forall_forall. intros p Hp%(range_order_elem m order); [|done].
    apply accepted_iff; [by apply Hlen | by apply Hall].
Qed.

Lemma load_succeeds_iff_every_element_compiles_witness :
  ((∃ e', UnmarshalJSON (process (Some "/repo")) ["a[/]b"]
            (text "{'a[/]b':'r'}") None = (e', None)) ↔
   ∀ p, p ∈ keys (Some {["a[/]b" := "r"]}) →
     Forall (fun seg => compiles seg = true) (elements p) ∧
     (filepath.IsAbs p = true ∨ is_Some (os.Getwd (process (Some "/repo"))))) ∧
  compiles "a[/]b" = true ∧
  elements "a[/]b" = ["a["; "]b"] ∧
  compiles "a[" = false ∧
  compiles "]b" = true ∧
  UnmarshalJSON (process (Some "/repo")) ["a[/]b"] (text "{'a[/]b':'r'}") None
  = (Some ∅, Some (InvalidPattern "a[/]b" filepath.ErrBadPattern)).
Proof.
  split; [|repeat split; vm_compute; reflexivity].
  apply (load_succeeds_iff_every_element_compiles (process (Some "/repo"))
           ["a[/]b"] (text "{'a[/]b':'r'}") None (Some {["a[/]b" := "r"]})).
  - vm_compute. reflexivity.
  - unfold range_order. vm_compute. apply Permutation_refl.
  - intros p Hp. unfold keys in Hp. rewrite map_to_list_singleton in Hp.
    apply list_elem_of_singleton in Hp. subst p.
    apply Nat.leb_le. vm_compute. reflexivity.
Defined.

(** ** The keys a load stores *)

(** Every key a load stores, in a working directory that is an absolute
    path, is in clean form: the root, or a rooted path of elements that are
    not empty and are neither [.] nor [..].  [Clean] and [Abs] leave it as it
    is: a key is the canonical pattern of itself. *)
Theorem loaded_keys_are_clean env order b e0 e' k :
  (∀ wd, os.Getwd env = Some wd → filepath.IsAbs wd = true) →
  UnmarshalJSON env order b e0 = (e', None) →
  k ∈ keys e' →
  (∃ segs, Forall (fun s => simple s = true) segs ∧ k = rootedPath segs) ∧
  filepath.Clean k = k ∧ filepath.Abs env k = Some k.
Proof.
  intros Hwd Hload Hk.
  destruct (UnmarshalJSON_decodes env order b e0 e' Hload) as [m Hm].
  pose proof (loaded_keys_rooted env order b e0 e' m k Hwd Hm Hload Hk) as Habs.
  destruct (UnmarshalJSON_success env order b e0 e' m Hm Hload) as [_ ->].
  apply entries_keys in Hk as (p & _ & Hp).
  destruct (Abs_rootedPath env p k Hwd Hp) as (segs & Hsegs & ->).
  pose proof (Clean_rootedPath_fixed segs Hsegs) as Hclean.
  split; [by exists segs|]. split; [done|].
  unfold filepath.Abs. by rewrite Habs, Hclean.
Qed.

Lemma loaded_keys_are_clean_witness :
  (∃ segs, Forall (fun s => simple s = true) segs ∧ "/repo/x/z" = rootedPath segs) ∧
  filepath.Clean "/repo/x/z" = "/repo/x/z" ∧
  filepath.Abs (process (Some "/repo")) "/repo/x/z" = Some "/repo/x/z".
Proof.
  apply (loaded_keys_are_clean (process (Some "/repo")) ["x//./y/../z/"]
           (text "{'x//./y/../z/':'r'}") None (Some {["/repo/x/z" := "r"]})).
  - intros wd [= <-]. vm_compute. reflexivity.
  - vm_compute. reflexivity.
  - unfold keys. rewrite map_to_list_singleton. apply list_elem_of_singleton.
    reflexivity.
Defined.

Lemma omap_length {A B : Type} (f : A → option B) (l : list A) :
  (length (omap f l) <= length l)%nat.
Proof.
  induction l as [|x l IH]; [done|]. cbn [omap list_omap length].
  destruct (f x); simpl; lia.
Qed.

Lemma entries_keys_length env m order :
  (length (keys (Some (entries env m order))) <= length order)%nat.
Proof.
  transitivity (length (omap (filepath.Abs env) order)).
  - apply submseteq_length, NoDup_submseteq; [apply keys_NoDup|].
    intros k (p & Hp & Hk)%entries_keys. apply list_elem_of_omap. by exists p.
  - apply omap_length.
Qed.

(** The mapping a successful load leaves holds the absolute forms of the
    raw patterns and no other key, whatever the receiver held before; it
    never has more entries than the configuration. *)
Theorem loaded_keys_are_the_absolute_patterns env order b e0 e' m :
  json.Unmarshal b = inr m → range_order m order →
  UnmarshalJSON env order b e0 = (e', None) →
  (∀ k, k ∈ keys e' ↔ ∃ p, p ∈ keys m ∧ filepath.Abs env p = Some k) ∧
  (length (keys e') <= length (keys m))%nat ∧
  (∀ e1, UnmarshalJSON env order b e1 = (e', None)).
Proof.
  intros Hm Hrange Hload.
  destruct (UnmarshalJSON_success env order b e0 e' m Hm Hload) as [Hall ->].
  split; [|split].
  - intros k. rewrite entries_keys. split; intros (p & Hp & Hk); exists p;
      (split; [by apply (range_order_elem m order) | done]).
  - unfold range_order in Hrange. rewrite <- Hrange. apply entries_keys_length.
  - intros e1. unfold UnmarshalJSON. rewrite Hm.
    by rewrite (range_store env m order ∅ Hall).
Qed.

Lemma loaded_keys_are_the_absolute_patterns_witness :
  (∀ k, k ∈ keys (Some {["/repo/a" := "second"]}) ↔
        ∃ p, p ∈ keys (Some {["a" := "first"; "./a" := "second"]}) ∧
             filepath.Abs (process (Some "/repo")) p = Some k) ∧
  (length (keys (Some {["/repo/a" := "second"]}))
   <= length (keys (Some {["a" := "first"; "./a" := "second"]})))%nat ∧
  (∀ e1, UnmarshalJSON (process (Some "/repo")) ["a"; "./a"]
           (text "{'a':'first','./a':'second'}") e1
         = (Some {["/repo/a" := "second"]}, None)).
Proof.
  apply (loaded_keys_are_the_absolute_patterns (process (Some "/repo"))
           ["a"; "./a"] (text "{'a':'first','./a':'second'}") None).
  - vm_compute. reflexivity.
  - unfold range_order. vm_compute. first [apply Permutation_refl | apply perm_swap].
  - vm_compute. reflexivity.
Defined.

Lemma storeMembers_lookup members table saved key :
  (json.storeMembers members table saved).1 !! key
  = match lastMember members key with
    | Some v => Some (reason v)
    | None => table !! key
    end.
Proof.
  revert table saved. induction members as [|[k v] members IH];
    intros table saved; [done|].
  assert (Hstep : ∀ saved',
            (json.storeMembers members (<[k := reason v]> table) saved').1 !! key
            = match lastMember ((k, v) :: members) key with
              | Some v => Some (reason v)
              | None => table !! key
              end).
  { intros saved'. rewrite IH. cbn [lastMember].
    destruct (lastMember members key); [done|].
    destruct (String.eqb k key) eqn:Hk.
    - apply String.eqb_eq in Hk. subst k. apply lookup_insert_eq.
    - apply String.eqb_neq in Hk. by apply lookup_insert_ne. }
  destruct v; apply Hstep.
Qed.

(** When the configuration names a pattern more than once, the reason
    decoded for it is that of its last member in the text; every member name
    is a key of the decoded map, and [null] decodes as the empty reason. *)
Theorem decoded_reason_is_that_of_last_member b members m :
  json.parse b = Some (json.Object members) →
  json.Unmarshal b = inr m →
  (∀ key, key ∈ keys m ↔ is_Some (lastMember members key)) ∧
  (∀ key v, lastMember members key = Some v → index m key = reason v).
Proof.
  unfold json.Unmarshal. intros ->.
  pose proof (storeMembers_lookup members ∅ None) as Hlookup.
  destruct (json.storeMembers members ∅ None) as [table [e|]]; [done|].
  intros [= <-]. cbn [fst] in Hlookup. split.
  - intros key. rewrite keys_lookup, Hlookup.
    destruct (lastMember members key); [|rewrite lookup_empty];
      split; intros [? ?]; done.
  - intros key v Hv. unfold index. by rewrite Hlookup, Hv.
Qed.

Lemma decoded_reason_is_that_of_last_member_witness :
  (∀ key, key ∈ keys (Some {["a" := "second"; "b" := ""]}) ↔
          is_Some (lastMember [("a", json.Str "first"); ("b", json.Null);
                               ("a", json.Str "second")] key)) ∧
  (∀ key v, lastMember [("a", json.Str "first"); ("b", json.Null);
                        ("a", json.Str "second")] key = Some v →
            index (Some {["a" := "second"; "b" := ""]}) key = reason v).
Proof.
  apply (decoded_reason_is_that_of_last_member
           (text "{'a':'first', 'b':null, 'a':'second'}")).
  - vm_compute. reflexivity.
  - vm_compute. reflexivity.
Defined.

(** Patterns added to a configuration never turn an excluded path into one
    that is not: in a working directory without metacharacters, a path the
    smaller configuration excludes is excluded by the larger one. *)
Theorem larger_configuration_excludes_more
    env b1 b2 m1 m2 order1 order2 e0 e0' e1 e2 visit1 visit2 path :
  (∀ wd, os.Getwd env = Some wd → filepath.hasMeta wd = false) →
  json.Unmarshal b1 = inr m1 → json.Unmarshal b2 = inr m2 →
  range_order m1 order1 → range_order m2 order2 →
  (∀ p, p ∈ keys m1 → p ∈ keys m2) →
  UnmarshalJSON env order1 b1 e0 = (e1, None) →
  UnmarshalJSON env order2 b2 e0' = (e2, None) →
  range_order e1 visit1 → range_order e2 visit2 →
  Excluded visit1 path = Returns true → Excluded visit2 path = Returns true.
Proof.
  intros Hwd Hm1 Hm2 Hr1 Hr2 Hsub Hl1 Hl2 Hv1 Hv2 (k & Hk & Hmatch)%Excluded_true.
  destruct (UnmarshalJSON_success env order1 b1 e0 e1 m1 Hm1 Hl1) as [_ ->].
  destruct (UnmarshalJSON_success env order2 b2 e0' e2 m2 Hm2 Hl2) as [Hall ->].
  rewrite Excluded_no_rejection.
  - f_equal. apply existsb_matches. exists k. split; [|done].
    apply (range_order_elem _ _ k Hv2). apply entries_keys.
    apply (range_order_elem _ _ k Hv1), entries_keys in Hk as (p & Hp & Hpk).
    exists p. split; [|done]. apply (range_order_elem m2 order2); [done|].
    apply Hsub. by apply (range_order_elem m1 order1).
  - apply (compiles_Forall (Some (entries env m2 order2))); [done|].
    intros k' (p & Hp & Hk')%entries_keys. apply compiles_wellFormed.
    rewrite Forall_forall in Hall.
    by apply (accepted_key_wellFormed env p k' Hwd (Hall p Hp)).
Qed.

Lemma larger_configuration_excludes_more_witness :
  Excluded ["/repo/*.go"; "/repo/a"] "/repo/a" = Returns true.
Proof.
  apply (larger_configuration_excludes_more (process (Some "/repo"))
           (text "{'a':'x'}") (text "{'a':'x','*.go':'y'}")
           (Some {["a" := "x"]}) (Some {["a" := "x"; "*.go" := "y"]})
           ["a"] ["a"; "*.go"] None None
           (Some {["/repo/a" := "x"]})
           (Some {["/repo/a" := "x"; "/repo/*.go" := "y"]})
           ["/repo/a"]).
  - intros wd [= <-]. vm_compute. reflexivity.
  - vm_compute. reflexivity.
  - vm_compute. reflexivity.
  - unfold range_order. vm_compute. apply Permutation_refl.
  - unfold range_order. vm_compute. first [apply Permutation_refl | apply perm_swap].
  - intros p Hp. unfold keys in Hp. rewrite map_to_list_singleton in Hp.
    apply list_elem_of_singleton in Hp. subst p.
    apply keys_lookup. vm_compute. by eexists.
  - vm_compute. reflexivity.
  - vm_compute. reflexivity.
  - unfold range_order. vm_compute. apply Permutation_refl.
  - unfold range_order. vm_compute. first [apply Permutation_refl | apply perm_swap].
  - vm_compute. reflexivity.
Defined.

(** ** Which paths are excluded *)

Lemma Excluded_literal order path :
  (∀ k, k ∈ order → filepath.hasMeta k = false) →
  Excluded order path = Returns (bool_decide (path ∈ order)).
Proof.
  induction order as [|k order IH]; intros Hall; [done|].
  cbn [Excluded]. rewrite (Match_literal k path) by (apply Hall; left).
  destruct (String.eqb k path) eqn:Hk.
  - apply String.eqb_eq in Hk. subst k. rewrite bool_decide_eq_true_2; [done | left].
  - rewrite IH by (intros k' Hk'; apply Hall; by right).
    f_equal. apply bool_decide_ext. rewrite elem_of_cons.
    apply String.eqb_neq in Hk. split; [by right | by intros [-> | ?]].
Qed.

Lemma Excluded_rooted order path :
  (∀ k, k ∈ order → filepath.IsAbs k = true) →
  filepath.IsAbs path = false →
  Excluded order path = Returns false ∨
  Excluded order path = Panics "Uncaught bad pattern".
Proof.
  intros Hall Hpath. induction order as [|k order IH]; [by left|].
  cbn [Excluded]. pose proof (Match_rooted k path (Hall k ltac:(left)) Hpath) as Hk.
  destruct (filepath.Match k path) as [e|[|]]; [by right | done |].
  apply IH. intros k' Hk'. apply Hall. by right.
Qed.

(** A load of patterns that hold no metacharacter, in a working directory
    that holds none, excludes exactly the absolute forms of the patterns:
    [Excluded] is the test whether the path is one of the keys. *)
Theorem literal_patterns_exclude_their_absolute_forms_only
    env order b e0 e' m :
  (∀ wd, os.Getwd env = Some wd → filepath.hasMeta wd = false) →
  json.Unmarshal b = inr m → range_order m order →
  (∀ p, p ∈ keys m → filepath.hasMeta p = false) →
  UnmarshalJSON env order b e0 = (e', None) →
  ∀ order' path, range_order e' order' →
    Excluded order' path = Returns (bool_decide (path ∈ keys e')).
Proof.
  intros Hwd Hm Hrange Hlit Hload order' path Hrange'.
  destruct (UnmarshalJSON_success env order b e0 e' m Hm Hload) as [_ ->].
  rewrite Excluded_literal.
  - f_equal. apply bool_decide_ext. by apply range_order_elem.
  - intros k Hk. apply (range_order_elem _ _ k Hrange') in Hk.
    apply entries_keys in Hk as (p & Hp & Hk).
    apply (Abs_literal env p k Hwd); [|done]. apply Hlit.
    by apply (range_order_elem m order).
Qed.

(** After a load in a working directory that is an absolute path, no path
    that is not absolute is excluded: for such a path [Excluded] returns
    false, unless it panics at a key that does not compile. *)
Theorem relative_path_is_never_excluded env order b e0 e' order' path :
  (∀ wd, os.Getwd env = Some wd → filepath.IsAbs wd = true) →
  UnmarshalJSON env order b e0 = (e', None) →
  range_order e' order' → filepath.IsAbs path = false →
  Excluded order' path = Returns false ∨
  Excluded order' path = Panics "Uncaught bad pattern".
Proof.
  intros Hwd Hload Hrange Hpath.
  destruct (UnmarshalJSON_decodes env order b e0 e' Hload) as [m Hm].
  apply Excluded_rooted; [|done]. intros k Hk.
  apply (loaded_keys_rooted env order b e0 e' m k Hwd Hm Hload).
  by apply (range_order_elem e' order').
Qed.

Lemma literal_patterns_exclude_their_absolute_forms_only_witness :
  Excluded ["/repo/testdata"] "/repo/testdata/a.go"
  = Returns (bool_decide ("/repo/testdata/a.go"
                          ∈ keys (Some {["/repo/testdata" := "r"]}))).
Proof.
  apply (literal_patterns_exclude_their_absolute_forms_only
           (process (Some "/repo")) ["testdata/"] (text "{'testdata/':'r'}") None
           (Some {["/repo/testdata" := "r"]}) (Some {["testdata/" := "r"]})).
  - intros wd [= <-]. vm_compute. reflexivity.
  - vm_compute. reflexivity.
  - unfold range_order. vm_compute. apply Permutation_refl.
  - intros p Hp. unfold keys in Hp. rewrite map_to_list_singleton in Hp.
    apply list_elem_of_singleton in Hp. subst p. vm_compute. reflexivity.
  - vm_compute. reflexivity.
  - unfold range_order. vm_compute. apply Permutation_refl.
Defined.

Lemma relative_path_is_never_excluded_witness :
  Excluded ["/repo/*.go"] "a.go" = Returns false ∨
  Excluded ["/repo/*.go"] "a.go" = Panics "Uncaught bad pattern".
Proof.
  apply (relative_path_is_never_excluded (process (Some "/repo")) ["*.go"]
           (text "{'*.go':'r'}") None (Some {["/repo/*.go" := "r"]})).
  - intros wd [= <-]. vm_compute. reflexivity.
  - vm_compute. reflexivity.
  - unfold range_order. vm_compute. apply Permutation_refl.
  - vm_compute. reflexivity.
Defined.

(** A pattern without a character class excludes only paths that are as
    deep as the pattern: when [Excluded] returns true, a pattern matches
    the path and has as many separators as the path. *)
Theorem wildcards_match_within_one_element order path :
  (∀ k, k ∈ order → Bytes.contains_byte "[" k = false) →
  Excluded order path = Returns true →
  ∃ k, k ∈ order ∧ matches k path = true ∧ separators k = separators path.
Proof.
  intros Hall (k & Hk & Hm)%Excluded_true. exists k. split; [done|].
  split; [done|]. symmetry. apply Match_separators; [by apply Hall|].
  unfold matches in Hm. by destruct (filepath.Match k path) as [e|[|]].
Qed.

Lemma wildcards_match_within_one_element_witness :
  ∃ k, k ∈ ["/repo/*/?.go"] ∧ matches k "/repo/pkg/a.go" = true ∧
       separators k = separators "/repo/pkg/a.go".
Proof.
  apply (wildcards_match_within_one_element ["/repo/*/?.go"] "/repo/pkg/a.go").
  - intros k ->%list_elem_of_singleton. vm_compute. reflexivity.
  - vm_compute. reflexivity.
Defined.

(** A mapping whose one key is [prefix*suffix], the two parts without
    metacharacters, excludes the paths made of the prefix, some bytes that
    hold no separator, and the suffix, and no other: the star stays within
    one element of the path.  [Excluded] returns for every path. *)
Theorem star_excludes_within_one_element prefix suffix path :
  filepath.hasMeta prefix = false → filepath.hasMeta suffix = false →
  (Excluded [prefix +:+ String "*" suffix] path = Returns true ↔
   ∃ f, path = prefix +:+ f +:+ suffix ∧
        Bytes.contains_byte filepath.Separator f = false) ∧
  (Excluded [prefix +:+ String "*" suffix] path = Returns true ∨
   Excluded [prefix +:+ String "*" suffix] path = Returns false).
Proof.
  intros Hprefix Hsuffix.
  pose proof (Match_star prefix suffix path Hprefix Hsuffix) as Hm.
  assert (Hok : rejects (prefix +:+ String "*" suffix) path = false).
  { rewrite rejects_any_path. apply negb_false_iff, compiles_wellFormed.
    apply wellFormed_app; [by apply hasMeta_wellFormed|].
    apply wf_plain; [done | done |]. by apply hasMeta_wellFormed. }
  unfold rejects in Hok. cbn [Excluded].
  destruct (filepath.Match (prefix +:+ String "*" suffix) path) as [e|[|]];
    [done | |].
  - split; [|by left]. split; [intros _; by apply Hm | done].
  - split; [|by right]. split; [done|]. intros H. by apply Hm in H.
Qed.

Lemma star_excludes_within_one_element_witness :
  (Excluded ["/repo/" +:+ String "*" ".go"] "/repo/cmd/main.go" = Returns true ↔
   ∃ f, "/repo/cmd/main.go" = "/repo/" +:+ f +:+ ".go" ∧
        Bytes.contains_byte filepath.Separator f = false) ∧
  (Excluded ["/repo/" +:+ String "*" ".go"] "/repo/cmd/main.go" = Returns true ∨
   Excluded ["/repo/" +:+ String "*" ".go"] "/repo/cmd/main.go" = Returns false).
Proof.
  apply (star_excludes_within_one_element "/repo/" ".go" "/repo/cmd/main.go").
  - vm_compute. reflexivity.
  - vm_compute. reflexivity.
Defined.

(** ** Relative patterns in clean form *)

Lemma rooted_app segs1 segs2 :
  rooted (segs1 ++ segs2) = rooted segs1 +:+ rooted segs2.
Proof.
  induction segs1 as [|s segs1 IH]; [done|]. cbn [app rooted].
  by rewrite IH, string_app_cons, string_app_assoc.
Qed.

Lemma Abs_clean_relative env wd segs1 segs2 p :
  os.Getwd env = Some wd →
  segs1 ≠ [] → segs2 ≠ [] →
  Forall (fun s => simple s = true) segs1 →
  Forall (fun s => simple s = true) segs2 →
  wd = rooted segs1 → String filepath.Separator p = rooted segs2 →
  filepath.Abs env p = Some (wd +:+ "/" +:+ p).
Proof.
  intros Hwd Hne1 Hne2 Hs1 Hs2 -> Hp. unfold filepath.Abs.
  assert (filepath.IsAbs p = false) as ->.
  { destruct segs2 as [|s segs2]; [done|]. cbn [rooted] in Hp.
    injection Hp as ->. apply Forall_cons in Hs2 as [Hs _].
    apply simple_parts in Hs as (Hempty & Hsep & _).
    destruct s as [|c s]; [done|]. rewrite string_app_cons.
    unfold filepath.IsAbs. cbn [Bytes.has_prefix_byte].
    cbn [Bytes.contains_byte] in Hsep. by apply orb_false_iff in Hsep as [? _]. }
  rewrite Hwd. f_equal. unfold filepath.Join.
  assert (Bytes.is_empty (rooted segs1) = false) as -> by by destruct segs1.
  cbn [negb]. change (rooted segs1 +:+ "/" +:+ p)
    with (rooted segs1 +:+ String filepath.Separator p).
  rewrite Hp, <- rooted_app. apply Clean_simple_path.
  - by destruct segs1.
  - by apply Forall_app.
Qed.

(** A relative pattern in clean form is stored below the working
    directory: when the working directory is a rooted path of simple
    elements and the pattern is made of simple elements, none of them empty,
    [.] or [..], its absolute form is the working directory, a separator and
    the pattern as written, and that is a key of the mapping after a
    successful load. *)
Theorem clean_relative_pattern_is_stored_below_working_directory
    env order b e0 e' m wd segs1 segs2 p :
  os.Getwd env = Some wd →
  segs1 ≠ [] → segs2 ≠ [] →
  Forall (fun s => simple s = true) segs1 →
  Forall (fun s => simple s = true) segs2 →
  wd = rooted segs1 → String filepath.Separator p = rooted segs2 →
  json.Unmarshal b = inr m → range_order m order →
  UnmarshalJSON env order b e0 = (e', None) → p ∈ keys m →
  filepath.Abs env p = Some (wd +:+ "/" +:+ p) ∧
  wd +:+ "/" +:+ p ∈ keys e'.
Proof.
  intros Hwd Hne1 Hne2 Hs1 Hs2 Hwd' Hp Hm Hrange Hload Hin.
  pose proof (Abs_clean_relative env wd segs1 segs2 p Hwd Hne1 Hne2 Hs1 Hs2 Hwd' Hp)
    as Habs.
  split; [done|].
  destruct (loaded_key env order b e0 e' m p Hm Hrange Hload Hin) as (k & Hk & Hkeys).
  rewrite Habs in Hk. by injection Hk as <-.
Qed.

Lemma clean_relative_pattern_is_stored_below_working_directory_witness :
  filepath.Abs (process (Some "/home/me/repo")) "testdata/*.go"
  = Some ("/home/me/repo" +:+ "/" +:+ "testdata/*.go") ∧
  "/home/me/repo" +:+ "/" +:+ "testdata/*.go"
  ∈ keys (Some {["/home/me/repo/testdata/*.go" := "r"]}).
Proof.
  apply (clean_relative_pattern_is_stored_below_working_directory
           (process (Some "/home/me/repo")) ["testdata/*.go"]
           (text "{'testdata/*.go':'r'}") None
           (Some {["/home/me/repo/testdata/*.go" := "r"]})
           (Some {["testdata/*.go" := "r"]})
           "/home/me/repo" ["home"; "me"; "repo"] ["testdata"; "*.go"]).
  - reflexivity.
  - done.
  - done.
  - repeat constructor.
  - repeat constructor.
  - reflexivity.
  - reflexivity.
  - vm_compute. reflexivity.
  - unfold range_order. vm_compute. apply Permutation_refl.
  - vm_compute. reflexivity.
  - unfold keys. rewrite map_to_list_singleton. apply list_elem_of_singleton.
    reflexivity.
Defined.
